(** * Waifu Berry Miner: cooldown scheduler, event extractor, summary

    A shallow embedding of [B_m.py] and [B_m2.py] and the properties of
    their scheduler tick, of [extract_and_record] and of the session
    summary.

    Conventions of the embedding.
    - A text is a [string]: the sequence of bytes of the UTF-8 encoding of
      the Python [str].  The matcher reads it character by character, as
      [re] does: [\d] is a decimal digit of any script, and [re.I] folds
      the letters as [re] folds them.
    - A [datetime] is a [Z]: microseconds since [datetime.min].
    - Python [int] is [Z].
    - The world outside the program (clock, random generator, transport,
      operator) is an oracle indexed by the number of interactions so far. *)

From Stdlib Require Import ZArith NArith Ascii String List Lia DecimalString.
From Stdlib Require DecimalPos DecimalFacts.
From stdpp Require Import gmap strings list fin_maps.

Local Open Scope string_scope.
Local Open Scope Z_scope.

(** ** Regular expressions: the fragment of [re] the three patterns use *)

Module Re.

(** Character sets: [\d], [[0-9]] and the like, [.], [[s]]. *)
Inductive charset : Type :=
| Digit
| Range (lo hi : ascii)
| AnyButNewline
| OneOf (cs : list ascii).

Inductive regex : Type :=
| Lit (c : ascii)
| Str (s : string)
| In_ (k : charset)
| Cat (r1 r2 : regex)
| Alt (r1 r2 : regex)
| Opt (r : regex)
| Plus (k : charset)
| PlusLazy (k : charset)
| Group (i : nat) (r : regex).

Definition code (c : ascii) : N := N_of_ascii c.

Definition between (lo hi : N) (c : ascii) : bool :=
  (lo <=? code c)%N && (code c <=? hi)%N.

(** The ASCII digits, and the case of the ASCII letters. *)
Definition is_digit (c : ascii) : bool := between 48 57 c.

Definition lower (c : ascii) : ascii :=
  if between 65 90 c then ascii_of_N (code c + 32) else c.

(** *** The characters of a text *)

(** The matcher of [re] works on the characters of a [str], its code
    points.  [decode s] is the first character of the text whose UTF-8
    bytes are [s], and the rest of the bytes; there is none when [s] is
    empty or does not begin with a well-formed character. *)
Definition continuation (c : ascii) : bool := between 128 191 c.

Definition payload (c : ascii) : N := (code c - 128)%N.

Definition surrogate (p : N) : bool := (55296 <=? p)%N && (p <=? 57343)%N.

Definition decode (s : string) : option (N * string) :=
  match s with
  | EmptyString => None
  | String a s1 =>
      if (code a <? 128)%N then Some (code a, s1)
      else if between 194 223 a then
        match s1 with
        | String b s2 =>
            if continuation b
            then Some (((code a - 192) * 64 + payload b)%N, s2)
            else None
        | _ => None
        end
      else if between 224 239 a then
        match s1 with
        | String b (String c s3) =>
            let p := (((code a - 224) * 64 + payload b) * 64 + payload c)%N in
            if continuation b && continuation c
               && (2048 <=? p)%N && negb (surrogate p)
            then Some (p, s3)
            else None
        | _ => None
        end
      else if between 240 244 a then
        match s1 with
        | String b (String c (String d s4)) =>
            let p := ((((code a - 240) * 64 + payload b) * 64 + payload c) * 64
                      + payload d)%N in
            if continuation b && continuation c && continuation d
               && (65536 <=? p)%N && (p <=? 1114111)%N
            then Some (p, s4)
            else None
        | _ => None
        end
      else None
  end.

(** [len(text)]: in a well-formed text every byte but the continuation
    bytes begins a character. *)
Fixpoint characters (s : string) : nat :=
  match s with
  | EmptyString => O
  | String c s' => if continuation c then characters s' else S (characters s')
  end.

(** The decimal digits, the characters of the category [Nd] that [\d]
    matches and [int] reads: they come in runs of ten, 0 to 9, and this is
    the list of the zeros (of Unicode 14, the version of CPython 3.11;
    later versions add runs). *)
Definition decimal_zeros : list N :=
  [48; 1632; 1776; 1984; 2406; 2534; 2662; 2790; 2918; 3046; 3174; 3302;
   3430; 3558; 3664; 3792; 3872; 4160; 4240; 6112; 6160; 6470; 6608; 6784;
   6800; 6992; 7088; 7232; 7248; 42528; 43216; 43264; 43472; 43504; 43600;
   44016; 65296; 66720; 68912; 69734; 69872; 69942; 70096; 70384; 70736;
   70864; 71248; 71360; 71472; 71904; 72016; 72784; 73040; 73120; 92768;
   92864; 93008; 120782; 120792; 120802; 120812; 120822; 123200; 123632;
   125264; 130032]%N.

Definition decimal_value (p : N) : option Z :=
  match find (fun z => (z <=? p)%N && (p <? z + 10)%N) decimal_zeros with
  | Some z => Some (Z.of_N (p - z))
  | None => None
  end.

Definition is_decimal (p : N) : bool :=
  match decimal_value p with Some _ => true | None => false end.

(** Case folding of [re.I].  A literal letter of a pattern matches the
    characters whose lower case is the letter's, or a character that [re]
    takes for the same: the lower case of [İ] is [i] and that of the Kelvin
    sign is [k]; dotless [ı] counts as [i] and long [ſ] as [s].  No other
    character folds to an ASCII letter. *)
Definition lower_point (p : N) : N :=
  if (65 <=? p)%N && (p <=? 90)%N then (p + 32)%N
  else if (p =? 304)%N then 105%N
  else if (p =? 8490)%N then 107%N
  else p.

Definition same_letter (a b : N) : bool :=
  (a =? b)%N || ((a =? 105) && (b =? 305))%N || ((a =? 115) && (b =? 383))%N.

Definition eq_nocase (p : ascii) (c : N) : bool :=
  same_letter (lower_point (code p)) (lower_point c).

(** The characters from [lo] to [hi]. *)
Definition span (lo hi : ascii) : list ascii :=
  map (fun i => ascii_of_N (code lo + N.of_nat i))
    (seq 0 (N.to_nat (code hi + 1 - code lo))).

Definition in_charset (k : charset) (p : N) : bool :=
  match k with
  | Digit => is_decimal p
  | Range lo hi => existsb (fun x => eq_nocase x p) (span lo hi)
  | AnyButNewline => negb (p =? 10)%N
  | OneOf cs => existsb (fun x => eq_nocase x p) cs
  end.

(** One character of the set [k], or the literal [c], at the head of [s]:
    the rest of [s]. *)
Definition eat (k : charset) (s : string) : option string :=
  match decode s with
  | Some (p, s') => if in_charset k p then Some s' else None
  | None => None
  end.

Definition eat_lit (c : ascii) (s : string) : option string :=
  match decode s with
  | Some (p, s') => if eq_nocase c p then Some s' else None
  | None => None
  end.

(** [m.groups()]: one slot per group, [None] for a group that did not
    take part in the match. *)
Definition groups : Type := list (option string).

Definition set_group (i : nat) (s : string) (g : groups) : groups :=
  <[ Nat.pred i := Some s ]> g.

(** The part of [s] consumed when the rest is [s']. *)
Definition consumed (s s' : string) : string :=
  substring 0 (String.length s - String.length s') s.

Section Matcher.
Context {R : Type}.

Fixpoint match_str (p s : string) (k : string -> option R) : option R :=
  match p with
  | EmptyString => k s
  | String pc p' =>
      match eat_lit pc s with
      | Some s' => match_str p' s' k
      | None => None
      end
  end.

(** Greedy [k+]: take as many as possible, give back one at a time.  The
    count [n] bounds the characters taken; a string has no more characters
    than bytes. *)
Fixpoint plus_greedy (n : nat) (cs : charset) (s : string)
    (k : string -> option R) : option R :=
  match n with
  | O => None
  | S n' =>
      match eat cs s with
      | Some s' =>
          match plus_greedy n' cs s' k with
          | Some r => Some r
          | None => k s'
          end
      | None => None
      end
  end.

(** Lazy [k+?]: take one, try the rest of the pattern, take one more. *)
Fixpoint plus_lazy (n : nat) (cs : charset) (s : string)
    (k : string -> option R) : option R :=
  match n with
  | O => None
  | S n' =>
      match eat cs s with
      | Some s' =>
          match k s' with
          | Some r => Some r
          | None => plus_lazy n' cs s' k
          end
      | None => None
      end
  end.

(** Backtracking matcher in continuation-passing style: [k] is the rest
    of the pattern; alternatives are tried left to right. *)
Fixpoint exec (r : regex) (s : string) (g : groups)
  (k : string -> groups -> option R) : option R :=
  match r with
  | Lit c => match_str (String c EmptyString) s (fun s' => k s' g)
  | Str p => match_str p s (fun s' => k s' g)
  | In_ cs =>
      match eat cs s with
      | Some s' => k s' g
      | None => None
      end
  | Cat r1 r2 => exec r1 s g (fun s' g' => exec r2 s' g' k)
  | Alt r1 r2 =>
      match exec r1 s g k with
      | Some x => Some x
      | None => exec r2 s g k
      end
  | Opt r1 =>
      match exec r1 s g k with
      | Some x => Some x
      | None => k s g
      end
  | Plus cs => plus_greedy (String.length s) cs s (fun s' => k s' g)
  | PlusLazy cs => plus_lazy (String.length s) cs s (fun s' => k s' g)
  | Group i r1 =>
      exec r1 s g (fun s' g' => k s' (set_group i (consumed s s') g'))
  end.
End Matcher.

(** A compiled pattern: its syntax and its number of groups. *)
Record pattern : Type := Pattern { syntax : regex; ngroups : nat }.

Definition match_at (p : pattern) (s : string) : option groups :=
  exec (syntax p) s (replicate (ngroups p) None) (fun _ g => Some g).

(** [p.search(text)]: the match at the leftmost position that has one;
    the result is the tuple [m.groups()].  The positions are tried byte by
    byte: no match begins at a continuation byte, where [decode] finds no
    character, since each of the three patterns begins with a character. *)
Fixpoint search (p : pattern) (s : string) : option groups :=
  match match_at p s with
  | Some g => Some g
  | None =>
      match s with
      | String _ s' => search p s'
      | EmptyString => None
      end
  end.

(** [next((g for g in m.groups() if g), None)]: the first group that is
    neither [None] nor the empty string. *)
Fixpoint first_truthy (g : groups) : option string :=
  match g with
  | [] => None
  | Some EmptyString :: g' => first_truthy g'
  | Some s :: _ => Some s
  | None :: g' => first_truthy g'
  end.

End Re.

Import Re.

(** ** Values of the program *)

(** One entry of [summary['events']]: the dict with keys ['time'], ['type'],
    ['amount'] or ['name'], and ['text']; ['type'] is the constructor. *)
Inductive Event : Type :=
| Berries (time : string) (amount : Z) (text : string)
| Crystals (time : string) (amount : Z) (text : string)
| Waifu (time : string) (name : string) (text : string).

(** One entry of [summary['waifus']]. *)
Record WaifuEntry : Type :=
  { waifu_time : string; waifu : string; waifu_text : string }.

(** The dict [self.summary]. *)
Record Summary : Type :=
  { berries_total : Z;
    crystals_total : Z;
    waifus : list WaifuEntry;
    events : list Event }.

Definition empty_summary : Summary :=
  {| berries_total := 0; crystals_total := 0; waifus := []; events := [] |}.

(** What [logger.info] receives.  The entries keep the values the message
    is formatted from.  [Dispatching] is not a log line: it marks the entry
    into the branch [if elapsed >= COMMAND_COOLDOWN]. *)
Inductive LogEntry : Type :=
| SimSent (session_id command : string)
| SimText (text : string)
| ParsedBerries (berries total : string)
| ParsedCrystals (crystals total : string)
| ObtainedWaifu (name : string)
| GotWaifu (name : string)
| BotText (log_text : string)
| ClientStarted (time : string)
| ClientStopped (time : string)
| NoBot (time command : string)
| RealSent (time command : string)
| ErrorSending (time command : string)
| MinerStarted (time : string)
| MinerCancelled (time : string)
| MinerStopped (time : string)
| SummaryWritten
| AlmostReady (time command : string) (remaining : Z)
| Dispatching (command : string).

(** ** The world around the program *)

(** What the operator's task does while the miner awaits. *)
Inductive control : Type := NoRequest | StopRequest | CancelTask.

(** How [client.send_message] ends. *)
Inductive send_outcome : Type := Delivered | FailsRPCError | FailsOtherwise.

Record Env : Type :=
  { clock : nat -> Z;           (* [datetime.now()] *)
    strftime : Z -> string;     (* ['%Y-%m-%d %H:%M:%S'] *)
    random : nat -> Z;          (* the generator behind [random.randint] *)
    operator : nat -> control;
    network : nat -> send_outcome }.

(** The mutable state: the fields of the [Miner] object that change, the
    log, the summaries written to disk, and the position in the oracle. *)
Record World : Type :=
  { env : Env;
    pos : nat;
    running : bool;
    summary : Summary;
    last_sent : gmap string Z;
    log : list LogEntry;
    written : list Summary;
    tasks : nat                 (* [run()] tasks created by [start], B_m2 *) }.

Definition with_pos (n : nat) (w : World) : World :=
  {| env := env w; pos := n; running := running w; summary := summary w;
     last_sent := last_sent w; log := log w; written := written w;
     tasks := tasks w |}.

Definition with_running (b : bool) (w : World) : World :=
  {| env := env w; pos := pos w; running := b; summary := summary w;
     last_sent := last_sent w; log := log w; written := written w;
     tasks := tasks w |}.

Definition with_summary (s : Summary) (w : World) : World :=
  {| env := env w; pos := pos w; running := running w; summary := s;
     last_sent := last_sent w; log := log w; written := written w;
     tasks := tasks w |}.

Definition with_last_sent (m : gmap string Z) (w : World) : World :=
  {| env := env w; pos := pos w; running := running w; summary := summary w;
     last_sent := m; log := log w; written := written w; tasks := tasks w |}.

Definition with_log (l : list LogEntry) (w : World) : World :=
  {| env := env w; pos := pos w; running := running w; summary := summary w;
     last_sent := last_sent w; log := l; written := written w;
     tasks := tasks w |}.

Definition with_written (l : list Summary) (w : World) : World :=
  {| env := env w; pos := pos w; running := running w; summary := summary w;
     last_sent := last_sent w; log := log w; written := l; tasks := tasks w |}.

Definition with_tasks (n : nat) (w : World) : World :=
  {| env := env w; pos := pos w; running := running w; summary := summary w;
     last_sent := last_sent w; log := log w; written := written w;
     tasks := n |}.

(** ** Exceptions and the state monad of the program *)

Inductive exn : Type :=
| ValueError_invalid_literal      (* [int] on a string that is no number *)
| ValueError_max_str_digits       (* [int]/[str] beyond the digit limit *)
| KeyError
| CancelledError
| RPCError
| OtherError.

Inductive result (A : Type) : Type :=
| Ok (a : A)
| Raised (e : exn).
Arguments Ok {A} a.
Arguments Raised {A} e.

Definition M (A : Type) : Type := World -> result A * World.

Definition ret {A} (a : A) : M A := fun w => (Ok a, w).

Definition bind {A B} (m : M A) (f : A -> M B) : M B :=
  fun w => match m w with
           | (Ok a, w') => f a w'
           | (Raised e, w') => (Raised e, w')
           end.

Definition raise {A} (e : exn) : M A := fun w => (Raised e, w).

Definition lift {A} (r : result A) : M A := fun w => (r, w).

Declare Scope prog_scope.
Delimit Scope prog_scope with prog.
Notation "x <- m ;; k" := (bind m (fun x => k))
  (at level 100, m at next level, right associativity) : prog_scope.
Notation "m ;; k" := (bind m (fun _ => k))
  (at level 100, right associativity) : prog_scope.
Local Open Scope prog_scope.

Definition get {A} (f : World -> A) : M A := fun w => (Ok (f w), w).
Definition update (f : World -> World) : M unit := fun w => (Ok tt, f w).

(** [try: m  except e: h]. *)
Definition try_except {A} (m : M A) (catches : exn -> bool) (h : M A) : M A :=
  fun w => match m w with
           | (Raised e, w') => if catches e then h w' else (Raised e, w')
           | r => r
           end.

(** [try: m  finally: f]: [f] runs either way; an exception of [f] wins. *)
Definition try_finally {A} (m : M A) (f : M unit) : M A :=
  fun w => match m w with
           | (r, w') =>
               match f w' with
               | (Ok _, w'') => (r, w'')
               | (Raised e, w'') => (Raised e, w'')
               end
           end.

(** One reading of an oracle; every reading moves the position on. *)
Definition ask {A} (f : Env -> nat -> A) : M A :=
  fun w => (Ok (f (env w) (pos w)), with_pos (S (pos w)) w).

Definition datetime_now : M Z := ask clock.

(** [ts()] *)
Definition ts : M string :=
  now <- datetime_now ;;
  e <- get env ;;
  ret (strftime e now).

(** [random.randint(lo, hi)] *)
Definition randint (lo hi : Z) : M Z :=
  r <- ask random ;;
  ret (lo + r mod (hi - lo + 1)).

Definition info (e : LogEntry) : M unit :=
  update (fun w => with_log (log w ++ [e]) w).

(** An [await]: the operator's task may run meanwhile.  [stop()] clears the
    flag; [task.cancel()] raises [CancelledError] at the await. *)
Definition await : M unit :=
  c <- ask operator ;;
  match c with
  | NoRequest => ret tt
  | StopRequest => update (with_running false)
  | CancelTask => raise CancelledError
  end.

(** ** Integers and their decimal strings *)

(** [sys.int_info.default_max_str_digits]: CPython since 3.11 (and the
    security releases 3.7.14, 3.8.14, 3.9.14 and 3.10.7) refuses to convert
    between [int] and a decimal string of more digits and raises
    [ValueError]; the program leaves the limit at its default. *)
Definition int_max_str_digits : nat := 4300.

(** The characters of a string, when it is well formed. *)
Fixpoint points_upto (n : nat) (s : string) : option (list N) :=
  match s with
  | EmptyString => Some []
  | _ =>
      match n with
      | O => None
      | S n' =>
          match decode s with
          | Some (p, s') =>
              match points_upto n' s' with
              | Some l => Some (p :: l)
              | None => None
              end
          | None => None
          end
      end
  end.

Definition points (s : string) : option (list N) :=
  points_upto (String.length s) s.

Fixpoint parse_digits (l : list N) (acc : Z) : option Z :=
  match l with
  | [] => Some acc
  | p :: l' =>
      match decimal_value p with
      | Some d => parse_digits l' (10 * acc + d)
      | None => None
      end
  end.

(** [int(s)] on what the patterns capture, a string of decimal digits of
    any script.  On any other string the model raises (Python accepts a few
    more, such as signed or padded literals). *)
Definition int_value (s : string) : result Z :=
  match points s with
  | None | Some [] => Raised ValueError_invalid_literal
  | Some l =>
      match parse_digits l 0 with
      | None => Raised ValueError_invalid_literal
      | Some n =>
          if (int_max_str_digits <? length l)%nat
          then Raised ValueError_max_str_digits
          else Ok n
      end
  end.

Definition int (s : string) : M Z := lift (int_value s).

Definition decimal (n : Z) : string :=
  NilEmpty.string_of_int (Z.to_int n).

(** An [int] whose decimal form has more digits than the limit. *)
Definition str_limit : Z := 10 ^ Z.of_nat int_max_str_digits.

(** [str(n)], also what an f-string does with an [int]. *)
Definition str_value (n : Z) : result string :=
  if str_limit <=? Z.abs n
  then Raised ValueError_max_str_digits
  else Ok (decimal n).

Definition str (n : Z) : M string := lift (str_value n).

(** ** Updates of the summary dict *)

Definition add_berries (n : Z) (s : Summary) : Summary :=
  {| berries_total := berries_total s + n; crystals_total := crystals_total s;
     waifus := waifus s; events := events s |}.

Definition add_crystals (n : Z) (s : Summary) : Summary :=
  {| berries_total := berries_total s; crystals_total := crystals_total s + n;
     waifus := waifus s; events := events s |}.

Definition append_waifu (x : WaifuEntry) (s : Summary) : Summary :=
  {| berries_total := berries_total s; crystals_total := crystals_total s;
     waifus := waifus s ++ [x]; events := events s |}.

Definition append_event (e : Event) (s : Summary) : Summary :=
  {| berries_total := berries_total s; crystals_total := crystals_total s;
     waifus := waifus s; events := events s ++ [e] |}.

Definition on_summary (f : Summary -> Summary) : M unit :=
  update (fun w => with_summary (f (summary w)) w).

(** ** [B_m.py] *)

Module B_m.

Definition DEFAULT_COMMANDS : list string :=
  ["/explore"; "/dice"; "/bowling"; "/lever"].

(** [discovered (\d+) Berries|You gained (\d+) Berries|Berries: (\d+)] *)
Definition RE_BERRIES : pattern :=
  Pattern
    (Alt (Cat (Str "discovered ") (Cat (Group 1 (Plus Digit)) (Str " Berries")))
    (Alt (Cat (Str "You gained ") (Cat (Group 2 (Plus Digit)) (Str " Berries")))
         (Cat (Str "Berries: ") (Group 3 (Plus Digit)))))
    3.

(** [([0-9]+) Crystals|crystal[s]?:? (\d+)] *)
Definition RE_CRYSTALS : pattern :=
  Pattern
    (Alt (Cat (Group 1 (Plus (Range "0" "9"))) (Str " Crystals"))
         (Cat (Str "crystal")
         (Cat (Opt (In_ (OneOf ["s"%char])))
         (Cat (Opt (Lit ":"))
         (Cat (Lit " ") (Group 2 (Plus Digit)))))))
    2.

(** [got (?:a |an )?(.+? Waifu)|You obtained (.+? Waifu)] *)
Definition RE_WAIFU : pattern :=
  Pattern
    (Alt (Cat (Str "got ")
         (Cat (Opt (Alt (Str "a ") (Str "an ")))
              (Group 1 (Cat (PlusLazy AnyButNewline) (Str " Waifu")))))
         (Cat (Str "You obtained ")
              (Group 2 (Cat (PlusLazy AnyButNewline) (Str " Waifu")))))
    2.

Definition extract_and_record (text : string) : M unit :=
  match search RE_BERRIES text with
  | Some b =>
      match first_truthy b with
      | Some berries =>
          n <- int berries ;;
          on_summary (add_berries n) ;;
          time <- ts ;;
          amount <- int berries ;;
          on_summary (append_event (Berries time amount text)) ;;
          total <- get (fun w => berries_total (summary w)) ;;
          shown <- str total ;;
          info (ParsedBerries berries shown)
      | None => ret tt
      end
  | None => ret tt
  end ;;
  match search RE_CRYSTALS text with
  | Some c =>
      match first_truthy c with
      | Some crystals =>
          n <- int crystals ;;
          on_summary (add_crystals n) ;;
          time <- ts ;;
          amount <- int crystals ;;
          on_summary (append_event (Crystals time amount text)) ;;
          total <- get (fun w => crystals_total (summary w)) ;;
          shown <- str total ;;
          info (ParsedCrystals crystals shown)
      | None => ret tt
      end
  | None => ret tt
  end ;;
  match search RE_WAIFU text with
  | Some w =>
      match first_truthy w with
      | Some name =>
          time <- ts ;;
          on_summary (append_waifu
                        {| waifu_time := time; waifu := name;
                           waifu_text := text |}) ;;
          time' <- ts ;;
          on_summary (append_event (Waifu time' name text)) ;;
          info (ObtainedWaifu name)
      | None => ret tt
      end
  | None => ret tt
  end.

Definition simulate_send (session_id command : string) : M string :=
  await ;;
  info (SimSent session_id command) ;;
  if String.eqb command "/explore" then
    berries <- randint 5 800 ;;
    time <- ts ;;
    shown <- str berries ;;
    let text :=
      time ++ " [simulated session]: /explore result: 🎉 You uncovered ancient ruins and discovered "
           ++ shown ++ " Berries! 💰" in
    info (SimText text) ;;
    extract_and_record text ;;
    ret text
  else
    time <- ts ;;
    let text :=
      time ++ " [simulated session]: " ++ command ++ " result: (simulated)" in
    info (SimText text) ;;
    ret text.

End B_m.

(** ** [B_m2.py] *)

Module B_m2.

Definition DEFAULT_COMMANDS : list string :=
  ["/dice"; "/bowling"; "/lever"; "/explore"].

(** [discovered (\d+) Berries|You gained (\d+) Berries|Berries: (\d+)] *)
Definition RE_BERRIES : pattern :=
  Pattern
    (Alt (Cat (Str "discovered ") (Cat (Group 1 (Plus Digit)) (Str " Berries")))
    (Alt (Cat (Str "You gained ") (Cat (Group 2 (Plus Digit)) (Str " Berries")))
         (Cat (Str "Berries: ") (Group 3 (Plus Digit)))))
    3.

(** [([0-9]+) Crystals|crystal[s]?:? (\d+)] *)
Definition RE_CRYSTALS : pattern :=
  Pattern
    (Alt (Cat (Group 1 (Plus (Range "0" "9"))) (Str " Crystals"))
         (Cat (Str "crystal")
         (Cat (Opt (In_ (OneOf ["s"%char])))
         (Cat (Opt (Lit ":"))
         (Cat (Lit " ") (Group 2 (Plus Digit)))))))
    2.

(** [got (?:a |an )?(.+? Waifu)|You obtained (.+? Waifu)] *)
Definition RE_WAIFU : pattern :=
  Pattern
    (Alt (Cat (Str "got ")
         (Cat (Opt (Alt (Str "a ") (Str "an ")))
              (Group 1 (Cat (PlusLazy AnyButNewline) (Str " Waifu")))))
         (Cat (Str "You obtained ")
              (Group 2 (Cat (PlusLazy AnyButNewline) (Str " Waifu")))))
    2.

Definition extract_and_record (text : string) : M unit :=
  match search RE_BERRIES text with
  | Some b =>
      match first_truthy b with
      | Some berries =>
          n <- int berries ;;
          on_summary (add_berries n) ;;
          time <- ts ;;
          amount <- int berries ;;
          on_summary (append_event (Berries time amount text)) ;;
          total <- get (fun w => berries_total (summary w)) ;;
          shown <- str total ;;
          info (ParsedBerries berries shown)
      | None => ret tt
      end
  | None => ret tt
  end ;;
  match search RE_CRYSTALS text with
  | Some c =>
      match first_truthy c with
      | Some crystals =>
          n <- int crystals ;;
          on_summary (add_crystals n) ;;
          time <- ts ;;
          amount <- int crystals ;;
          on_summary (append_event (Crystals time amount text)) ;;
          total <- get (fun w => crystals_total (summary w)) ;;
          shown <- str total ;;
          info (ParsedCrystals crystals shown)
      | None => ret tt
      end
  | None => ret tt
  end ;;
  match search RE_WAIFU text with
  | Some w =>
      match first_truthy w with
      | Some name =>
          time <- ts ;;
          on_summary (append_waifu
                        {| waifu_time := time; waifu := name;
                           waifu_text := text |}) ;;
          time' <- ts ;;
          on_summary (append_event (Waifu time' name text)) ;;
          info (GotWaifu name)
      | None => ret tt
      end
  | None => ret tt
  end.

Definition simulate_send (session_id command : string) : M string :=
  await ;;
  info (SimSent session_id command) ;;
  if String.eqb command "/explore" then
    berries <- randint 5 800 ;;
    time <- ts ;;
    shown <- str berries ;;
    let text :=
      time ++ " [simulated session]: /explore result: 🎉 You uncovered ruins and discovered "
           ++ shown ++ " Berries! 💰" in
    info (SimText text) ;;
    extract_and_record text ;;
    ret text
  else
    time <- ts ;;
    let text :=
      time ++ " [simulated session]: " ++ command ++ " result: (simulated)" in
    info (SimText text) ;;
    ret text.

End B_m2.

(** ** The miner, as both files have it *)

Inductive source : Type := File_B_m | File_B_m2.

Definition RE_BERRIES (v : source) : pattern :=
  match v with File_B_m => B_m.RE_BERRIES | File_B_m2 => B_m2.RE_BERRIES end.
Definition RE_CRYSTALS (v : source) : pattern :=
  match v with File_B_m => B_m.RE_CRYSTALS | File_B_m2 => B_m2.RE_CRYSTALS end.
Definition RE_WAIFU (v : source) : pattern :=
  match v with File_B_m => B_m.RE_WAIFU | File_B_m2 => B_m2.RE_WAIFU end.

Definition extract_and_record (v : source) : string -> M unit :=
  match v with
  | File_B_m => B_m.extract_and_record
  | File_B_m2 => B_m2.extract_and_record
  end.

Definition simulate_send (v : source) : string -> string -> M string :=
  match v with
  | File_B_m => B_m.simulate_send
  | File_B_m2 => B_m2.simulate_send
  end.

Definition DEFAULT_COMMANDS (v : source) : list string :=
  match v with
  | File_B_m => B_m.DEFAULT_COMMANDS
  | File_B_m2 => B_m2.DEFAULT_COMMANDS
  end.

Definition seconds (n : Z) : Z := n * 1000000.

(** [COMMAND_COOLDOWN = 125.0] and [ALMOST_READY_THRESHOLD = 2.0], in
    microseconds.  [(now - last).total_seconds()] is the correctly rounded
    quotient of a whole number of microseconds by [10**6]; 125.0 and 123.0
    are floats and no such quotient lies within a rounding error of them
    without being equal, so [elapsed >= 125.0] and [125.0 - elapsed < 2.0]
    decide the same as the comparisons of the microsecond counts below. *)
Definition COMMAND_COOLDOWN : Z := seconds 125.
Definition ALMOST_READY_THRESHOLD : Z := seconds 2.

Definition datetime_min : Z := 0.

(** [RealClient]: the fields the scheduler reads. *)
Record RealClient : Type := { session_name : string; bot : string }.

(** The fields of [Miner] that [__init__] sets for good. *)
Record Miner : Type :=
  { session_id : string;
    commands : list string;
    simulate : bool;
    real_client : option RealClient }.

Definition SESSION_DIR : string := "data/sessions".

(** [Miner.__init__]; [api_id], [api_hash] and [bot] count when all three
    are given, which is [credentials = Some bot] with [bot] non-empty. *)
Definition new_miner (v : source) (session : string) (cmds : list string)
    (sim : bool) (credentials : option string) : Miner :=
  {| session_id := session;
     commands := match cmds with [] => DEFAULT_COMMANDS v | _ => cmds end;
     simulate := sim;
     real_client :=
       match credentials with
       | Some b =>
           if negb sim && negb (String.eqb b EmptyString)
           then Some {| session_name := SESSION_DIR ++ "/" ++ session; bot := b |}
           else None
       | None => None
       end |}.

(** [{cmd: datetime.min for cmd in self.commands}] *)
Definition never_sent (cmds : list string) : gmap string Z :=
  foldr (fun cmd m => <[cmd := datetime_min]> m) ∅ cmds.

Definition new_world (e : Env) (m : Miner) : World :=
  {| env := e; pos := 0; running := false; summary := empty_summary;
     last_sent := never_sent (commands m); log := []; written := [];
     tasks := 0 |}.

(** [bot_handler], the callback for a message of the bot. *)
Definition bot_handler (v : source) (rc : RealClient) (text : string) : M unit :=
  time <- ts ;;
  let log_text := time ++ " " ++ session_name rc ++ ": " ++ bot rc ++ " -> " ++ text in
  info (BotText log_text) ;;
  extract_and_record v log_text.

(** [await self.client.send_message(self.bot, command)] *)
Definition send_message : M unit :=
  await ;;
  o <- ask network ;;
  match o with
  | Delivered => ret tt
  | FailsRPCError => raise RPCError
  | FailsOtherwise => raise OtherError
  end.

Definition is_RPCError (e : exn) : bool :=
  match e with RPCError => true | _ => false end.

Definition is_CancelledError (e : exn) : bool :=
  match e with CancelledError => true | _ => false end.

(** [RealClient.send] *)
Definition RealClient_send (rc : RealClient) (command : string) : M unit :=
  try_except
    (if String.eqb (bot rc) EmptyString then
       time <- ts ;; info (NoBot time command)
     else
       send_message ;;
       time <- ts ;;
       info (RealSent time command))
    is_RPCError
    (time <- ts ;; info (ErrorSending time command)).

(** [RealClient.start] and [RealClient.stop], for a connection that can be
    made and closed. *)
Definition RealClient_start (rc : RealClient) : M unit :=
  await ;; time <- ts ;; info (ClientStarted time).

Definition RealClient_stop (rc : RealClient) : M unit :=
  await ;; time <- ts ;; info (ClientStopped time).

Definition set_last_sent (cmd : string) (t : Z) : M unit :=
  update (fun w => with_last_sent (<[cmd := t]> (last_sent w)) w).

(** The body of [for cmd in self.commands], after the test of
    [self.running]. *)
Definition poll (v : source) (m : Miner) (now : Z) (cmd : string) : M unit :=
  sent <- get last_sent ;;
  match sent !! cmd with
  | None => raise KeyError
  | Some last =>
      let elapsed := now - last in
      let remaining := COMMAND_COOLDOWN - elapsed in
      if COMMAND_COOLDOWN <=? elapsed then
        info (Dispatching cmd) ;;
        (if simulate m then
           simulate_send v (session_id m) cmd ;; ret tt
         else
           match real_client m with
           | Some rc => RealClient_send rc cmd
           | None => ret tt
           end) ;;
        t <- datetime_now ;;
        set_last_sent cmd t
      else if remaining <? ALMOST_READY_THRESHOLD then
        time <- ts ;;
        info (AlmostReady time cmd remaining)
      else ret tt
  end.

(** [for cmd in self.commands: if not self.running: break ...] *)
Fixpoint for_commands (v : source) (m : Miner) (now : Z) (cmds : list string)
  : M unit :=
  match cmds with
  | [] => ret tt
  | cmd :: rest =>
      r <- get running ;;
      if r then poll v m now cmd ;; for_commands v m now rest
      else ret tt
  end.

(** One pass of the scheduler at time [now]. *)
Definition tick_at (v : source) (m : Miner) (now : Z) : M unit :=
  for_commands v m now (commands m).

(** The body of [while self.running]. *)
Definition tick (v : source) (m : Miner) : M unit :=
  now <- datetime_now ;;
  tick_at v m now ;;
  await.

(** [while self.running: ...], for at most [fuel] rounds; [true] when the
    loop ended because the flag was cleared. *)
Fixpoint while_running (v : source) (m : Miner) (fuel : nat) : M bool :=
  match fuel with
  | O => ret false
  | S fuel' =>
      r <- get running ;;
      if r then tick v m ;; while_running v m fuel'
      else ret true
  end.

(** [json.dump(self.summary, ...)]: every [int] of the summary is printed
    in decimal, the totals first and then the amounts of the events. *)
Fixpoint dump_events (l : list Event) : result unit :=
  match l with
  | [] => Ok tt
  | Berries _ n _ :: l' | Crystals _ n _ :: l' =>
      match str_value n with
      | Ok _ => dump_events l'
      | Raised e => Raised e
      end
  | Waifu _ _ _ :: l' => dump_events l'
  end.

(** [_write_summary], on a disk that takes the files; the CSV file of
    [B_m.py] holds nothing that the JSON file does not. *)
Definition _write_summary (v : source) : M unit :=
  s <- get summary ;;
  str (berries_total s) ;;
  str (crystals_total s) ;;
  lift (dump_events (events s)) ;;
  update (fun w => with_written (written w ++ [s]) w) ;;
  info SummaryWritten.

(** [Miner.start] of [B_m.py] and [Miner.run] of [B_m2.py], in three
    parts: what comes before [try], the loop, and the handlers. *)
Definition run_prologue (m : Miner) : M unit :=
  update (with_running true) ;;
  time <- ts ;;
  info (MinerStarted time) ;;
  match real_client m with
  | Some rc => RealClient_start rc
  | None => ret tt
  end.

(** [except asyncio.CancelledError: ...] *)
Definition run_cancelled : M bool :=
  time <- ts ;; info (MinerCancelled time) ;; ret true.

(** [finally: ...] *)
Definition run_epilogue (v : source) (m : Miner) : M unit :=
  match real_client m with
  | Some rc => RealClient_stop rc
  | None => ret tt
  end ;;
  _write_summary v ;;
  time <- ts ;;
  info (MinerStopped time).

(** The result [Ok false] says that the loop was still going when the
    fuel ran out; the handlers have then not run. *)
Definition run (v : source) (m : Miner) (fuel : nat) : M bool :=
  run_prologue m ;;
  fun w =>
    match while_running v m fuel w with
    | (Ok false, w') => (Ok false, w')
    | (r, w') =>
        try_finally (try_except (lift r) is_CancelledError run_cancelled)
          (run_epilogue v m) w'
    end.

(** [Miner.stop]: [B_m.py] clears the flag; [B_m2.py] does so when it is
    set, which is the same. *)
Definition stop (v : source) : M unit :=
  match v with
  | File_B_m => update (with_running false)
  | File_B_m2 =>
      r <- get running ;;
      if r then update (with_running false) else ret tt
  end.

(** [Miner.start(loop)] of [B_m2.py]: a new task for [run()], which starts
    to run at the next turn of the event loop. *)
Definition start_B_m2 : M unit :=
  r <- get running ;;
  if r then ret tt
  else update (fun w => with_tasks (S (tasks w)) w).

(** * Notions used in the statements and the proofs *)

(** ** Captured amounts *)

Fixpoint all_chars (p : ascii -> bool) (s : string) : bool :=
  match s with
  | EmptyString => true
  | String c s' => p c && all_chars p s'
  end.

(** [d] is made of characters of the set [k], one after the other. *)
Inductive made_of (k : charset) : string -> Prop :=
| made_of_nil : made_of k EmptyString
| made_of_cons (s s' : string) :
    eat k s = Some s' -> made_of k s' -> made_of k s.

(** A captured amount: a non-empty run of decimal digits, of no more than
    [n] characters. *)
Definition amount_string (n : nat) (d : string) : Prop :=
  d <> EmptyString /\ made_of Digit d /\ (characters d <= n)%nat.

Definition amount_groups (n : nat) (g : groups) : Prop :=
  Forall (fun o => match o with Some d => amount_string n d | None => True end) g.

Definition digit_charset (cs : charset) : Prop :=
  forall p, in_charset cs p = true -> is_decimal p = true.

(** Every group of the pattern is [(cs+)] for a set [cs] of digits. *)
Fixpoint digit_groups (r : regex) : Prop :=
  match r with
  | Group _ (Plus cs) => digit_charset cs
  | Group _ _ => False
  | Cat r1 r2 | Alt r1 r2 => digit_groups r1 /\ digit_groups r2
  | Opt r1 => digit_groups r1
  | _ => True
  end.

(** ** Relations between the world before and the world after *)

(** [keeps R m]: wherever [m] starts and however it ends, the worlds before
    and after are related by [R]. *)
Definition keeps {A} (R : World -> World -> Prop) (m : M A) : Prop :=
  forall w, R w (snd (m w)).

(** Log entries other than the two the scheduler itself writes. *)
Definition quiet (e : LogEntry) : Prop :=
  match e with
  | Dispatching _ | AlmostReady _ _ _ => False
  | _ => True
  end.

(** What the transport, the simulation and the extractor leave alone: the
    oracle, the cooldown map, the files and the tasks; the position moves
    on and the log grows by quiet entries. *)
Record frame (w w' : World) : Prop :=
  { frame_env : env w' = env w;
    frame_pos : (pos w <= pos w')%nat;
    frame_last_sent : last_sent w' = last_sent w;
    frame_written : written w' = written w;
    frame_tasks : tasks w' = tasks w;
    frame_log : exists l, log w' = (log w ++ l)%list /\ Forall quiet l }.

Definition same_running (w w' : World) : Prop := running w' = running w.
Definition same_summary (w w' : World) : Prop := summary w' = summary w.

(** What every step of the loop keeps: the oracle, and the commands that
    have an entry in the cooldown map. *)
Definition steady (w w' : World) : Prop :=
  env w' = env w
  /\ forall c, is_Some (last_sent w !! c) -> is_Some (last_sent w' !! c).

(** ** One call of the extractor *)

(** The string [ts()] returns in [w]. *)
Definition stamp (w : World) : string :=
  strftime (env w) (clock (env w) (pos w)).

(** The first truthy group of the leftmost match, if any. *)
Definition found (p : pattern) (text : string) : option string :=
  match search p text with
  | Some g => first_truthy g
  | None => None
  end.

Definition when_found (p : pattern) (text : string) (f : string -> M unit)
  : M unit :=
  match found p text with
  | Some x => f x
  | None => ret tt
  end.

(** The berries block and the crystals block, which differ in the event,
    the total and the log line. *)
Definition record_amount (event : string -> Z -> string -> Event)
    (add : Z -> Summary -> Summary) (total : Summary -> Z)
    (entry : string -> string -> LogEntry) (digits text : string) : M unit :=
  n <- int digits ;;
  on_summary (add n) ;;
  time <- ts ;;
  amount <- int digits ;;
  on_summary (append_event (event time amount text)) ;;
  t <- get (fun w => total (summary w)) ;;
  shown <- str t ;;
  info (entry digits shown).

Definition record_waifu (entry : string -> LogEntry) (name text : string)
  : M unit :=
  time <- ts ;;
  on_summary (append_waifu
                {| waifu_time := time; waifu := name; waifu_text := text |}) ;;
  time' <- ts ;;
  on_summary (append_event (Waifu time' name text)) ;;
  info (entry name).

Definition waifu_entry (v : source) : string -> LogEntry :=
  match v with File_B_m => ObtainedWaifu | File_B_m2 => GotWaifu end.

Definition amount_recorded (event : string -> Z -> string -> Event)
    (add : Z -> Summary -> Summary) (n : Z) (text : string) (w : World) : World :=
  with_summary (append_event (event (stamp w) n text) (add n (summary w)))
    (with_pos (S (pos w)) w).

Definition waifu_recorded (name text : string) (w : World) : World :=
  let w1 := with_pos (S (pos w)) w in
  with_summary
    (append_event (Waifu (stamp w1) name text)
       (append_waifu {| waifu_time := stamp w; waifu := name;
                        waifu_text := text |} (summary w)))
    (with_pos (S (S (pos w))) w).

(** The amounts and the name one call has recorded, each with the time
    stamps it took: at most one of each kind. *)
Definition berries_event (text : string) (o : option (string * Z)) : list Event :=
  match o with Some (t, n) => [Berries t n text] | None => [] end.

Definition crystals_event (text : string) (o : option (string * Z)) : list Event :=
  match o with Some (t, n) => [Crystals t n text] | None => [] end.

Definition waifu_event (text : string) (o : option (string * string * string))
  : list Event :=
  match o with Some (_, t', name) => [Waifu t' name text] | None => [] end.

Definition waifu_row (text : string) (o : option (string * string * string))
  : list WaifuEntry :=
  match o with
  | Some (t, _, name) =>
      [{| waifu_time := t; waifu := name; waifu_text := text |}]
  | None => []
  end.

Definition amount (o : option (string * Z)) : Z :=
  match o with Some (_, n) => n | None => 0 end.

Definition after_call (text : string) (ob oc : option (string * Z))
    (ow : option (string * string * string)) (s : Summary) : Summary :=
  {| berries_total := berries_total s + amount ob;
     crystals_total := crystals_total s + amount oc;
     waifus := waifus s ++ waifu_row text ow;
     events := events s ++ berries_event text ob ++ crystals_event text oc
                        ++ waifu_event text ow |}.

(** What one call records: the first truthy group of each pattern that
    matches, as long as the call has not raised before. *)
Definition call_outcome (v : source) (text : string) (ob oc : option (string * Z))
    (ow : option (string * string * string)) : Prop :=
  (forall t n, ob = Some (t, n) ->
     exists d, found (RE_BERRIES v) text = Some d /\ int_value d = Ok n)
  /\ (forall t n, oc = Some (t, n) ->
     exists d, found (RE_CRYSTALS v) text = Some d /\ int_value d = Ok n)
  /\ (forall t t' name, ow = Some (t, t', name) ->
     found (RE_WAIFU v) text = Some name).

(** The conditions under which the digit limit can strike. *)
Definition beyond_limit (text : string) (s : Summary) : Prop :=
  (int_max_str_digits < characters text)%nat
  \/ str_limit <= Z.abs (berries_total s)
  \/ str_limit <= Z.abs (crystals_total s).

(** ** Sequences of calls *)

Fixpoint sum_berries (l : list Event) : Z :=
  match l with
  | [] => 0
  | Berries _ n _ :: l' => n + sum_berries l'
  | _ :: l' => sum_berries l'
  end.

Fixpoint sum_crystals (l : list Event) : Z :=
  match l with
  | [] => 0
  | Crystals _ n _ :: l' => n + sum_crystals l'
  | _ :: l' => sum_crystals l'
  end.

Fixpoint waifu_names (l : list Event) : list string :=
  match l with
  | [] => []
  | Waifu _ name _ :: l' => name :: waifu_names l'
  | _ :: l' => waifu_names l'
  end.

Definition event_text (e : Event) : string :=
  match e with Berries _ _ t | Crystals _ _ t | Waifu _ _ t => t end.

(** The summary after the calls for [texts], one after the other on the
    same summary object. *)
Definition feed (v : source) (texts : list string) (w : World) : World :=
  fold_left (fun w text => snd (extract_and_record v text w)) texts w.

(** The totals and the waifu list agree with the event log. *)
Definition consistent (s : Summary) : Prop :=
  berries_total s = sum_berries (events s)
  /\ crystals_total s = sum_crystals (events s)
  /\ map waifu (waifus s) = waifu_names (events s).

(** A summary that is consistent stays so. *)
Definition stays_consistent (w w' : World) : Prop :=
  consistent (summary w) -> consistent (summary w').

(** The events come in the order of the texts: some events of the first
    text, then some of the second, and so on. *)
Definition in_arrival_order (texts : list string) (evs : list Event) : Prop :=
  exists ks : list nat,
    length ks = length texts
    /\ map event_text evs = concat (zip_with replicate ks texts).

(** ** What the scheduler tests and what it logs *)

(** The send inside the branch [if elapsed >= COMMAND_COOLDOWN]. *)
Definition dispatch (v : source) (m : Miner) (cmd : string) : M unit :=
  if simulate m then
    simulate_send v (session_id m) cmd ;; ret tt
  else
    match real_client m with
    | Some rc => RealClient_send rc cmd
    | None => ret tt
    end.

(** The tests of the loop body, on the cooldown map [sent]. *)
Definition is_due (now : Z) (sent : gmap string Z) (cmd : string) : bool :=
  match sent !! cmd with
  | Some last => COMMAND_COOLDOWN <=? now - last
  | None => false
  end.

Definition remaining (now : Z) (sent : gmap string Z) (cmd : string) : Z :=
  match sent !! cmd with
  | Some last => COMMAND_COOLDOWN - (now - last)
  | None => 0
  end.

Definition is_almost_ready (now : Z) (sent : gmap string Z) (cmd : string)
  : bool :=
  negb (is_due now sent cmd)
  && match sent !! cmd with
     | Some _ => remaining now sent cmd <? ALMOST_READY_THRESHOLD
     | None => false
     end.

(** The commands dispatched and the notices given, as the log shows them. *)
Fixpoint dispatched (l : list LogEntry) : list string :=
  match l with
  | [] => []
  | Dispatching cmd :: l' => cmd :: dispatched l'
  | _ :: l' => dispatched l'
  end.

Fixpoint noticed (l : list LogEntry) : list (string * Z) :=
  match l with
  | [] => []
  | AlmostReady _ cmd rest :: l' => (cmd, rest) :: noticed l'
  | _ :: l' => noticed l'
  end.

(** The commands handed over, as the log shows them: to the simulation
    (its line ["... sent ..."]), or to the transport, whose call has returned
    (the line ["... sent ..."] of [RealClient.send]) or has failed with an
    [RPCError] (its line ["... Error sending ..."]). *)
Fixpoint sent (l : list LogEntry) : list string :=
  match l with
  | [] => []
  | SimSent _ cmd :: l' | RealSent _ cmd :: l' | ErrorSending _ cmd :: l' =>
      cmd :: sent l'
  | _ :: l' => sent l'
  end.



(** The cooldown maps [a] and [b] agree on the commands of [cmds]. *)
Definition agree_on (cmds : list string) (a b : gmap string Z) : Prop :=
  forall c, In c cmds -> a !! c = b !! c.

(** ** Assumptions on the world *)

(** Assumptions on the world: the operator leaves the session alone, the
    transport fails with [RPCError] if at all, and [ts()] has its 19
    characters. *)
Definition operator_idle (e : Env) : Prop :=
  forall n, operator e n = NoRequest.

Definition transport_fails_by_RPCError (e : Env) : Prop :=
  forall n, network e n <> FailsOtherwise.

Definition short_stamps (e : Env) : Prop :=
  forall t, (String.length (strftime e t) <= 19)%nat.

(** Totals far enough from the digit limit for one more simulated reply. *)
Definition roomy (s : Summary) : Prop :=
  Z.abs (berries_total s) + 10 ^ 200 <= str_limit
  /\ Z.abs (crystals_total s) + 10 ^ 200 <= str_limit.

(** ** Worlds for the examples *)

(** 2025-01-01 00:00:00, counted from [datetime.min]. *)
Definition new_year : Z := seconds 63871286400.

(** A world in which the clock moves a quarter of a second between two
    interactions, nobody interferes and every send is delivered. *)
Definition demo_env : Env :=
  {| clock := fun n => Z.of_nat n * 250000 + new_year;
     strftime := fun _ => "2025-01-01 00:00:00";
     random := fun _ => 37;
     operator := fun _ => NoRequest;
     network := fun _ => Delivered |}.

Definition demo_miner : Miner := new_miner File_B_m "demo" [] true None.

Definition demo_world : World := new_world demo_env demo_miner.

Definition running_demo_world : World :=
  with_pos 1 (with_running true demo_world).

Definition dice_miner : Miner := new_miner File_B_m "demo" ["/dice"] true None.

(** A running session whose only command was last sent at [new_year]. *)
Definition dice_world : World :=
  with_last_sent (<["/dice" := new_year]> (never_sent (commands dice_miner)))
    (with_running true (new_world demo_env dice_miner)).

Definition real_miner : Miner := new_miner File_B_m "demo" [] false (Some "@bot").

Definition failing_env (o : send_outcome) : Env :=
  {| clock := clock demo_env; strftime := strftime demo_env;
     random := random demo_env; operator := operator demo_env;
     network := fun _ => o |}.

(** A transport whose first send fails with an [RPCError] and whose later
    sends are delivered. *)
Definition flaky_env : Env :=
  {| clock := clock demo_env; strftime := strftime demo_env;
     random := random demo_env; operator := operator demo_env;
     network := fun n => if (n <=? 2)%nat then FailsRPCError else Delivered |}.


Fixpoint nines (n : nat) : string :=
  match n with
  | O => EmptyString
  | S n' => String "9" (nines n')
  end.

(** * Notions used in the further properties *)

(** ** How a program can end *)

(** [throws allowed m]: the exceptions with which [m] can end are among
    [allowed]. *)
Definition throws {A} (allowed : exn -> Prop) (m : M A) : Prop :=
  forall w e, fst (m w) = Raised e -> allowed e.

(** The exceptions that the simulation and the extractor can end with, and
    those of the transport. *)
Definition cancel_or_limit (e : exn) : Prop :=
  e = CancelledError \/ e = ValueError_max_str_digits.

Definition cancel_or_failure_or_limit (e : exn) : Prop :=
  e = CancelledError \/ e = OtherError \/ e = ValueError_max_str_digits.

(** The exceptions that can leave the loop: a failure of the transport
    only in a live session with a real client, the digit limit only in a
    simulation. *)
Definition loop_exception (m : Miner) (e : exn) : Prop :=
  cancel_or_failure_or_limit e
  /\ (real_client m = None \/ simulate m = true -> cancel_or_limit e)
  /\ (simulate m = false -> e = CancelledError \/ e = OtherError).

(** Every configured command has its entry in the cooldown map. *)
Definition has_entries (m : Miner) (w : World) : Prop :=
  forall c, In c (commands m) -> is_Some (last_sent w !! c).

(** ** More relations between the world before and the world after *)

(** Nobody asks the session to stop. *)
Definition never_stopped (e : Env) : Prop :=
  forall n, operator e n <> StopRequest.

(** The running flag, once set, stays set as long as nobody asks to stop. *)
Definition flag_stays (w w' : World) : Prop :=
  env w' = env w
  /\ (never_stopped (env w) -> running w = true -> running w' = true).

Definition same_written (w w' : World) : Prop := written w' = written w.

(** An entry of the cooldown map is as before or is a reading of the clock
    taken meanwhile. *)
Definition readings (w w' : World) : Prop :=
  env w' = env w /\ (pos w <= pos w')%nat
  /\ forall c t, last_sent w !! c = Some t ->
       last_sent w' !! c = Some t
       \/ exists n, (pos w <= n < pos w')%nat
                    /\ last_sent w' !! c = Some (clock (env w) n).

(** The clock never runs back. *)
Definition monotone_clock (e : Env) : Prop :=
  forall i j, (i <= j)%nat -> clock e i <= clock e j.

(** The line [bot_handler] logs and hands to the extractor. *)
Definition bot_line (rc : RealClient) (time text : string) : string :=
  time ++ " " ++ session_name rc ++ ": " ++ bot rc ++ " -> " ++ text.

(** An operator who cancels the task at every await. *)
Definition cancelling_env : Env :=
  {| clock := clock demo_env; strftime := strftime demo_env;
     random := random demo_env; operator := fun _ => CancelTask;
     network := network demo_env |}.

(** A miner given the same command twice. *)
Definition twice_miner : Miner :=
  new_miner File_B_m "demo" ["/dice"; "/dice"] true None.

(** ** What a pattern matches *)

(** [d] is a contiguous part of [text]. *)
Definition part_of (d text : string) : Prop := exists a b, text = a ++ d ++ b.

(** [d] is the literal [p], character by character, up to the case of the
    letters. *)
Inductive same_nocase : string -> string -> Prop :=
| same_nocase_nil : same_nocase EmptyString EmptyString
| same_nocase_cons (pc : ascii) (p d d' : string) :
    eat_lit pc d = Some d' -> same_nocase p d' ->
    same_nocase (String pc p) d.

(** The strings a pattern matches, whatever the order in which the matcher
    tries them. *)
Inductive matches : regex -> string -> Prop :=
| matches_Lit (c : ascii) (d : string) :
    eat_lit c d = Some EmptyString -> matches (Lit c) d
| matches_Str (p d : string) :
    same_nocase p d -> matches (Str p) d
| matches_In (k : charset) (d : string) :
    eat k d = Some EmptyString -> matches (In_ k) d
| matches_Cat (r1 r2 : regex) (d1 d2 : string) :
    matches r1 d1 -> matches r2 d2 -> matches (Cat r1 r2) (d1 ++ d2)
| matches_Alt_l (r1 r2 : regex) (d : string) :
    matches r1 d -> matches (Alt r1 r2) d
| matches_Alt_r (r1 r2 : regex) (d : string) :
    matches r2 d -> matches (Alt r1 r2) d
| matches_Opt_none (r : regex) : matches (Opt r) EmptyString
| matches_Opt_some (r : regex) (d : string) :
    matches r d -> matches (Opt r) d
| matches_Plus (k : charset) (d : string) :
    d <> EmptyString -> made_of k d -> matches (Plus k) d
| matches_PlusLazy (k : charset) (d : string) :
    d <> EmptyString -> made_of k d -> matches (PlusLazy k) d
| matches_Group (i : nat) (r : regex) (d : string) :
    matches r d -> matches (Group i r) d.

(** Whatever a group of [r] matches satisfies [Q]. *)
Fixpoint groups_match (Q : string -> Prop) (r : regex) : Prop :=
  match r with
  | Group _ r1 => (forall d, matches r1 d -> Q d) /\ groups_match Q r1
  | Cat r1 r2 | Alt r1 r2 => groups_match Q r1 /\ groups_match Q r2
  | Opt r1 => groups_match Q r1
  | _ => True
  end.

(** Every group that is set holds a part of [text] that satisfies [Q]. *)
Definition captured (text : string) (Q : string -> Prop) (g : groups) : Prop :=
  Forall (fun o => match o with
                   | Some d => part_of d text /\ Q d
                   | None => True
                   end) g.

(** Every match of [r] sets one of the first [n] groups. *)
Fixpoint sets_group (n : nat) (r : regex) : Prop :=
  match r with
  | Group i _ => (Nat.pred i < n)%nat
  | Cat r1 r2 => sets_group n r1 \/ sets_group n r2
  | Alt r1 r2 => sets_group n r1 /\ sets_group n r2
  | _ => False
  end.

(** What the groups of the amount patterns hold: decimal digits, of any
    script; and what those of the waifu pattern hold: at least one character
    other than a newline, then [" Waifu"] in any case. *)
Definition decimal_digits (d : string) : Prop :=
  d <> EmptyString /\ made_of Digit d.

Definition waifu_name (name : string) : Prop :=
  exists x tail,
    name = x ++ tail /\ x <> EmptyString
    /\ made_of AnyButNewline x
    /\ same_nocase " Waifu" tail.

(** The digits that [str] writes. *)
Definition digits (d : string) : Prop :=
  d <> EmptyString /\ all_chars is_digit d = true.

(** ** Texts that differ in the case of their letters *)

Fixpoint casefold (s : string) : string :=
  match s with
  | EmptyString => EmptyString
  | String c s' => String (lower c) (casefold s')
  end.

(** The same text up to the case of ASCII letters. *)
Definition same_up_to_case (s t : string) : Prop := casefold s = casefold t.

(** Two characters that are the same, or ASCII letters that differ in case
    only: what the characters at the heads of two such texts have in
    common. *)
Definition alike_points (p q : N) : Prop :=
  p = q \/ (lower_point p = lower_point q /\ (97 <= lower_point p <= 122)%N).

Definition groups_alike (g h : groups) : Prop :=
  Forall2 (option_Forall2 same_up_to_case) g h.

(** Summaries with the same totals and as many waifus and events. *)
Definition totals_alike (w w' : World) : Prop :=
  berries_total (summary w) = berries_total (summary w')
  /\ crystals_total (summary w) = crystals_total (summary w')
  /\ length (waifus (summary w)) = length (waifus (summary w'))
  /\ length (events (summary w)) = length (events (summary w')).

(** ** The replies of the simulation *)

(** The characters of a time stamp ['%Y-%m-%d %H:%M:%S']. *)
Definition stamp_char (c : ascii) : bool :=
  is_digit c || Ascii.eqb c "-" || Ascii.eqb c ":" || Ascii.eqb c " ".

(** [strftime] writes time stamps with these characters only. *)
Definition stamp_format (e : Env) : Prop :=
  forall t, all_chars stamp_char (strftime e t) = true.

(** The reply of [simulate_send] to ['/explore'], from the time stamp and
    the decimal form of the number drawn. *)
Definition explore_reply (v : source) (time shown : string) : string :=
  match v with
  | File_B_m =>
      time ++ " [simulated session]: /explore result: 🎉 You uncovered ancient ruins and discovered "
           ++ shown ++ " Berries! 💰"
  | File_B_m2 =>
      time ++ " [simulated session]: /explore result: 🎉 You uncovered ruins and discovered "
           ++ shown ++ " Berries! 💰"
  end.




(** The phrases of the three patterns, in the case in which the patterns
    are written: around an amount [n], decimal digits of any script (but
    the digits 0 to 9 before [" Crystals"], where the pattern has [[0-9]]),
    and around the first part [x] of a name, characters other than a
    newline. *)
Definition berries_phrase (n phrase : string) : Prop :=
  decimal_digits n
  /\ (phrase = "discovered " ++ n ++ " Berries"
      \/ phrase = "You gained " ++ n ++ " Berries"
      \/ phrase = "Berries: " ++ n).

Definition crystals_phrase (n phrase : string) : Prop :=
  (digits n /\ phrase = n ++ " Crystals")
  \/ (decimal_digits n
      /\ (phrase = "crystal " ++ n \/ phrase = "crystals " ++ n
          \/ phrase = "crystal: " ++ n \/ phrase = "crystals: " ++ n)).

Definition waifu_phrase (x phrase : string) : Prop :=
  x <> EmptyString /\ made_of AnyButNewline x
  /\ (phrase = "got " ++ x ++ " Waifu"
      \/ phrase = "got a " ++ x ++ " Waifu"
      \/ phrase = "got an " ++ x ++ " Waifu"
      \/ phrase = "You obtained " ++ x ++ " Waifu").

(** ** The launch: [parse_args], [main] and [main_async] *)

(** What [parse_args] returns. *)
Record Args : Type :=
  { args_session : string;
    args_simulate : bool;
    args_api_id : option Z;
    args_api_hash : option string;
    args_bot : option string;
    args_commands : list string }.

(** Truth values of Python: [None], [0] and [''] are false. *)
Definition truthy_int (o : option Z) : bool :=
  match o with Some n => negb (n =? 0) | None => false end.

Definition truthy_str (o : option string) : bool :=
  match o with Some s => negb (String.eqb s EmptyString) | None => false end.

(** [args.api_id and args.api_hash and args.bot] *)
Definition has_credentials (a : Args) : bool :=
  truthy_int (args_api_id a) && truthy_str (args_api_hash a)
  && truthy_str (args_bot a).

(** The first lines of [main]: without credentials the session is a
    simulation. *)
Definition main_defaults (a : Args) : Args :=
  if negb (args_simulate a) && negb (has_credentials a) then
    {| args_session := args_session a; args_simulate := true;
       args_api_id := args_api_id a; args_api_hash := args_api_hash a;
       args_bot := args_bot a; args_commands := args_commands a |}
  else a.

(** How [Miner(...)] ends: with the object, or with the [RuntimeError] that
    [__init__] raises when a real client is wanted and Telethon could not
    be imported. *)
Inductive built : Type :=
| Built (m : Miner)
| RuntimeError.

(** [Miner.__init__] with the arguments [main_async] gives it; [telethon]
    is [TELETHON_AVAILABLE]. *)
Definition Miner_init (v : source) (telethon : bool) (a : Args) : built :=
  if negb (args_simulate a) && has_credentials a && negb telethon
  then RuntimeError
  else Built (new_miner v (args_session a) (args_commands a) (args_simulate a)
                (if truthy_int (args_api_id a) && truthy_str (args_api_hash a)
                 then args_bot a else None)).

(** How far [main_async] gets: the exception of [Miner(...)], the return
    after the message that Telethon is not installed, or the call of the
    command line interface with the miner, after the log-in that [B_m.py]
    makes first when there is a real client. *)
Inductive launch : Type :=
| Raises
| GivesUp
| EntersCli (m : Miner) (logs_in_first : bool).

Definition main_async (v : source) (telethon : bool) (a : Args) : launch :=
  match Miner_init v telethon a with
  | RuntimeError => Raises
  | Built m =>
      if negb (simulate m) && negb telethon then GivesUp
      else EntersCli m
             match v, real_client m with
             | File_B_m, Some _ => true
             | _, _ => false
             end
  end.

(** [main], up to the call of the command line interface. *)
Definition main (v : source) (telethon : bool) (a : Args) : launch :=
  main_async v telethon (main_defaults a).

(** Arguments without credentials. *)
Definition bare_args : Args :=
  {| args_session := "demo"; args_simulate := false; args_api_id := None;
     args_api_hash := None; args_bot := None;
     args_commands := B_m.DEFAULT_COMMANDS |}.

(** ** The CSV file of [B_m.py] *)

(** The rows [_write_summary] of [B_m.py] hands to [csv.writer]: the
    header, then one row for each event, whose fields the writer turns into
    strings with [str].  The summary holds no event of another type, for
    which the code has a fallback row. *)
Definition csv_header : list string := ["time"; "type"; "detail"].

Definition csv_row (e : Event) : result (list string) :=
  match e with
  | Berries time amount _ =>
      match str_value amount with
      | Ok shown => Ok [time; "berries"; shown]
      | Raised x => Raised x
      end
  | Crystals time amount _ =>
      match str_value amount with
      | Ok shown => Ok [time; "crystals"; shown]
      | Raised x => Raised x
      end
  | Waifu time name _ => Ok [time; "waifu"; name]
  end.

Fixpoint csv_rows (l : list Event) : result (list (list string)) :=
  match l with
  | [] => Ok []
  | e :: l' =>
      match csv_row e with
      | Ok row =>
          match csv_rows l' with
          | Ok rows => Ok (row :: rows)
          | Raised x => Raised x
          end
      | Raised x => Raised x
      end
  end.

Definition csv_file (s : Summary) : result (list (list string)) :=
  match csv_rows (events s) with
  | Ok rows => Ok (csv_header :: rows)
  | Raised x => Raised x
  end.

(** Amounts as the extractor records them: not negative. *)
Definition natural_amount (e : Event) : Prop :=
  match e with
  | Berries _ n _ | Crystals _ n _ => 0 <= n
  | Waifu _ _ _ => True
  end.

(** What a row of the file shows of an event. *)
Definition shows (e : Event) (row : list string) : Prop :=
  match e with
  | Berries time n _ =>
      exists d, row = [time; "berries"; d] /\ digits d /\ int_value d = Ok n
  | Crystals time n _ =>
      exists d, row = [time; "crystals"; d] /\ digits d /\ int_value d = Ok n
  | Waifu time name _ => row = [time; "waifu"; name]
  end.

Definition csv_demo : Summary :=
  {| berries_total := 120; crystals_total := 3; waifus := [{| waifu_time := "t1"; waifu := "Rem";
                   waifu_text := "Waifu: Rem" |}];
     events := [Berries "t0" 120 "You found 120 berries";
                Waifu "t1" "Rem" "Waifu: Rem";
                Crystals "t2" 3 "3 crystals"] |}.

(** * Properties *)

(** ** The characters of a text *)

Lemma length_append (a b : string) :
  String.length (a ++ b) = (String.length a + String.length b)%nat.
Proof. induction a as [|c a IH]; simpl; [reflexivity|now rewrite IH]. Qed.

Lemma substring_prefix (d s : string) :
  substring 0 (String.length d) (d ++ s) = d.
Proof.
  induction d as [|c d IH]; simpl.
  - destruct s; reflexivity.
  - now rewrite IH.
Qed.

Lemma consumed_append (d s : string) : consumed (d ++ s) s = d.
Proof.
  unfold consumed. rewrite length_append.
  replace (String.length d + String.length s - String.length s)%nat
    with (String.length d) by lia.
  apply substring_prefix.
Qed.

Lemma string_append_assoc (a b c : string) : (a ++ b) ++ c = a ++ b ++ c.
Proof.
  induction a as [|x a IH]; [reflexivity|].
  change (String x ((a ++ b) ++ c) = String x (a ++ b ++ c)). now rewrite IH.
Qed.

Lemma string_append_nil_r (a : string) : a ++ EmptyString = a.
Proof.
  induction a as [|x a IH]; [reflexivity|].
  change (String x (a ++ EmptyString) = String x a). now rewrite IH.
Qed.

Lemma characters_append (a b : string) :
  characters (a ++ b) = (characters a + characters b)%nat.
Proof.
  induction a as [|c a IH]; simpl; [reflexivity|].
  destruct (continuation c); simpl; now rewrite IH.
Qed.

Lemma characters_length (s : string) : (characters s <= String.length s)%nat.
Proof.
  induction s as [|c s IH]; simpl; [lia|]. destruct (continuation c); lia.
Qed.

(** A byte that begins a character is no continuation byte. *)
Lemma lead_not_continuation (a : ascii) :
  (code a <? 128)%N = true \/ between 194 223 a = true
  \/ between 224 239 a = true \/ between 240 244 a = true ->
  continuation a = false.
Proof.
  unfold continuation, between. intros H.
  destruct (128 <=? code a)%N eqn:E1; [|reflexivity].
  destruct (code a <=? 191)%N eqn:E2; [|reflexivity].
  apply N.leb_le in E1, E2. exfalso.
  destruct H as [H|[H|[H|H]]].
  - apply N.ltb_lt in H. lia.
  - apply andb_prop in H as [H _]. apply N.leb_le in H. lia.
  - apply andb_prop in H as [H _]. apply N.leb_le in H. lia.
  - apply andb_prop in H as [H _]. apply N.leb_le in H. lia.
Qed.

(** [decode] splits off one character: its bytes [c], which no longer
    depend on what follows, hold one character. *)
Lemma decode_split (s : string) (p : N) (s' : string) :
  decode s = Some (p, s') ->
  exists c, s = c ++ s' /\ c <> EmptyString /\ characters c = 1%nat
            /\ forall t, decode (c ++ t) = Some (p, t).
Proof.
  unfold decode. destruct s as [|a s1]; [discriminate|].
  destruct (code a <? 128)%N eqn:E1.
  { intros [= <- <-]. exists (String a EmptyString).
    repeat split; [discriminate| |].
    - simpl. now rewrite lead_not_continuation by auto.
    - intros t. simpl. now rewrite E1. }
  destruct (between 194 223 a) eqn:E2.
  { destruct s1 as [|b s2]; [discriminate|].
    destruct (continuation b) eqn:Eb; [|discriminate].
    intros [= <- <-]. exists (String a (String b EmptyString)).
    repeat split; [discriminate| |].
    - simpl. rewrite Eb. now rewrite lead_not_continuation by auto.
    - intros t. simpl. now rewrite E1, E2, Eb. }
  destruct (between 224 239 a) eqn:E3.
  { destruct s1 as [|b [|c s3]]; [discriminate..|]. cbv zeta.
    destruct (continuation b) eqn:Eb; [|discriminate].
    destruct (continuation c) eqn:Ec; [|discriminate].
    destruct (_ && _) eqn:Eok; [|discriminate].
    intros [= <- <-]. exists (String a (String b (String c EmptyString))).
    repeat split; [discriminate| |].
    - simpl. rewrite Eb, Ec. now rewrite lead_not_continuation by auto.
    - intros t. simpl. rewrite E1, E2, E3, Eb, Ec. simpl in Eok |- *.
      now rewrite Eok. }
  destruct (between 240 244 a) eqn:E4; [|discriminate].
  destruct s1 as [|b [|c [|d s4]]]; [discriminate..|]. cbv zeta.
  destruct (continuation b) eqn:Eb; [|discriminate].
  destruct (continuation c) eqn:Ec; [|discriminate].
  destruct (continuation d) eqn:Ed; [|discriminate].
  destruct (_ && _) eqn:Eok; [|discriminate].
  intros [= <- <-].
  exists (String a (String b (String c (String d EmptyString)))).
  repeat split; [discriminate| |].
  - simpl. rewrite Eb, Ec, Ed. now rewrite lead_not_continuation by auto.
  - intros t. simpl. rewrite E1, E2, E3, E4, Eb, Ec, Ed. simpl in Eok |- *.
    now rewrite Eok.
Qed.

Lemma decode_shorter (s : string) (p : N) (s' : string) :
  decode s = Some (p, s') -> (String.length s' < String.length s)%nat.
Proof.
  intros (c & -> & Hc & _)%decode_split. rewrite length_append.
  destruct c; [contradiction|simpl; lia].
Qed.

Lemma decode_characters (s : string) (p : N) (s' : string) :
  decode s = Some (p, s') -> characters s = S (characters s').
Proof.
  intros (c & -> & _ & Hc & _)%decode_split. rewrite characters_append, Hc.
  reflexivity.
Qed.

(** An ASCII byte is a character by itself. *)
Lemma decode_ascii (a : ascii) (s : string) :
  (code a < 128)%N -> decode (String a s) = Some (code a, s).
Proof. intros H. simpl. apply N.ltb_lt in H. now rewrite H. Qed.

(** ** The matcher *)

(** One character of a set, or a literal, taken from the head of a string:
    the bytes [c] taken are a character that is taken from the head of any
    other string too. *)
Lemma eat_split (k : charset) (s s' : string) :
  eat k s = Some s' ->
  exists c, s = c ++ s' /\ c <> EmptyString /\ characters c = 1%nat
            /\ forall t, eat k (c ++ t) = Some t.
Proof.
  unfold eat. destruct (decode s) as [[p r]|] eqn:E; [|discriminate].
  destruct (in_charset k p) eqn:Hp; [|discriminate]. intros [= ->].
  destruct (decode_split _ _ _ E) as (c & -> & Hne & Hone & Hc).
  exists c. repeat split; try assumption.
  intros t. now rewrite Hc, Hp.
Qed.

Lemma eat_lit_split (x : ascii) (s s' : string) :
  eat_lit x s = Some s' ->
  exists c, s = c ++ s' /\ c <> EmptyString /\ characters c = 1%nat
            /\ forall t, eat_lit x (c ++ t) = Some t.
Proof.
  unfold eat_lit. destruct (decode s) as [[p r]|] eqn:E; [|discriminate].
  destruct (eq_nocase x p) eqn:Hp; [|discriminate]. intros [= ->].
  destruct (decode_split _ _ _ E) as (c & -> & Hne & Hone & Hc).
  exists c. repeat split; try assumption.
  intros t. now rewrite Hc, Hp.
Qed.

Lemma eat_shorter (k : charset) (s s' : string) :
  eat k s = Some s' -> (String.length s' < String.length s)%nat.
Proof.
  intros (c & -> & Hc & _)%eat_split. rewrite length_append.
  destruct c; [contradiction|simpl; lia].
Qed.

Lemma eat_characters (k : charset) (s s' : string) :
  eat k s = Some s' -> characters s = S (characters s').
Proof.
  intros (c & -> & _ & Hc & _)%eat_split. rewrite characters_append, Hc.
  reflexivity.
Qed.

Lemma eat_lit_characters (x : ascii) (s s' : string) :
  eat_lit x s = Some s' -> characters s = S (characters s').
Proof.
  intros (c & -> & _ & Hc & _)%eat_lit_split. rewrite characters_append, Hc.
  reflexivity.
Qed.

Lemma eat_empty (k : charset) : eat k EmptyString = None.
Proof. reflexivity. Qed.

Lemma made_of_app (k : charset) (a b : string) :
  made_of k a -> made_of k b -> made_of k (a ++ b).
Proof.
  induction 1 as [|s s' He Hs IH]; intros Hb; [exact Hb|].
  destruct (eat_split _ _ _ He) as (c & -> & _ & _ & Hc).
  rewrite string_append_assoc. eapply made_of_cons; [apply Hc|].
  exact (IH Hb).
Qed.

Lemma made_of_one (k : charset) (c s : string) :
  eat k (c ++ s) = Some s -> (forall t, eat k (c ++ t) = Some t) ->
  made_of k c.
Proof.
  intros _ Hc. rewrite <- (string_append_nil_r c).
  eapply made_of_cons; [apply Hc|constructor].
Qed.

Lemma made_of_impl (k k' : charset) (d : string) :
  (forall p, in_charset k p = true -> in_charset k' p = true) ->
  made_of k d -> made_of k' d.
Proof.
  intros Hk. induction 1 as [|s s' He Hs IH]; [constructor|].
  eapply made_of_cons; [|exact IH].
  unfold eat in *. destruct (decode s) as [[p r]|]; [|discriminate].
  destruct (in_charset k p) eqn:Hp; [|discriminate].
  now rewrite (Hk _ Hp).
Qed.

Section MatcherFacts.
Context {R : Type}.

(** The count given to [plus_greedy] and [plus_lazy] does not matter once
    it is the length of the string. *)
Lemma plus_greedy_enough (cs : charset) (k : string -> option R) (n m : nat) :
  forall s, (String.length s <= n)%nat -> (String.length s <= m)%nat ->
            plus_greedy n cs s k = plus_greedy m cs s k.
Proof.
  revert m. induction n as [|n IH]; intros m s Hn Hm.
  - destruct s; [|simpl in Hn; lia]. destruct m; reflexivity.
  - destruct m as [|m].
    + destruct s; [|simpl in Hm; lia]. reflexivity.
    + simpl. destruct (eat cs s) as [s'|] eqn:E; [|reflexivity].
      apply eat_shorter in E. rewrite (IH m s') by lia. reflexivity.
Qed.

Lemma plus_lazy_enough (cs : charset) (k : string -> option R) (n m : nat) :
  forall s, (String.length s <= n)%nat -> (String.length s <= m)%nat ->
            plus_lazy n cs s k = plus_lazy m cs s k.
Proof.
  revert m. induction n as [|n IH]; intros m s Hn Hm.
  - destruct s; [|simpl in Hn; lia]. destruct m; reflexivity.
  - destruct m as [|m].
    + destruct s; [|simpl in Hm; lia]. reflexivity.
    + simpl. destruct (eat cs s) as [s'|] eqn:E; [|reflexivity].
      apply eat_shorter in E. rewrite (IH m s') by lia. reflexivity.
Qed.

(** The equations of [k+] and [k+?]. *)
Lemma plus_greedy_eq (cs : charset) (s : string) (k : string -> option R) :
  plus_greedy (String.length s) cs s k
  = match eat cs s with
    | Some s' =>
        match plus_greedy (String.length s') cs s' k with
        | Some r => Some r
        | None => k s'
        end
    | None => None
    end.
Proof.
  destruct s as [|a s]; [reflexivity|].
  cbn [String.length plus_greedy].
  destruct (eat cs (String a s)) as [s'|] eqn:E; [|reflexivity].
  apply eat_shorter in E. simpl in E.
  rewrite (plus_greedy_enough cs k _ (String.length s')) by lia. reflexivity.
Qed.

Lemma plus_lazy_eq (cs : charset) (s : string) (k : string -> option R) :
  plus_lazy (String.length s) cs s k
  = match eat cs s with
    | Some s' =>
        match k s' with
        | Some r => Some r
        | None => plus_lazy (String.length s') cs s' k
        end
    | None => None
    end.
Proof.
  destruct s as [|a s]; [reflexivity|].
  cbn [String.length plus_lazy].
  destruct (eat cs (String a s)) as [s'|] eqn:E; [|reflexivity].
  apply eat_shorter in E. simpl in E.
  rewrite (plus_lazy_enough cs k _ (String.length s')) by lia. reflexivity.
Qed.

Lemma match_str_inv (p s : string) (k : string -> option R) (res : R) :
  match_str p s k = Some res ->
  exists s', k s' = Some res /\ (characters s' <= characters s)%nat.
Proof.
  revert s. induction p as [|pc p IH]; intros s H; simpl in H.
  - exists s. split; [assumption|lia].
  - destruct (eat_lit pc s) as [s1|] eqn:E; [|discriminate].
    apply eat_lit_characters in E.
    destruct (IH _ H) as (s' & Hk & Hlen).
    exists s'. split; [assumption|lia].
Qed.

Lemma plus_greedy_inv (cs : charset) (n : nat) (s : string)
    (k : string -> option R) (res : R) :
  plus_greedy n cs s k = Some res ->
  exists d s', s = d ++ s' /\ d <> EmptyString
               /\ made_of cs d /\ k s' = Some res.
Proof.
  revert s. induction n as [|n IH]; intros s; simpl; [discriminate|].
  destruct (eat cs s) as [s1|] eqn:E; [|discriminate].
  destruct (eat_split _ _ _ E) as (c & -> & Hne & _ & Hc).
  assert (Hone : made_of cs c) by exact (made_of_one _ _ _ E Hc).
  destruct (plus_greedy n cs s1 k) as [r|] eqn:Hrec.
  - intros [= <-]. destruct (IH _ Hrec) as (d & s' & -> & _ & Hall & Hk).
    exists (c ++ d), s'. rewrite string_append_assoc.
    repeat split; [|now apply made_of_app|exact Hk].
    destruct c; [contradiction|discriminate].
  - intros Hk. exists c, s1. repeat split; assumption.
Qed.

Lemma plus_lazy_inv (cs : charset) (n : nat) (s : string)
    (k : string -> option R) (res : R) :
  plus_lazy n cs s k = Some res ->
  exists d s', s = d ++ s' /\ d <> EmptyString
               /\ made_of cs d /\ k s' = Some res.
Proof.
  revert s. induction n as [|n IH]; intros s; simpl; [discriminate|].
  destruct (eat cs s) as [s1|] eqn:E; [|discriminate].
  destruct (eat_split _ _ _ E) as (c & -> & Hne & _ & Hc).
  assert (Hone : made_of cs c) by exact (made_of_one _ _ _ E Hc).
  destruct (k s1) as [r|] eqn:Hk.
  - intros [= <-]. exists c, s1. repeat split; assumption.
  - intros H. destruct (IH _ H) as (d & s' & -> & _ & Hall & Hk').
    exists (c ++ d), s'. rewrite string_append_assoc.
    repeat split; [|now apply made_of_app|exact Hk'].
    destruct c; [contradiction|discriminate].
Qed.
End MatcherFacts.

Lemma all_chars_impl (p q : ascii -> bool) (s : string) :
  (forall c, p c = true -> q c = true) ->
  all_chars p s = true -> all_chars q s = true.
Proof.
  intros Hpq. induction s as [|c s IH]; simpl; [reflexivity|].
  intros [Hc Hs]%andb_prop. rewrite (Hpq _ Hc), (IH Hs). reflexivity.
Qed.

Lemma amount_groups_set (n i : nat) (d : string) (g : groups) :
  amount_groups n g -> amount_string n d -> amount_groups n (set_group i d g).
Proof. intros Hg Hd. unfold set_group. now apply Forall_insert. Qed.

Lemma amount_groups_mono (n n' : nat) (g : groups) :
  (n <= n')%nat -> amount_groups n g -> amount_groups n' g.
Proof.
  intros Hn Hg. eapply Forall_impl; [exact Hg|].
  intros [d|]; [|trivial]. unfold amount_string. intuition lia.
Qed.

(** A match of a pattern whose groups are digit groups fills them with
    amount strings. *)
Lemma exec_amount_groups (n : nat) (r : regex) :
  digit_groups r ->
  forall (s : string) (g : groups) (k : string -> groups -> option groups)
         (res : groups),
    amount_groups n g -> (characters s <= n)%nat ->
    exec r s g k = Some res ->
    exists s' g', amount_groups n g' /\ (characters s' <= n)%nat
                  /\ k s' g' = Some res.
Proof.
  induction r as [c|p|cs|r1 IH1 r2 IH2|r1 IH1 r2 IH2|r1 IH1|cs|cs|i r1 IH1];
    intros Hr s g k res Hg Hs H; simpl in H.
  - destruct (eat_lit c s) as [s1|] eqn:E; [|discriminate].
    apply eat_lit_characters in E.
    exists s1, g. repeat split; [assumption|lia|assumption].
  - apply match_str_inv in H as (s' & Hk & Hlen). exists s', g.
    repeat split; [assumption|lia|assumption].
  - destruct (eat cs s) as [s1|] eqn:E; [|discriminate].
    apply eat_characters in E.
    exists s1, g. repeat split; [assumption|lia|assumption].
  - destruct Hr as [Hr1 Hr2].
    destruct (IH1 Hr1 _ _ _ _ Hg Hs H) as (s1 & g1 & Hg1 & Hs1 & H1).
    exact (IH2 Hr2 _ _ _ _ Hg1 Hs1 H1).
  - destruct Hr as [Hr1 Hr2].
    destruct (exec r1 s g k) as [x|] eqn:E1.
    + injection H as ->. exact (IH1 Hr1 _ _ _ _ Hg Hs E1).
    + exact (IH2 Hr2 _ _ _ _ Hg Hs H).
  - simpl in Hr. destruct (exec r1 s g k) as [x|] eqn:E1.
    + injection H as ->. exact (IH1 Hr _ _ _ _ Hg Hs E1).
    + exists s, g. repeat split; assumption.
  - apply plus_greedy_inv in H as (d & s' & -> & _ & _ & Hk).
    exists s', g. rewrite characters_append in Hs.
    repeat split; [assumption|lia|assumption].
  - apply plus_lazy_inv in H as (d & s' & -> & _ & _ & Hk).
    exists s', g. rewrite characters_append in Hs.
    repeat split; [assumption|lia|assumption].
  - destruct r1; simpl in Hr; try contradiction.
    simpl in H. apply plus_greedy_inv in H as (d & s' & -> & Hne & Hall & Hk).
    rewrite consumed_append in Hk. rewrite characters_append in Hs.
    exists s', (set_group i d g). repeat split; [|lia|assumption].
    apply amount_groups_set; [assumption|].
    repeat split; [assumption| |lia].
    exact (made_of_impl _ Digit _ Hr Hall).
Qed.

Lemma characters_tail (c : ascii) (s : string) :
  (characters s <= characters (String c s))%nat.
Proof. simpl. destruct (continuation c); lia. Qed.

Lemma search_amount_groups (p : pattern) (s : string) (g : groups) :
  digit_groups (syntax p) ->
  search p s = Some g -> amount_groups (characters s) g.
Proof.
  intros Hp. induction s as [|c s IH]; cbn [search]; unfold match_at.
  - destruct (exec _ _ _ _) as [x|] eqn:E; [|discriminate].
    intros [= <-].
    apply (exec_amount_groups 0 _ Hp) in E as (s' & g' & Hg' & _ & [= <-]);
      [assumption| |simpl; lia].
    apply Forall_replicate. exact I.
  - destruct (exec _ _ _ _) as [x|] eqn:E.
    + intros [= <-].
      apply (exec_amount_groups (characters (String c s)) _ Hp) in E
        as (s' & g' & Hg' & _ & [= <-]); [assumption| |lia].
      apply Forall_replicate. exact I.
    + intros H. apply (amount_groups_mono (characters s));
        [apply characters_tail|auto].
Qed.

Lemma first_truthy_amount (n : nat) (g : groups) (d : string) :
  amount_groups n g -> first_truthy g = Some d -> amount_string n d.
Proof.
  induction 1 as [|o g Ho Hg IH]; simpl; [discriminate|].
  destruct o as [[|c x]|]; auto. intros [= <-]. exact Ho.
Qed.

Lemma digit_charset_Digit : digit_charset Digit.
Proof. intros c H. exact H. Qed.

(** The lower case of a character is an ASCII digit only when the
    character is that digit. *)
Lemma lower_point_digit (p : N) :
  (48 <= lower_point p <= 57)%N -> lower_point p = p.
Proof.
  unfold lower_point.
  destruct ((65 <=? p)%N && (p <=? 90)%N) eqn:E1.
  { apply andb_prop in E1 as [H1 H2]. apply N.leb_le in H1, H2. lia. }
  destruct (p =? 304)%N; [lia|]. destruct (p =? 8490)%N; [lia|]. reflexivity.
Qed.

Lemma in_0_9 (p : N) :
  in_charset (Range "0" "9") p = true <-> (48 <= p <= 57)%N.
Proof.
  assert (Hspan : span "0" "9"
                  = ["0"; "1"; "2"; "3"; "4"; "5"; "6"; "7"; "8"; "9"]%char)
    by reflexivity.
  cbn [in_charset]. rewrite Hspan. split.
  - intros H. apply existsb_exists in H as (x & Hx & Hp).
    unfold eq_nocase, same_letter in Hp.
    assert (Hcode : (48 <= code x <= 57)%N /\ lower_point (code x) = code x).
    { simpl in Hx.
      repeat (destruct Hx as [<-|Hx]; [vm_compute; split; [split|];
                                       first [discriminate|reflexivity]|]).
      contradiction. }
    destruct Hcode as [Hr Hl]. rewrite Hl in Hp.
    apply orb_prop in Hp as [Hp|Hp].
    + apply orb_prop in Hp as [Hp|Hp].
      * apply N.eqb_eq in Hp. rewrite <- (lower_point_digit p); lia.
      * apply andb_prop in Hp as [Hp _]. apply N.eqb_eq in Hp. lia.
    + apply andb_prop in Hp as [Hp _]. apply N.eqb_eq in Hp. lia.
  - intros Hp. apply existsb_exists. exists (ascii_of_N p). split.
    + assert (Hn : exists i, (i < 10)%nat /\ p = (48 + N.of_nat i)%N).
      { exists (N.to_nat (p - 48)). split; lia. }
      destruct Hn as (i & Hi & ->).
      do 10 (destruct i as [|i]; [simpl; auto 11|]). lia.
    + unfold eq_nocase, code. rewrite N_ascii_embedding by lia.
      unfold same_letter. rewrite N.eqb_refl. reflexivity.
Qed.

Lemma is_decimal_ascii_digit (p : N) : (48 <= p <= 57)%N -> is_decimal p = true.
Proof.
  intros Hp. unfold is_decimal, decimal_value. cbn [decimal_zeros find].
  replace ((48 <=? p)%N && (p <? 48 + 10)%N) with true; [reflexivity|].
  symmetry. apply andb_true_intro. split; [apply N.leb_le|apply N.ltb_lt]; lia.
Qed.

Lemma digit_charset_0_9 : digit_charset (Range "0" "9").
Proof. intros p H. apply in_0_9 in H. now apply is_decimal_ascii_digit. Qed.

Lemma RE_BERRIES_digit_groups (v : source) : digit_groups (syntax (RE_BERRIES v)).
Proof. destruct v; simpl; repeat split; apply digit_charset_Digit. Qed.

Lemma RE_CRYSTALS_digit_groups (v : source) : digit_groups (syntax (RE_CRYSTALS v)).
Proof.
  destruct v; simpl; repeat split;
    first [apply digit_charset_Digit | apply digit_charset_0_9].
Qed.

(** [search] tries the positions byte by byte.  At a byte inside a character
    none of the patterns matches, so that the matches are those at the
    positions of the characters, which are the positions [re] tries. *)
Lemma decode_continuation (c : ascii) (s : string) :
  continuation c = true -> decode (String c s) = None.
Proof.
  unfold continuation, between, decode. intros H.
  apply andb_true_iff in H as [H1 H2].
  apply N.leb_le in H1. apply N.leb_le in H2.
  replace (code c <? 128)%N with false by (symmetry; apply N.ltb_ge; lia).
  assert (B : forall lo hi, (191 < lo)%N -> between lo hi c = false)
    by (intros lo hi Hlo; unfold between; apply andb_false_iff; left;
        apply N.leb_gt; lia).
  rewrite !B by lia.
  reflexivity.
Qed.

Lemma no_match_inside_a_character (v : source) (c : ascii) (s : string) :
  continuation c = true ->
  match_at (RE_BERRIES v) (String c s) = None
  /\ match_at (RE_CRYSTALS v) (String c s) = None
  /\ match_at (RE_WAIFU v) (String c s) = None.
Proof.
  intros H. pose proof (decode_continuation c s H) as D.
  assert (L : forall x, eat_lit x (String c s) = None)
    by (intros x; unfold eat_lit; now rewrite D).
  assert (E : forall k, eat k (String c s) = None)
    by (intros k; unfold eat; now rewrite D).
  destruct v; unfold match_at; cbn [RE_BERRIES RE_CRYSTALS RE_WAIFU
    B_m.RE_BERRIES B_m.RE_CRYSTALS B_m.RE_WAIFU
    B_m2.RE_BERRIES B_m2.RE_CRYSTALS B_m2.RE_WAIFU syntax ngroups exec
    match_str String.length plus_greedy];
    rewrite ?L, ?E; repeat split; reflexivity.
Qed.

(** ** Relations that a program keeps *)

Section Keeps.
Variable R : World -> World -> Prop.
Hypothesis R_refl : forall w, R w w.
Hypothesis R_trans : forall a b c, R a b -> R b c -> R a c.

Lemma keeps_ret {A} (a : A) : keeps R (ret a).
Proof. intros w. apply R_refl. Qed.

Lemma keeps_raise {A} (e : exn) : keeps R (raise (A := A) e).
Proof. intros w. apply R_refl. Qed.

Lemma keeps_lift {A} (r : result A) : keeps R (lift r).
Proof. intros w. apply R_refl. Qed.

Lemma keeps_get {A} (f : World -> A) : keeps R (get f).
Proof. intros w. apply R_refl. Qed.

Lemma keeps_bind {A B} (m : M A) (k : A -> M B) :
  keeps R m -> (forall a, keeps R (k a)) -> keeps R (bind m k).
Proof.
  intros Hm Hk w. unfold bind. specialize (Hm w).
  destruct (m w) as [[a|e] w1]; simpl in *; [|assumption].
  exact (R_trans _ _ _ Hm (Hk a w1)).
Qed.

Lemma keeps_try_except {A} (m h : M A) (catches : exn -> bool) :
  keeps R m -> keeps R h -> keeps R (try_except m catches h).
Proof.
  intros Hm Hh w. unfold try_except. specialize (Hm w).
  destruct (m w) as [[a|e] w1]; simpl in *; [assumption|].
  destruct (catches e); [|assumption].
  exact (R_trans _ _ _ Hm (Hh w1)).
Qed.

Lemma keeps_try_finally {A} (m : M A) (f : M unit) :
  keeps R m -> keeps R f -> keeps R (try_finally m f).
Proof.
  intros Hm Hf w. unfold try_finally. specialize (Hm w).
  destruct (m w) as [r w1]; simpl in *. specialize (Hf w1).
  destruct (f w1) as [[u|e] w2]; simpl in *;
    exact (R_trans _ _ _ Hm Hf).
Qed.

Lemma keeps_update (f : World -> World) :
  (forall w, R w (f w)) -> keeps R (update f).
Proof. intros H w. apply H. Qed.

Lemma keeps_ask {A} (f : Env -> nat -> A) :
  (forall w, R w (with_pos (S (pos w)) w)) -> keeps R (ask f).
Proof. intros H w. apply H. Qed.
End Keeps.

Lemma frame_refl (w : World) : frame w w.
Proof.
  split; try reflexivity. exists []. split; [now rewrite app_nil_r|constructor].
Qed.

Lemma frame_trans (a b c : World) : frame a b -> frame b c -> frame a c.
Proof.
  intros [e1 p1 l1 w1 t1 (x & Hx & Qx)] [e2 p2 l2 w2 t2 (y & Hy & Qy)].
  split; try congruence; [lia|].
  exists (x ++ y)%list. split; [rewrite Hy, Hx; now rewrite app_assoc|].
  now apply Forall_app.
Qed.

Lemma same_running_refl (w : World) : same_running w w.
Proof. reflexivity. Qed.
Lemma same_running_trans (a b c : World) :
  same_running a b -> same_running b c -> same_running a c.
Proof. unfold same_running. congruence. Qed.
Lemma same_summary_refl (w : World) : same_summary w w.
Proof. reflexivity. Qed.
Lemma same_summary_trans (a b c : World) :
  same_summary a b -> same_summary b c -> same_summary a c.
Proof. unfold same_summary. congruence. Qed.

Lemma frame_with_pos (w : World) : frame w (with_pos (S (pos w)) w).
Proof.
  split; simpl; try reflexivity; [lia|].
  exists []. split; [now rewrite app_nil_r|constructor].
Qed.

Lemma frame_with_summary (s : Summary) (w : World) : frame w (with_summary s w).
Proof.
  split; simpl; try reflexivity.
  exists []. split; [now rewrite app_nil_r|constructor].
Qed.

Lemma frame_with_running (b : bool) (w : World) : frame w (with_running b w).
Proof.
  split; simpl; try reflexivity.
  exists []. split; [now rewrite app_nil_r|constructor].
Qed.

Lemma frame_with_log (e : LogEntry) (w : World) :
  quiet e -> frame w (with_log (log w ++ [e]) w).
Proof.
  intros He. split; simpl; try reflexivity.
  exists [e]. split; [reflexivity|]. constructor; [assumption|constructor].
Qed.

(** One step of a proof that a program keeps a relation: split a sequence,
    take a branch, close a primitive. *)
Ltac keeps_step refl trans :=
  lazymatch goal with
  | |- keeps _ (bind _ _) => apply (keeps_bind _ trans); [|intros ?]
  | |- keeps _ (ret _) => apply (keeps_ret _ refl)
  | |- keeps _ (raise _) => apply (keeps_raise _ refl)
  | |- keeps _ (lift _) => apply (keeps_lift _ refl)
  | |- keeps _ (int _) => apply (keeps_lift _ refl)
  | |- keeps _ (str _) => apply (keeps_lift _ refl)
  | |- keeps _ (get _) => apply (keeps_get _ refl)
  | |- keeps _ (try_except _ _ _) => apply (keeps_try_except _ trans)
  | |- keeps _ (try_finally _ _) => apply (keeps_try_finally _ trans)
  | |- keeps _ (match ?x with _ => _ end) => destruct x
  end.

Ltac frame_prim :=
  lazymatch goal with
  | |- keeps frame (info _) =>
      apply keeps_update; intros ?; apply frame_with_log; exact I
  | |- keeps frame (on_summary _) =>
      apply keeps_update; intros ?; apply frame_with_summary
  | |- keeps frame (update (with_running _)) =>
      apply keeps_update; intros ?; apply frame_with_running
  | |- keeps frame (ask _) => apply keeps_ask; exact frame_with_pos
  | |- keeps frame datetime_now => apply keeps_ask; exact frame_with_pos
  end.

Ltac keeps_known :=
  match goal with H : context [keeps] |- _ => solve [apply H] end.

Ltac keeps_frame :=
  repeat first [ keeps_step frame_refl frame_trans | frame_prim | keeps_known ].

Lemma ts_frame : keeps frame ts.
Proof. unfold ts. keeps_frame. Qed.

Lemma await_frame : keeps frame await.
Proof. unfold await. keeps_frame. Qed.

Lemma randint_frame (lo hi : Z) : keeps frame (randint lo hi).
Proof. unfold randint. keeps_frame. Qed.

Lemma extract_and_record_frame (v : source) (text : string) :
  keeps frame (extract_and_record v text).
Proof.
  pose proof ts_frame.
  destruct v; unfold extract_and_record, B_m.extract_and_record,
    B_m2.extract_and_record; keeps_frame.
Qed.

Lemma simulate_send_frame (v : source) (session command : string) :
  keeps frame (simulate_send v session command).
Proof.
  pose proof ts_frame. pose proof await_frame.
  pose proof (randint_frame 5 800).
  pose proof (extract_and_record_frame File_B_m) as Hb. simpl in Hb.
  pose proof (extract_and_record_frame File_B_m2) as Hb2. simpl in Hb2.
  destruct v; unfold simulate_send, B_m.simulate_send, B_m2.simulate_send;
    keeps_frame.
Qed.

(** ** What one call of [extract_and_record] does to the summary *)

Lemma ts_run (w : World) : ts w = (Ok (stamp w), with_pos (S (pos w)) w).
Proof. reflexivity. Qed.

Lemma extract_and_record_blocks (v : source) (text : string) :
  extract_and_record v text =
  (when_found (RE_BERRIES v) text
     (fun d => record_amount Berries add_berries berries_total ParsedBerries d text) ;;
   when_found (RE_CRYSTALS v) text
     (fun d => record_amount Crystals add_crystals crystals_total ParsedCrystals d text) ;;
   when_found (RE_WAIFU v) text
     (fun name => record_waifu (waifu_entry v) name text)).
Proof.
  destruct v; unfold extract_and_record, B_m.extract_and_record,
    B_m2.extract_and_record, when_found, found; simpl;
  (destruct (search _ text) as [b|]; [destruct (first_truthy b)|]);
  (destruct (search _ text) as [c|]; [destruct (first_truthy c)|]);
  (destruct (search _ text) as [x|]; [destruct (first_truthy x)|]);
  reflexivity.
Qed.

Lemma record_amount_run event add total entry (digits text : string) (w : World) :
  record_amount event add total entry digits text w =
  match int_value digits with
  | Raised e => (Raised e, w)
  | Ok n =>
      let w1 := amount_recorded event add n text w in
      match str_value (total (summary w1)) with
      | Raised e => (Raised e, w1)
      | Ok shown => (Ok tt, with_log (log w1 ++ [entry digits shown]) w1)
      end
  end.
Proof.
  unfold record_amount, int, str, lift, bind, amount_recorded.
  destruct (int_value digits) as [n|e]; [|reflexivity]. simpl.
  destruct (str_value _) as [shown|e]; reflexivity.
Qed.

Lemma record_waifu_run entry (name text : string) (w : World) :
  record_waifu entry name text w =
  (Ok tt, let w2 := waifu_recorded name text w in
          with_log (log w2 ++ [entry name]) w2).
Proof. reflexivity. Qed.

(** The characters of a string, one by one. *)
Lemma points_upto_enough (n m : nat) :
  forall s, (String.length s <= n)%nat -> (String.length s <= m)%nat ->
            points_upto n s = points_upto m s.
Proof.
  revert m. induction n as [|n IH]; intros m s Hn Hm.
  - destruct s; [|simpl in Hn; lia]. destruct m; reflexivity.
  - destruct m as [|m].
    + destruct s; [|simpl in Hm; lia]. reflexivity.
    + destruct s as [|a s]; [reflexivity|]. cbn [points_upto].
      destruct (decode (String a s)) as [[p s']|] eqn:E; [|reflexivity].
      apply decode_shorter in E. rewrite (IH m s') by lia. reflexivity.
Qed.

Lemma points_eq (s : string) :
  points s
  = match s with
    | EmptyString => Some []
    | _ =>
        match decode s with
        | Some (p, s') =>
            match points s' with
            | Some l => Some (p :: l)
            | None => None
            end
        | None => None
        end
    end.
Proof.
  unfold points. destruct s as [|a s]; [reflexivity|].
  cbn [String.length points_upto].
  destruct (decode (String a s)) as [[p s']|] eqn:E; [|reflexivity].
  apply decode_shorter in E. simpl in E.
  rewrite (points_upto_enough _ (String.length s')) by lia. reflexivity.
Qed.

Lemma points_cons (s s' : string) (p : N) (l : list N) :
  decode s = Some (p, s') -> points s' = Some l -> points s = Some (p :: l).
Proof.
  intros Hd Hl. rewrite points_eq. destruct s; [discriminate|].
  now rewrite Hd, Hl.
Qed.

(** A string made of digits has as many characters as digits. *)
Lemma made_of_points (k : charset) (d : string) :
  made_of k d ->
  exists l, points d = Some l /\ length l = characters d
            /\ Forall (fun p => in_charset k p = true) l.
Proof.
  induction 1 as [|s s' He Hs (l & Hl & Hlen & Hall)].
  - exists []. repeat split. constructor.
  - unfold eat in He. destruct (decode s) as [[p r]|] eqn:E; [|discriminate].
    destruct (in_charset k p) eqn:Hp; [|discriminate]. injection He as ->.
    exists (p :: l). split; [exact (points_cons _ _ _ _ E Hl)|].
    split; [|now constructor].
    rewrite (decode_characters _ _ _ E). simpl. now rewrite Hlen.
Qed.

Lemma decimal_value_range (p : N) (d : Z) :
  decimal_value p = Some d -> 0 <= d <= 9.
Proof.
  unfold decimal_value.
  destruct (find _ decimal_zeros) as [z|] eqn:E; [|discriminate].
  apply find_some in E as [_ E]. apply andb_prop in E as [H1 H2].
  apply N.leb_le in H1. apply N.ltb_lt in H2. intros [= <-]. lia.
Qed.

Lemma parse_digits_lower (l : list N) (acc : Z) (n : Z) :
  parse_digits l acc = Some n -> 0 <= acc -> acc <= n.
Proof.
  revert acc. induction l as [|p l IH]; simpl; intros acc.
  - intros [= <-] _. lia.
  - destruct (decimal_value p) as [d|] eqn:Hd; [|discriminate].
    apply decimal_value_range in Hd. intros H Hacc. apply IH in H; lia.
Qed.

Lemma int_value_inv (d : string) (n : Z) :
  int_value d = Ok n ->
  exists l, points d = Some l /\ l <> [] /\ parse_digits l 0 = Some n
            /\ (length l <= int_max_str_digits)%nat.
Proof.
  unfold int_value. destruct (points d) as [[|p l]|] eqn:E; [discriminate| |discriminate].
  destruct (parse_digits _ 0) as [k|] eqn:Ek; [|discriminate].
  destruct (_ <? _)%nat eqn:El; [discriminate|]. intros [= <-].
  apply Nat.ltb_ge in El. exists (p :: l). repeat split; [discriminate|assumption..].
Qed.

Lemma int_value_nonneg (d : string) (n : Z) : int_value d = Ok n -> 0 <= n.
Proof.
  intros (l & _ & _ & E & _)%int_value_inv.
  apply parse_digits_lower in E; lia.
Qed.

Lemma after_call_nothing (text : string) (s : Summary) :
  after_call text None None None s = s.
Proof.
  unfold after_call. simpl. rewrite !app_nil_r, !Z.add_0_r. now destruct s.
Qed.

Lemma summary_ext (s s' : Summary) :
  berries_total s = berries_total s' -> crystals_total s = crystals_total s' ->
  waifus s = waifus s' -> events s = events s' -> s = s'.
Proof. destruct s, s'; simpl; congruence. Qed.

(** The three blocks one after the other. *)
Lemma after_call_berries (text : string) (t : string) (n : Z) (s : Summary) :
  append_event (Berries t n text) (add_berries n s)
  = after_call text (Some (t, n)) None None s.
Proof. apply summary_ext; simpl; rewrite ?app_nil_r, ?Z.add_0_r; reflexivity. Qed.

Lemma after_call_crystals (text : string) ob (t : string) (n : Z) (s : Summary) :
  append_event (Crystals t n text) (add_crystals n (after_call text ob None None s))
  = after_call text ob (Some (t, n)) None s.
Proof.
  apply summary_ext; simpl; rewrite ?app_nil_r, ?Z.add_0_r; try reflexivity.
  now rewrite <- !app_assoc.
Qed.

Lemma after_call_waifu (text : string) ob oc (t t' name : string) (s : Summary) :
  append_event (Waifu t' name text)
    (append_waifu {| waifu_time := t; waifu := name; waifu_text := text |}
       (after_call text ob oc None s))
  = after_call text ob oc (Some (t, t', name)) s.
Proof.
  apply summary_ext; simpl; rewrite ?app_nil_r; try reflexivity.
  now rewrite <- !app_assoc.
Qed.

Lemma extract_and_record_summary (v : source) (text : string) (w : World) :
  exists ob oc ow,
    summary (snd (extract_and_record v text w))
    = after_call text ob oc ow (summary w)
    /\ call_outcome v text ob oc ow.
Proof.
  rewrite extract_and_record_blocks. unfold bind at 1.
  unfold when_found at 1.
  assert (Hnone : forall w1 ob oc,
    summary w1 = after_call text ob oc None (summary w) ->
    call_outcome v text ob oc None ->
    exists ob' oc' ow, summary w1 = after_call text ob' oc' ow (summary w)
                       /\ call_outcome v text ob' oc' ow).
  { intros w1 ob oc H1 H2. exists ob, oc, None. auto. }
  assert (Hw : forall w1 ob oc,
    summary w1 = after_call text ob oc None (summary w) ->
    call_outcome v text ob oc None ->
    exists ob' oc' ow,
      summary (snd (when_found (RE_WAIFU v) text
                      (fun name => record_waifu (waifu_entry v) name text) w1))
      = after_call text ob' oc' ow (summary w)
      /\ call_outcome v text ob' oc' ow).
  { intros w1 ob oc H1 (Hb & Hc & _). unfold when_found.
    destruct (found (RE_WAIFU v) text) as [name|] eqn:Ew.
    - rewrite record_waifu_run. simpl. rewrite H1, after_call_waifu.
      eexists _, _, _. split; [reflexivity|]. repeat split; auto.
      intros ? ? ? [= _ _ <-]. exact Ew.
    - simpl. apply (Hnone w1 ob oc); [assumption|]. repeat split; auto.
      discriminate. }
  assert (Hc : forall w1 ob,
    summary w1 = after_call text ob None None (summary w) ->
    call_outcome v text ob None None ->
    exists ob' oc' ow,
      summary (snd (bind (when_found (RE_CRYSTALS v) text
                      (fun d => record_amount Crystals add_crystals crystals_total
                                  ParsedCrystals d text))
                      (fun _ => when_found (RE_WAIFU v) text
                         (fun name => record_waifu (waifu_entry v) name text)) w1))
      = after_call text ob' oc' ow (summary w)
      /\ call_outcome v text ob' oc' ow).
  { intros w1 ob H1 (Hb & _ & _). unfold bind, when_found at 1.
    destruct (found (RE_CRYSTALS v) text) as [d|] eqn:Ec.
    - rewrite record_amount_run.
      destruct (int_value d) as [n|e] eqn:En.
      + assert (Hs : summary (amount_recorded Crystals add_crystals n text w1)
                     = after_call text ob (Some (stamp w1, n)) None (summary w)).
        { unfold amount_recorded. simpl. rewrite H1. apply after_call_crystals. }
        assert (Ho : call_outcome v text ob (Some (stamp w1, n)) None).
        { repeat split; auto; [|discriminate].
          intros ? ? [= _ <-]. exists d. auto. }
        cbv zeta. destruct (str_value _) as [shown|e].
        * apply (Hw _ ob (Some (stamp w1, n))); [exact Hs|exact Ho].
        * simpl snd. apply (Hnone _ ob (Some (stamp w1, n))); [exact Hs|exact Ho].
      + simpl. apply (Hnone w1 ob None); [assumption|].
        repeat split; auto; discriminate.
    - simpl. apply (Hw w1 ob None); [assumption|].
      repeat split; auto; discriminate. }
  assert (H0 : call_outcome v text None None None)
    by (repeat split; discriminate).
  destruct (found (RE_BERRIES v) text) as [d|] eqn:Eb.
  - rewrite record_amount_run.
    destruct (int_value d) as [n|e] eqn:En.
    + assert (Hs : summary (amount_recorded Berries add_berries n text w)
                   = after_call text (Some (stamp w, n)) None None (summary w)).
      { unfold amount_recorded. simpl. apply after_call_berries. }
      assert (Ho : call_outcome v text (Some (stamp w, n)) None None).
      { repeat split; try discriminate. intros ? ? [= _ <-]. exists d. auto. }
      cbv zeta. destruct (str_value _) as [shown|e].
      * apply (Hc _ (Some (stamp w, n))); [exact Hs|exact Ho].
      * simpl snd. apply (Hnone _ (Some (stamp w, n)) None); [exact Hs|exact Ho].
    + simpl. apply (Hnone w None None); [now rewrite after_call_nothing|exact H0].
  - simpl. apply (Hc w None); [now rewrite after_call_nothing|exact H0].
Qed.

(** ** When [extract_and_record] raises *)

Lemma parse_digits_total (l : list N) (acc : Z) :
  Forall (fun p => is_decimal p = true) l ->
  exists n, parse_digits l acc = Some n.
Proof.
  intros H. revert acc. induction H as [|p l Hp Hl IH]; simpl; intros acc.
  - eauto.
  - unfold is_decimal in Hp. destruct (decimal_value p); [|discriminate].
    apply IH.
Qed.

Lemma int_value_amount (n : nat) (d : string) :
  amount_string n d ->
  (exists k, int_value d = Ok k)
  \/ (int_value d = Raised ValueError_max_str_digits
      /\ (int_max_str_digits < characters d)%nat).
Proof.
  intros (Hne & Hall & _). unfold int_value.
  destruct (made_of_points _ _ Hall) as (l & -> & Hlen & Hdig).
  destruct l as [|p l].
  { destruct d; [contradiction|]. simpl in Hlen.
    inversion Hall as [|s s' He _ Es]; subst.
    apply eat_characters in He. simpl in He. lia. }
  destruct (parse_digits_total (p :: l) 0 Hdig) as [k ->].
  destruct (_ <? _)%nat eqn:E; [right|left; eauto].
  apply Nat.ltb_lt in E. split; [reflexivity|lia].
Qed.

Lemma str_value_raised (n : Z) (e : exn) :
  str_value n = Raised e ->
  e = ValueError_max_str_digits /\ str_limit <= Z.abs n.
Proof.
  unfold str_value. destruct (_ <=? _) eqn:E; [|discriminate].
  intros [= <-]. apply Z.leb_le in E. auto.
Qed.

Lemma found_amount (p : pattern) (text d : string) :
  digit_groups (syntax p) -> found p text = Some d ->
  amount_string (characters text) d.
Proof.
  intros Hp. unfold found. destruct (search p text) as [g|] eqn:E; [|discriminate].
  apply first_truthy_amount. exact (search_amount_groups _ _ _ Hp E).
Qed.

Lemma record_amount_raised event add total entry (p : pattern)
    (d text : string) (w w' : World) (e : exn) :
  digit_groups (syntax p) -> found p text = Some d ->
  record_amount event add total entry d text w = (Raised e, w') ->
  e = ValueError_max_str_digits
  /\ ((int_max_str_digits < characters text)%nat
      \/ str_limit <= Z.abs (total (summary w'))).
Proof.
  intros Hp Hd. rewrite record_amount_run.
  pose proof (found_amount _ _ _ Hp Hd) as Ha.
  destruct (int_value_amount _ _ Ha) as [[k ->]|[-> Hlen]].
  - cbv zeta. destruct (str_value _) as [shown|e'] eqn:Es; [discriminate|].
    intros [= <- <-]. apply str_value_raised in Es as [-> Hn]. auto.
  - intros [= <- <-]. split; [reflexivity|left].
    destruct Ha as (_ & _ & Hle). lia.
Qed.

Lemma extract_and_record_raised (v : source) (text : string) (w w' : World)
    (e : exn) :
  extract_and_record v text w = (Raised e, w') ->
  e = ValueError_max_str_digits /\ beyond_limit text (summary w').
Proof.
  rewrite extract_and_record_blocks. unfold bind, beyond_limit.
  destruct (when_found (RE_BERRIES v) _ _ w) as [[[]|e1] w1] eqn:E1.
  - destruct (when_found (RE_CRYSTALS v) _ _ w1) as [[[]|e2] w2] eqn:E2.
    + unfold when_found. destruct (found (RE_WAIFU v) text) as [name|].
      * rewrite record_waifu_run. discriminate.
      * discriminate.
    + intros [= <- <-]. unfold when_found in E2.
      destruct (found (RE_CRYSTALS v) text) as [d|] eqn:Ed; [|discriminate].
      apply (record_amount_raised _ _ _ _ _ _ _ _ _ _
               (RE_CRYSTALS_digit_groups v) Ed) in E2.
      intuition.
  - intros [= <- <-]. unfold when_found in E1.
    destruct (found (RE_BERRIES v) text) as [d|] eqn:Ed; [|discriminate].
    apply (record_amount_raised _ _ _ _ _ _ _ _ _ _
             (RE_BERRIES_digit_groups v) Ed) in E1.
    intuition.
Qed.

Lemma found_no_match (p : pattern) (text : string) :
  search p text = None -> found p text = None.
Proof. unfold found. now intros ->. Qed.

Lemma extract_and_record_no_match (v : source) (text : string) (w : World) :
  search (RE_BERRIES v) text = None ->
  search (RE_CRYSTALS v) text = None ->
  search (RE_WAIFU v) text = None ->
  extract_and_record v text w = (Ok tt, w).
Proof.
  intros Hb Hc Hw. rewrite extract_and_record_blocks. unfold when_found.
  rewrite (found_no_match _ _ Hb), (found_no_match _ _ Hc),
    (found_no_match _ _ Hw). reflexivity.
Qed.

(** ** Sequences of calls *)

Lemma sum_berries_app (a b : list Event) :
  sum_berries (a ++ b) = sum_berries a + sum_berries b.
Proof. induction a as [|[] a IH]; simpl; lia. Qed.

Lemma sum_crystals_app (a b : list Event) :
  sum_crystals (a ++ b) = sum_crystals a + sum_crystals b.
Proof. induction a as [|[] a IH]; simpl; lia. Qed.

Lemma waifu_names_app (a b : list Event) :
  waifu_names (a ++ b) = (waifu_names a ++ waifu_names b)%list.
Proof. induction a as [|[] a IH]; simpl; congruence. Qed.

Lemma consistent_after_call (text : string) ob oc ow (s : Summary) :
  consistent s -> consistent (after_call text ob oc ow s).
Proof.
  intros (Hb & Hc & Hw). unfold consistent, after_call. simpl.
  rewrite !sum_berries_app, !sum_crystals_app, !waifu_names_app, map_app.
  rewrite <- Hb, <- Hc, <- Hw.
  destruct ob as [[? ?]|], oc as [[? ?]|], ow as [[[? ?] ?]|]; simpl;
    repeat split; try lia; rewrite ?app_nil_r; reflexivity.
Qed.

Lemma call_outcome_nonneg (v : source) (text : string) ob oc ow :
  call_outcome v text ob oc ow -> 0 <= amount ob /\ 0 <= amount oc.
Proof.
  intros (Hb & Hc & _). split.
  - destruct ob as [[t n]|]; simpl; [|lia].
    destruct (Hb _ _ eq_refl) as (d & _ & Hn). exact (int_value_nonneg _ _ Hn).
  - destruct oc as [[t n]|]; simpl; [|lia].
    destruct (Hc _ _ eq_refl) as (d & _ & Hn). exact (int_value_nonneg _ _ Hn).
Qed.

Lemma feed_app (v : source) (a b : list string) (w : World) :
  feed v (a ++ b) w = feed v b (feed v a w).
Proof. apply fold_left_app. Qed.

Lemma feed_consistent (v : source) (texts : list string) (w : World) :
  consistent (summary w) -> consistent (summary (feed v texts w)).
Proof.
  revert w. induction texts as [|text texts IH]; intros w Hw; [exact Hw|].
  simpl. apply IH.
  destruct (extract_and_record_summary v text w) as (ob & oc & ow & -> & _).
  now apply consistent_after_call.
Qed.

Lemma feed_grows (v : source) (texts : list string) (w : World) :
  berries_total (summary w) <= berries_total (summary (feed v texts w))
  /\ crystals_total (summary w) <= crystals_total (summary (feed v texts w))
  /\ events (summary w) `prefix_of` events (summary (feed v texts w)).
Proof.
  revert w. induction texts as [|text texts IH]; intros w.
  - simpl. repeat split; reflexivity || lia.
  - simpl. destruct (IH (snd (extract_and_record v text w))) as (Hb & Hc & He).
    destruct (extract_and_record_summary v text w) as (ob & oc & ow & Hs & Ho).
    apply call_outcome_nonneg in Ho as [? ?].
    rewrite Hs in Hb, Hc, He. simpl in Hb, Hc, He.
    repeat split; try lia.
    etransitivity; [|exact He]. now apply prefix_app_r.
Qed.

Lemma feed_arrival_order (v : source) (texts : list string) (w : World) :
  exists ks : list nat,
    length ks = length texts
    /\ map event_text (events (summary (feed v texts w)))
       = (map event_text (events (summary w))
          ++ concat (zip_with replicate ks texts))%list.
Proof.
  revert w. induction texts as [|text texts IH]; intros w.
  - exists []. simpl. now rewrite app_nil_r.
  - simpl. destruct (IH (snd (extract_and_record v text w))) as (ks & Hlen & Hks).
    destruct (extract_and_record_summary v text w) as (ob & oc & ow & Hs & _).
    rewrite Hs in Hks. simpl in Hks. rewrite map_app in Hks.
    assert (Hnew : map event_text (berries_event text ob ++ crystals_event text oc
                                   ++ waifu_event text ow)
                   = replicate (length (berries_event text ob
                        ++ crystals_event text oc ++ waifu_event text ow)) text)
      by (destruct ob as [[? ?]|], oc as [[? ?]|], ow as [[[? ?] ?]|];
          reflexivity).
    rewrite Hnew in Hks.
    exists (length (berries_event text ob ++ crystals_event text oc
                    ++ waifu_event text ow) :: ks).
    split; [simpl; congruence|].
    rewrite Hks. simpl. now rewrite <- app_assoc.
Qed.

(** ** The extractor: claims *)

(** C3.  After any sequence of [extract_and_record] calls on a summary that
    starts empty, [berries_total] is the sum of the amounts of the berries
    events in the log, [crystals_total] the sum of the crystals amounts, the
    waifu list has one entry per waifu event, the events stand in the order
    in which their texts arrived, and further calls never lower a total nor
    change the events already logged. *)
Theorem summary_totals_match_events (v : source) (texts : list string)
    (w0 : World) :
  let w := feed v texts (with_summary empty_summary w0) in
  berries_total (summary w) = sum_berries (events (summary w))
  /\ crystals_total (summary w) = sum_crystals (events (summary w))
  /\ length (waifus (summary w)) = length (waifu_names (events (summary w)))
  /\ in_arrival_order texts (events (summary w))
  /\ forall more : list string,
       let w' := feed v (texts ++ more) (with_summary empty_summary w0) in
       berries_total (summary w) <= berries_total (summary w')
       /\ crystals_total (summary w) <= crystals_total (summary w')
       /\ events (summary w) `prefix_of` events (summary w').
Proof.
  intros w.
  assert (Hc : consistent (summary w)).
  { apply feed_consistent. repeat split. }
  destruct Hc as (Hb & Hc & Hw).
  split; [exact Hb|]. split; [exact Hc|]. split; [|split].
  - rewrite <- Hw. now rewrite length_map.
  - destruct (feed_arrival_order v texts (with_summary empty_summary w0))
      as (ks & Hlen & Hks). exists ks. split; [assumption|exact Hks].
  - intros more w'. subst w w'. rewrite feed_app. apply feed_grows.
Qed.

(** C4, as the code has it.  On a text that none of the three patterns
    matches the call logs no event, changes nothing at all and does not
    raise.  On any text it raises nothing but the [ValueError] of the
    interpreter's limit of 4300 digits for conversions between [int] and
    [str], and that only when the text is longer than 4300 characters or a
    total has reached [10 ^ 4300]; a capture is never an invalid literal. *)
Theorem extract_and_record_raises_only_beyond_limit (v : source)
    (text : string) (w : World) :
  (search (RE_BERRIES v) text = None ->
   search (RE_CRYSTALS v) text = None ->
   search (RE_WAIFU v) text = None ->
   extract_and_record v text w = (Ok tt, w))
  /\ (forall e : exn,
        fst (extract_and_record v text w) = Raised e ->
        e = ValueError_max_str_digits
        /\ beyond_limit text (summary (snd (extract_and_record v text w)))).
Proof.
  split.
  - apply extract_and_record_no_match.
  - intros e He. destruct (extract_and_record v text w) as [r w'] eqn:E.
    simpl in He. subst r. exact (extract_and_record_raised _ _ _ _ _ E).
Qed.

(** C4 as stated fails: a text with an amount of 4301 digits makes the call
    raise [ValueError]. *)
Lemma extract_and_record_raises_on_long_amount :
  fst (extract_and_record File_B_m ("Berries: " ++ nines 4301) demo_world)
  = Raised ValueError_max_str_digits.
Proof. vm_compute. reflexivity. Qed.

Lemma extract_and_record_raises_only_beyond_limit_witness :
  extract_and_record File_B_m "hello" demo_world = (Ok tt, demo_world)
  /\ beyond_limit ("Berries: " ++ nines 4301)
       (summary (snd (extract_and_record File_B_m ("Berries: " ++ nines 4301)
                        demo_world))).
Proof.
  split.
  - apply (proj1 (extract_and_record_raises_only_beyond_limit File_B_m "hello"
                    demo_world)); vm_compute; reflexivity.
  - apply (proj2 (extract_and_record_raises_only_beyond_limit File_B_m
                    ("Berries: " ++ nines 4301) demo_world)
             ValueError_max_str_digits).
    vm_compute. reflexivity.
Defined.

(** The digits of an amount may be of any script, as [\d] and [int] have
    it. *)
Example amount_in_another_script :
  found (RE_BERRIES File_B_m) "Berries: ٣" = Some "٣"
  /\ fst (extract_and_record File_B_m "Berries: ٣" demo_world) = Ok tt
  /\ berries_total (summary (snd (extract_and_record File_B_m "Berries: ٣"
                                    demo_world)))
     = berries_total (summary demo_world) + 3.
Proof. vm_compute. repeat split; reflexivity. Qed.

Lemma found_gained_42 (v : source) :
  found (RE_BERRIES v) "You gained 42 Berries" = Some "42"
  /\ found (RE_CRYSTALS v) "You gained 42 Berries" = None
  /\ found (RE_WAIFU v) "You gained 42 Berries" = None.
Proof. destruct v; vm_compute; auto. Qed.

Lemma found_sakura (v : source) :
  found (RE_BERRIES v) "You obtained Sakura Waifu" = None
  /\ found (RE_CRYSTALS v) "You obtained Sakura Waifu" = None
  /\ found (RE_WAIFU v) "You obtained Sakura Waifu" = Some "Sakura Waifu".
Proof. destruct v; vm_compute; auto. Qed.

(** C5.  On ["You gained 42 Berries"] the call records exactly one event, a
    berries event of amount 42, and adds 42 to the berries total; on
    ["You obtained Sakura Waifu"] exactly one event, a waifu event of name
    ["Sakura Waifu"], and one entry of the waifu list; on a text that none
    of the patterns matches it records no event. *)
Theorem extract_and_record_scenarios (v : source) (w : World) :
  (exists t,
     summary (snd (extract_and_record v "You gained 42 Berries" w))
     = {| berries_total := berries_total (summary w) + 42;
          crystals_total := crystals_total (summary w);
          waifus := waifus (summary w);
          events := events (summary w)
                    ++ [Berries t 42 "You gained 42 Berries"] |})
  /\ (exists t t',
     summary (snd (extract_and_record v "You obtained Sakura Waifu" w))
     = {| berries_total := berries_total (summary w);
          crystals_total := crystals_total (summary w);
          waifus := waifus (summary w)
                    ++ [{| waifu_time := t; waifu := "Sakura Waifu";
                           waifu_text := "You obtained Sakura Waifu" |}];
          events := events (summary w)
                    ++ [Waifu t' "Sakura Waifu" "You obtained Sakura Waifu"] |})
  /\ (forall text : string,
        search (RE_BERRIES v) text = None ->
        search (RE_CRYSTALS v) text = None ->
        search (RE_WAIFU v) text = None ->
        events (summary (snd (extract_and_record v text w)))
        = events (summary w)).
Proof.
  split; [|split].
  - destruct (found_gained_42 v) as (Hb & Hc & Hw).
    exists (stamp w). rewrite extract_and_record_blocks.
    unfold when_found, bind. rewrite Hb, Hc, Hw, record_amount_run.
    change (int_value "42") with (Ok (A := Z) 42). cbv beta iota zeta.
    destruct (str_value _); reflexivity.
  - destruct (found_sakura v) as (Hb & Hc & Hw).
    exists (stamp w), (stamp (with_pos (S (pos w)) w)).
    rewrite extract_and_record_blocks.
    unfold when_found, bind. rewrite Hb, Hc, Hw. reflexivity.
  - intros text Hb Hc Hw.
    now rewrite (extract_and_record_no_match v text w Hb Hc Hw).
Qed.

Lemma extract_and_record_scenarios_witness :
  events (summary (snd (extract_and_record File_B_m
                          "2025-01-01 00:00:00 [simulated session]: /dice result: (simulated)"
                          demo_world)))
  = events (summary demo_world).
Proof.
  apply (proj2 (proj2 (extract_and_record_scenarios File_B_m demo_world)));
    vm_compute; reflexivity.
Defined.

(** C9.  On every text and from every world the two files'
    [extract_and_record] end alike, with or without an exception, and leave
    the same summary: the same totals, waifu list and events.  They leave
    the same world altogether, but for the wording of a log line. *)
Theorem extract_and_record_same_in_both_files (text : string) (w : World) :
  fst (B_m.extract_and_record text w) = fst (B_m2.extract_and_record text w)
  /\ summary (snd (B_m.extract_and_record text w))
     = summary (snd (B_m2.extract_and_record text w))
  /\ with_log [] (snd (B_m.extract_and_record text w))
     = with_log [] (snd (B_m2.extract_and_record text w)).
Proof.
  change (B_m.extract_and_record text) with (extract_and_record File_B_m text).
  change (B_m2.extract_and_record text) with (extract_and_record File_B_m2 text).
  rewrite !extract_and_record_blocks.
  change (RE_BERRIES File_B_m2) with (RE_BERRIES File_B_m).
  change (RE_CRYSTALS File_B_m2) with (RE_CRYSTALS File_B_m).
  change (RE_WAIFU File_B_m2) with (RE_WAIFU File_B_m).
  unfold bind.
  destruct (when_found (RE_BERRIES File_B_m) _ _ w) as [[[]|e1] w1];
    [|repeat split; reflexivity].
  destruct (when_found (RE_CRYSTALS File_B_m) _ _ w1) as [[[]|e2] w2];
    [|repeat split; reflexivity].
  unfold when_found. destruct (found (RE_WAIFU File_B_m) text) as [name|];
    [|repeat split; reflexivity].
  rewrite !record_waifu_run. repeat split; reflexivity.
Qed.

(** C10.  One call appends at most one berries event, at most one crystals
    event and at most one waifu event, in this order, each built from the
    first truthy group of the leftmost match of its pattern. *)
Theorem extract_and_record_at_most_one_each (v : source) (text : string)
    (w : World) :
  exists (ob oc : option (string * Z)) (ow : option (string * string * string)),
    events (summary (snd (extract_and_record v text w)))
    = (events (summary w) ++ berries_event text ob ++ crystals_event text oc
         ++ waifu_event text ow)%list
    /\ call_outcome v text ob oc ow.
Proof.
  destruct (extract_and_record_summary v text w) as (ob & oc & ow & Hs & Ho).
  exists ob, oc, ow. rewrite Hs. split; [reflexivity|assumption].
Qed.

(** A text with all three: the events come as berries, crystals, waifu,
    whatever their order in the text, and the second amount of berries is
    not used. *)
Example three_events_in_fixed_order :
  summary (snd (extract_and_record File_B_m
                  "You got a Rare Waifu and 5 Crystals. Berries: 7, Berries: 9"
                  (with_running true demo_world)))
  = {| berries_total := 7;
       crystals_total := 5;
       waifus := [{| waifu_time := "2025-01-01 00:00:00"; waifu := "Rare Waifu";
                     waifu_text := "You got a Rare Waifu and 5 Crystals. Berries: 7, Berries: 9" |}];
       events := [Berries "2025-01-01 00:00:00" 7
                    "You got a Rare Waifu and 5 Crystals. Berries: 7, Berries: 9";
                  Crystals "2025-01-01 00:00:00" 5
                    "You got a Rare Waifu and 5 Crystals. Berries: 7, Berries: 9";
                  Waifu "2025-01-01 00:00:00" "Rare Waifu"
                    "You got a Rare Waifu and 5 Crystals. Berries: 7, Berries: 9"] |}.
Proof. vm_compute. reflexivity. Qed.

(** ** The scheduler: one command *)

Lemma dispatched_app (a b : list LogEntry) :
  dispatched (a ++ b) = (dispatched a ++ dispatched b)%list.
Proof. induction a as [|[] a IH]; simpl; congruence. Qed.

Lemma noticed_app (a b : list LogEntry) :
  noticed (a ++ b) = (noticed a ++ noticed b)%list.
Proof. induction a as [|[] a IH]; simpl; congruence. Qed.

Lemma quiet_dispatched (l : list LogEntry) : Forall quiet l -> dispatched l = [].
Proof. induction 1 as [|[] l Hq _ IH]; simpl in *; auto; contradiction. Qed.

Lemma quiet_noticed (l : list LogEntry) : Forall quiet l -> noticed l = [].
Proof. induction 1 as [|[] l Hq _ IH]; simpl in *; auto; contradiction. Qed.

Lemma send_message_frame : keeps frame send_message.
Proof. pose proof await_frame. unfold send_message. keeps_frame. Qed.

Lemma RealClient_send_frame (rc : RealClient) (cmd : string) :
  keeps frame (RealClient_send rc cmd).
Proof.
  pose proof ts_frame. pose proof send_message_frame.
  unfold RealClient_send. keeps_frame.
Qed.

Lemma dispatch_frame (v : source) (m : Miner) (cmd : string) :
  keeps frame (dispatch v m cmd).
Proof.
  pose proof (simulate_send_frame v (session_id m) cmd).
  pose proof (RealClient_send_frame).
  unfold dispatch. keeps_frame.
Qed.

Lemma poll_run (v : source) (m : Miner) (now : Z) (cmd : string) (w : World) :
  poll v m now cmd w =
  match last_sent w !! cmd with
  | None => (Raised KeyError, w)
  | Some last =>
      if COMMAND_COOLDOWN <=? now - last then
        match dispatch v m cmd (with_log (log w ++ [Dispatching cmd]) w) with
        | (Ok _, w2) =>
            (Ok tt,
             with_last_sent (<[cmd := clock (env w2) (pos w2)]> (last_sent w2))
               (with_pos (S (pos w2)) w2))
        | (Raised e, w2) => (Raised e, w2)
        end
      else if COMMAND_COOLDOWN - (now - last) <? ALMOST_READY_THRESHOLD then
        (Ok tt,
         with_log (log w ++ [AlmostReady (stamp w) cmd
                               (COMMAND_COOLDOWN - (now - last))])
           (with_pos (S (pos w)) w))
      else (Ok tt, w)
  end.
Proof.
  unfold poll, bind, get. simpl.
  destruct (last_sent w !! cmd) as [last|]; [|reflexivity].
  destruct (_ <=? _).
  - unfold dispatch, bind, info, update. simpl.
    destruct (simulate m).
    + destruct (simulate_send v _ _ _) as [[a|e] w2]; reflexivity.
    + destruct (real_client m) as [rc|].
      * destruct (RealClient_send rc cmd _) as [[a|e] w2]; reflexivity.
      * reflexivity.
  - destruct (_ <? _); reflexivity.
Qed.

(** What a poll that returns has done. *)
Lemma poll_effect (v : source) (m : Miner) (now : Z) (cmd : string)
    (w w1 : World) :
  poll v m now cmd w = (Ok tt, w1) ->
  env w1 = env w /\ (pos w <= pos w1)%nat
  /\ is_Some (last_sent w !! cmd)
  /\ (exists l, log w1 = (log w ++ l)%list
        /\ dispatched l = (if is_due now (last_sent w) cmd then [cmd] else [])
        /\ noticed l = (if is_almost_ready now (last_sent w) cmd
                        then [(cmd, remaining now (last_sent w) cmd)] else []))
  /\ (if is_due now (last_sent w) cmd
      then exists n, (pos w <= n /\ S n = pos w1)%nat
             /\ last_sent w1 = <[cmd := clock (env w) n]> (last_sent w)
      else last_sent w1 = last_sent w /\ summary w1 = summary w
           /\ running w1 = running w).
Proof.
  rewrite poll_run. unfold is_due, is_almost_ready, is_due, remaining.
  destruct (last_sent w !! cmd) as [last|] eqn:El; [|discriminate].
  destruct (COMMAND_COOLDOWN <=? now - last) eqn:Ed.
  - pose proof (dispatch_frame v m cmd
                  (with_log (log w ++ [Dispatching cmd]) w)) as Hf.
    destruct (dispatch v m cmd _) as [[[]|e] w2]; [|discriminate].
    intros [= <-]. simpl in Hf. destruct Hf as [He Hp Hl Hw Ht (l & Hlog & Hq)].
    simpl in *. split; [congruence|]. split; [lia|]. split; [eauto|]. split.
    + exists (Dispatching cmd :: l). rewrite Hlog, <- app_assoc. simpl.
      rewrite (quiet_dispatched _ Hq), (quiet_noticed _ Hq). auto.
    + exists (pos w2). split; [lia|]. congruence.
  - simpl. destruct (_ <? _) eqn:Ea; intros [= <-]; simpl.
    + split; [reflexivity|]. split; [lia|]. split; [eauto|]. split; [|auto].
      exists [AlmostReady (stamp w) cmd (COMMAND_COOLDOWN - (now - last))]. auto.
    + split; [reflexivity|]. split; [lia|]. split; [eauto|]. split; [|auto].
      exists []. rewrite app_nil_r. auto.
Qed.

(** What a poll writes to the log, however it ends: the mark of a dispatch
    if and only if the command is due, the notice if and only if it is
    almost ready. *)
Lemma poll_log (v : source) (m : Miner) (now : Z) (cmd : string) (w : World) :
  exists l,
    log (snd (poll v m now cmd w)) = (log w ++ l)%list
    /\ dispatched l = (if is_due now (last_sent w) cmd then [cmd] else [])
    /\ noticed l = (if is_almost_ready now (last_sent w) cmd
                    then [(cmd, remaining now (last_sent w) cmd)] else []).
Proof.
  rewrite poll_run. unfold is_almost_ready, is_due, remaining.
  destruct (last_sent w !! cmd) as [last|].
  - destruct (COMMAND_COOLDOWN <=? now - last).
    + pose proof (dispatch_frame v m cmd
                    (with_log (log w ++ [Dispatching cmd]) w)) as Hf.
      destruct Hf as [_ _ _ _ _ (l & Hlog & Hq)]. simpl in Hlog.
      exists (Dispatching cmd :: l).
      split.
      * destruct (dispatch v m cmd _) as [[[]|e] w2]; simpl in *;
          rewrite Hlog, <- app_assoc; reflexivity.
      * simpl. rewrite (quiet_dispatched _ Hq), (quiet_noticed _ Hq). auto.
    + simpl. destruct (_ <? _); simpl.
      * eexists [_]. auto.
      * exists []. rewrite app_nil_r. auto.
  - exists []. simpl. rewrite app_nil_r. auto.
Qed.

(** ** What a dispatch hands over *)

















(** ** The scheduler: one tick *)

Lemma agree_on_tests (now : Z) (cmds : list string) (a b : gmap string Z) :
  agree_on cmds a b ->
  List.filter (is_due now a) cmds = List.filter (is_due now b) cmds
  /\ map (fun c => (c, remaining now a c)) (List.filter (is_almost_ready now a) cmds)
     = map (fun c => (c, remaining now b c)) (List.filter (is_almost_ready now b) cmds).
Proof.
  intros H.
  assert (Hd : forall c, In c cmds -> is_due now a c = is_due now b c)
    by (intros c Hc; unfold is_due; now rewrite (H c Hc)).
  assert (Hr : forall c, In c cmds -> remaining now a c = remaining now b c)
    by (intros c Hc; unfold remaining; now rewrite (H c Hc)).
  assert (Ha : forall c, In c cmds ->
                 is_almost_ready now a c = is_almost_ready now b c)
    by (intros c Hc; unfold is_almost_ready;
        now rewrite (Hd c Hc), (Hr c Hc), (H c Hc)).
  split.
  - now apply List.filter_ext_in.
  - rewrite (List.filter_ext_in _ _ _ Ha). apply List.map_ext_in.
    intros c Hc%List.filter_In. now rewrite (Hr c (proj1 Hc)).
Qed.

Lemma poll_agree (v : source) (m : Miner) (now : Z) (cmd : string)
    (w w1 : World) (rest : list string) :
  poll v m now cmd w = (Ok tt, w1) -> ~ In cmd rest ->
  agree_on rest (last_sent w1) (last_sent w).
Proof.
  intros Hp Hn c Hc. apply poll_effect in Hp as (_ & _ & _ & _ & Hs).
  destruct (is_due now (last_sent w) cmd).
  - destruct Hs as (n & _ & ->). apply lookup_insert_ne. congruence.
  - destruct Hs as (-> & _). reflexivity.
Qed.

(** What a tick has done when it has run through all its commands with the
    session still on: the commands that were due at its start have been
    dispatched, in order, and stamped with a clock reading of the tick; the
    almost ready ones have been announced; the cooldown map is otherwise
    as it was. *)
Lemma for_commands_effect (v : source) (m : Miner) (now : Z) :
  forall (cmds : list string) (w w' : World),
    NoDup cmds ->
    for_commands v m now cmds w = (Ok tt, w') -> running w' = true ->
    env w' = env w /\ (pos w <= pos w')%nat
    /\ (exists l, log w' = (log w ++ l)%list
          /\ dispatched l = List.filter (is_due now (last_sent w)) cmds
          /\ noticed l = map (fun c => (c, remaining now (last_sent w) c))
                           (List.filter (is_almost_ready now (last_sent w)) cmds))
    /\ (forall c, In c cmds -> is_Some (last_sent w !! c))
    /\ (forall c, In c cmds -> is_due now (last_sent w) c = true ->
          exists n, (pos w <= n < pos w')%nat
                    /\ last_sent w' !! c = Some (clock (env w) n))
    /\ (forall c, (In c cmds -> is_due now (last_sent w) c = false) ->
          last_sent w' !! c = last_sent w !! c)
    /\ ((forall c, In c cmds -> is_due now (last_sent w) c = false) ->
          last_sent w' = last_sent w /\ summary w' = summary w).
Proof.
  induction cmds as [|cmd rest IH]; intros w w' Hnd Hrun Hon.
  - injection Hrun as <-. split; [reflexivity|]. split; [lia|].
    split; [exists []; now rewrite app_nil_r|].
    split; [intros c []|]. split; [intros c []|]. auto.
  - apply NoDup_cons in Hnd as [Hfresh Hnd].
    rewrite list_elem_of_In in Hfresh.
    simpl in Hrun. unfold bind, get in Hrun. simpl in Hrun.
    destruct (running w) eqn:Er;
      [|injection Hrun as <-; congruence].
    destruct (poll v m now cmd w) as [[[]|e] w1] eqn:Ep; [|discriminate].
    pose proof (poll_agree _ _ _ _ _ _ _ Ep Hfresh) as Hag.
    destruct (agree_on_tests now rest _ _ Hag) as [Hfd Hfa].
    apply poll_effect in Ep as (He1 & Hp1 & Hsome & (l1 & Hl1 & Hd1 & Hn1) & Hs1).
    destruct (IH w1 w' Hnd Hrun Hon)
      as (He & Hp & (l & Hl & Hd & Hn) & Hdom & Hdue & Hkeep & Hidle).
    split; [congruence|]. split; [lia|]. split; [|split; [|split; [|split]]].
    + exists (l1 ++ l)%list. rewrite Hl, Hl1, <- app_assoc.
      split; [reflexivity|]. rewrite dispatched_app, noticed_app.
      rewrite Hd, Hn, Hd1, Hn1, Hfd, Hfa. simpl.
      destruct (is_due now (last_sent w) cmd),
        (is_almost_ready now (last_sent w) cmd); auto.
    + intros c [<-|Hc]; [assumption|]. rewrite <- (Hag c Hc). auto.
    + intros c [<-|Hc] Hc_due.
      * rewrite Hc_due in Hs1. destruct Hs1 as (n & Hn_range & Hs1).
        exists n. split; [lia|]. rewrite (Hkeep cmd) by (intros; contradiction).
        rewrite Hs1. apply lookup_insert_eq.
      * assert (Hd' : is_due now (last_sent w1) c = true).
        { unfold is_due in *. now rewrite (Hag c Hc). }
        destruct (Hdue c Hc Hd') as (n & Hn_range & Hc').
        exists n. split; [lia|]. now rewrite <- He1.
    + intros c Hc. destruct (decide (c = cmd)) as [->|Hne].
      * rewrite (Hkeep cmd) by (intros; contradiction).
        rewrite Hc in Hs1 by (now left). now destruct Hs1 as (-> & _).
      * rewrite Hkeep.
        -- destruct (is_due now (last_sent w) cmd).
           ++ destruct Hs1 as (n & _ & ->). apply lookup_insert_ne. congruence.
           ++ now destruct Hs1 as (-> & _).
        -- intros Hin. unfold is_due. rewrite (Hag c Hin).
           apply Hc. now right.
    + intros Hnone. rewrite (Hnone cmd) in Hs1 by (now left).
      destruct Hs1 as (Hls & Hsum & _).
      destruct Hidle as [Hls' Hsum'].
      * intros c Hc. unfold is_due. rewrite (Hag c Hc). apply Hnone. now right.
      * split; congruence.
Qed.

(** ** When a dispatch returns *)

Lemma parse_digits_bounds (l : list N) (acc n : Z) :
  parse_digits l acc = Some n -> 0 <= acc ->
  n < (acc + 1) * 10 ^ Z.of_nat (length l).
Proof.
  revert acc. induction l as [|p l IH]; intros acc.
  - simpl. intros [= <-] _. lia.
  - cbn [parse_digits length].
    destruct (decimal_value p) as [d|] eqn:Hd; [|discriminate].
    apply decimal_value_range in Hd. intros H Hacc.
    apply IH in H; [|lia].
    rewrite Nat2Z.inj_succ, Z.pow_succ_r by lia.
    assert (0 < 10 ^ Z.of_nat (length l)) by (apply Z.pow_pos_nonneg; lia).
    nia.
Qed.

Lemma points_upto_characters (n : nat) :
  forall s l, points_upto n s = Some l -> length l = characters s.
Proof.
  induction n as [|n IH]; intros s l.
  - destruct s; [|discriminate]. now intros [= <-].
  - destruct s as [|a s]; [now intros [= <-]|]. cbn [points_upto].
    destruct (decode (String a s)) as [[p s']|] eqn:E; [|discriminate].
    destruct (points_upto n s') as [l'|] eqn:El; [|discriminate].
    intros [= <-]. rewrite (decode_characters _ _ _ E). simpl.
    now rewrite (IH _ _ El).
Qed.

Lemma int_value_bound (d : string) (n : Z) :
  int_value d = Ok n -> 0 <= n < 10 ^ Z.of_nat (characters d).
Proof.
  intros H. split; [exact (int_value_nonneg _ _ H)|].
  apply int_value_inv in H as (l & Hl & _ & E & _).
  unfold points in Hl. apply points_upto_characters in Hl. rewrite <- Hl.
  apply parse_digits_bounds in E; lia.
Qed.

Lemma amount_below (v : source) (p : pattern) (text : string) (L : nat) (n : Z) :
  digit_groups (syntax p) -> (characters text <= L)%nat ->
  (exists d, found p text = Some d /\ int_value d = Ok n) ->
  0 <= n < 10 ^ Z.of_nat L.
Proof.
  intros Hp HL (d & Hd & Hn). apply int_value_bound in Hn.
  apply (found_amount _ _ _ Hp) in Hd as (_ & _ & Hlen).
  split; [lia|]. eapply Z.lt_le_trans; [apply Hn|].
  apply Z.pow_le_mono_r; lia.
Qed.

Lemma extract_and_record_completes (v : source) (text : string) (w : World) :
  (String.length text <= 200)%nat -> roomy (summary w) ->
  fst (extract_and_record v text w) = Ok tt.
Proof.
  intros Hlen [Hb Hc]. pose proof (characters_length text) as Hchars.
  assert (Hlen' : (characters text <= 200)%nat) by lia.
  destruct (extract_and_record v text w) as [[[]|e] w'] eqn:E; [reflexivity|].
  exfalso. pose proof (extract_and_record_summary v text w) as Hs.
  rewrite E in Hs. destruct Hs as (ob & oc & ow & Hs & Hob & Hoc & _).
  simpl in Hs. apply extract_and_record_raised in E as [_ [Hl|[Hl|Hl]]].
  - unfold int_max_str_digits in Hl. lia.
  - rewrite Hs in Hl. simpl in Hl.
    assert (0 <= amount ob < 10 ^ 200).
    { destruct ob as [[t n]|]; simpl; [|lia].
      exact (amount_below v _ _ 200 _ (RE_BERRIES_digit_groups v) Hlen'
               (Hob _ _ eq_refl)). }
    lia.
  - rewrite Hs in Hl. simpl in Hl.
    assert (0 <= amount oc < 10 ^ 200).
    { destruct oc as [[t n]|]; simpl; [|lia].
      exact (amount_below v _ _ 200 _ (RE_CRYSTALS_digit_groups v) Hlen'
               (Hoc _ _ eq_refl)). }
    lia.
Qed.

Lemma extract_and_record_same_running (v : source) (text : string) :
  keeps same_running (extract_and_record v text).
Proof.
  assert (Hts : keeps same_running ts)
    by (intros ?; reflexivity).
  assert (Hi : forall e, keeps same_running (info e))
    by (intros ? ?; reflexivity).
  assert (Hs : forall f, keeps same_running (on_summary f))
    by (intros ? ?; reflexivity).
  destruct v; unfold extract_and_record, B_m.extract_and_record,
    B_m2.extract_and_record;
    repeat first [ keeps_step same_running_refl same_running_trans
                 | keeps_known ].
Qed.

Lemma await_idle (w : World) :
  operator_idle (env w) -> await w = (Ok tt, with_pos (S (pos w)) w).
Proof. intros H. unfold await, bind, ask. now rewrite H. Qed.

Lemma decimal_of_draw (r : Z) :
  (String.length (decimal (5 + r mod (800 - 5 + 1))) <= 3)%nat.
Proof.
  assert (H : forallb (fun i => (String.length (decimal (5 + Z.of_nat i)) <=? 3)%nat)
                (seq 0 796) = true) by (vm_compute; reflexivity).
  rewrite forallb_forall in H.
  assert (Hr : 0 <= r mod (800 - 5 + 1) < 796) by (apply Z.mod_pos_bound; lia).
  specialize (H (Z.to_nat (r mod (800 - 5 + 1)))).
  rewrite Z2Nat.id in H by lia. apply Nat.leb_le, H, in_seq. lia.
Qed.

Lemma str_value_of_draw (r : Z) :
  str_value (5 + r mod (800 - 5 + 1)) = Ok (decimal (5 + r mod (800 - 5 + 1))).
Proof.
  unfold str_value.
  assert (Hr : 0 <= r mod (800 - 5 + 1) < 796) by (apply Z.mod_pos_bound; lia).
  assert (Hl : 801 <= str_limit) by (vm_compute; discriminate).
  destruct (_ <=? _) eqn:E; [|reflexivity]. apply Z.leb_le in E. lia.
Qed.

Arguments B_m.extract_and_record : simpl never.
Arguments B_m2.extract_and_record : simpl never.
Arguments str_value : simpl never.
Arguments String.append : simpl never.

Lemma simulated_text_short (e : Env) (t r : Z) (a b : string) :
  short_stamps e ->
  (String.length a + String.length b <= 150)%nat ->
  (String.length (strftime e t ++ a ++ decimal (5 + r mod (800 - 5 + 1)) ++ b)
   <= 200)%nat.
Proof.
  intros Hs Hab. rewrite !length_append.
  pose proof (Hs t). pose proof (decimal_of_draw r). lia.
Qed.

Lemma simulate_send_completes (v : source) (sid cmd : string) (w : World) :
  operator_idle (env w) -> short_stamps (env w) ->
  (cmd = "/explore" -> roomy (summary w)) ->
  exists text w',
    simulate_send v sid cmd w = (Ok text, w')
    /\ running w' = running w
    /\ (cmd <> "/explore" -> summary w' = summary w).
Proof.
  intros Hidle Hshort Hroomy.
  destruct v; unfold simulate_send, B_m.simulate_send, B_m2.simulate_send;
    unfold bind at 1; rewrite (await_idle w Hidle);
    (destruct (String.eqb_spec cmd "/explore") as [->|Hne];
     [ specialize (Hroomy eq_refl)
     | eexists _, _; split; [reflexivity|]; split; [reflexivity|];
       intros _; reflexivity ]).
  - unfold bind, info, update, randint, ask, ts, datetime_now, get, str, lift, ret.
    cbn. rewrite str_value_of_draw.
    match goal with
    | |- context [B_m.extract_and_record ?text ?w5] =>
        pose proof (extract_and_record_completes File_B_m text w5) as Hc;
        pose proof (extract_and_record_same_running File_B_m text w5) as Hr;
        change (extract_and_record File_B_m text) with (B_m.extract_and_record text) in Hc, Hr;
        destruct (B_m.extract_and_record text w5) as [[[]|x] w6]
    end.
    + eexists _, _. split; [reflexivity|]. split; [exact Hr|].
      intros H; now contradiction H.
    + discriminate Hc; [|exact Hroomy].
      apply simulated_text_short; [exact Hshort|vm_compute; lia].
  - unfold bind, info, update, randint, ask, ts, datetime_now, get, str, lift, ret.
    cbn. rewrite str_value_of_draw.
    match goal with
    | |- context [B_m2.extract_and_record ?text ?w5] =>
        pose proof (extract_and_record_completes File_B_m2 text w5) as Hc;
        pose proof (extract_and_record_same_running File_B_m2 text w5) as Hr;
        change (extract_and_record File_B_m2 text) with (B_m2.extract_and_record text) in Hc, Hr;
        destruct (B_m2.extract_and_record text w5) as [[[]|x] w6]
    end.
    + eexists _, _. split; [reflexivity|]. split; [exact Hr|].
      intros H; now contradiction H.
    + discriminate Hc; [|exact Hroomy].
      apply simulated_text_short; [exact Hshort|vm_compute; lia].
Qed.

Lemma RealClient_send_completes (rc : RealClient) (cmd : string) (w : World) :
  operator_idle (env w) -> transport_fails_by_RPCError (env w) ->
  exists w',
    RealClient_send rc cmd w = (Ok tt, w')
    /\ running w' = running w /\ summary w' = summary w.
Proof.
  intros Hidle Hnet. unfold RealClient_send, try_except.
  destruct (String.eqb (bot rc) EmptyString).
  - eexists. split; [reflexivity|]. split; reflexivity.
  - unfold send_message. unfold bind at 1. unfold bind at 1.
    rewrite (await_idle w Hidle). unfold bind at 1. unfold ask at 1.
    cbn [env pos with_pos].
    pose proof (Hnet (S (pos w))) as Hn.
    destruct (network (env w) (S (pos w))); [| |contradiction].
    + eexists. split; [reflexivity|]. split; reflexivity.
    + eexists. split; [reflexivity|]. split; reflexivity.
Qed.

Lemma dispatch_completes (v : source) (m : Miner) (cmd : string) (w : World) :
  operator_idle (env w) -> transport_fails_by_RPCError (env w) ->
  (simulate m = true -> short_stamps (env w)) ->
  (simulate m = true -> cmd = "/explore" -> roomy (summary w)) ->
  exists w',
    dispatch v m cmd w = (Ok tt, w')
    /\ running w' = running w
    /\ (simulate m = false \/ cmd <> "/explore" -> summary w' = summary w).
Proof.
  intros Hidle Hnet Hshort Hroomy. unfold dispatch.
  destruct (simulate m) eqn:Es.
  - destruct (simulate_send_completes v (session_id m) cmd w Hidle
                (Hshort eq_refl) (Hroomy eq_refl))
      as (text & w' & Hrun & Hr & Hs).
    exists w'. unfold bind. rewrite Hrun. split; [reflexivity|].
    split; [exact Hr|]. intros [?|?]; [discriminate|auto].
  - destruct (real_client m) as [rc|].
    + destruct (RealClient_send_completes rc cmd w Hidle Hnet)
        as (w' & Hrun & Hr & Hs).
      exists w'. auto.
    + exists w. auto.
Qed.

(** A poll returns, with the session still on, in a world that leaves the
    session alone. *)
Lemma poll_completes (v : source) (m : Miner) (now : Z) (cmd : string)
    (w : World) :
  operator_idle (env w) -> transport_fails_by_RPCError (env w) ->
  (simulate m = true -> short_stamps (env w)) ->
  is_Some (last_sent w !! cmd) ->
  (simulate m = true -> cmd = "/explore" -> roomy (summary w)) ->
  exists w',
    poll v m now cmd w = (Ok tt, w')
    /\ running w' = running w
    /\ (simulate m = false \/ cmd <> "/explore" -> summary w' = summary w).
Proof.
  intros Hidle Hnet Hshort [last Hlast] Hroomy. rewrite poll_run, Hlast.
  destruct (_ <=? _).
  - destruct (dispatch_completes v m cmd (with_log (log w ++ [Dispatching cmd]) w)
                Hidle Hnet Hshort Hroomy) as (w2 & -> & Hr & Hs).
    eexists. split; [reflexivity|]. simpl. auto.
  - destruct (_ <? _); eexists; (split; [reflexivity|]); simpl; auto.
Qed.

Lemma poll_keeps_entries (v : source) (m : Miner) (now : Z) (cmd c : string)
    (w w1 : World) :
  poll v m now cmd w = (Ok tt, w1) ->
  is_Some (last_sent w !! c) -> is_Some (last_sent w1 !! c).
Proof.
  intros Hp Hc. apply poll_effect in Hp as (_ & _ & _ & _ & Hs).
  destruct (is_due now (last_sent w) cmd).
  - destruct Hs as (n & _ & ->). rewrite lookup_insert_is_Some.
    destruct (decide (cmd = c)); auto.
  - destruct Hs as (-> & _). exact Hc.
Qed.

Lemma for_commands_completes (v : source) (m : Miner) (now : Z) :
  forall (cmds : list string) (w : World),
    operator_idle (env w) -> transport_fails_by_RPCError (env w) ->
    (simulate m = true -> short_stamps (env w)) ->
    (simulate m = true -> NoDup cmds) -> running w = true ->
    (forall c, In c cmds -> is_Some (last_sent w !! c)) ->
    (simulate m = true -> In "/explore" cmds -> roomy (summary w)) ->
    exists w', for_commands v m now cmds w = (Ok tt, w') /\ running w' = true.
Proof.
  induction cmds as [|cmd rest IH];
    intros w Hidle Hnet Hshort Hnd Hon Hdom Hroomy.
  - exists w. auto.
  - destruct (poll_completes v m now cmd w Hidle Hnet Hshort
                (Hdom cmd (or_introl eq_refl)))
      as (w1 & Hp & Hr & Hs).
    { intros Hsim ->. apply Hroomy; [assumption|now left]. }
    pose proof Hp as He. apply poll_effect in He as (He & _).
    destruct (IH w1) as (w' & Hrun & Hon'); try assumption;
      try (rewrite He; assumption); try congruence.
    + intros Hsim. specialize (Hnd Hsim). now apply NoDup_cons in Hnd as [_ ?].
    + intros c Hc. apply (poll_keeps_entries _ _ _ _ _ _ _ Hp).
      apply Hdom. now right.
    + intros Hsim Hin. specialize (Hnd Hsim).
      apply NoDup_cons in Hnd as [Hfresh _]. rewrite list_elem_of_In in Hfresh.
      rewrite Hs.
      * apply Hroomy; [assumption|now right].
      * right. intros ->. contradiction.
    + exists w'. split; [|assumption].
      simpl. unfold bind, get. simpl. rewrite Hon, Hp. exact Hrun.
Qed.


Lemma never_sent_lookup (cmds : list string) (c : string) :
  In c cmds -> never_sent cmds !! c = Some datetime_min.
Proof.
  induction cmds as [|cmd rest IH]; simpl; [contradiction|].
  intros [->|Hc].
  - apply lookup_insert_eq.
  - destruct (decide (cmd = c)) as [->|Hne].
    + apply lookup_insert_eq.
    + rewrite lookup_insert_ne by assumption. auto.
Qed.



(** ** The scheduler: claims *)



Lemma returned {A} (x : result A * World) (a : A) :
  fst x = Ok a -> x = (Ok a, snd x).
Proof. destruct x as [r w]. simpl. now intros ->. Qed.



Lemma is_almost_ready_iff (now last : Z) (sent : gmap string Z) (c : string) :
  sent !! c = Some last ->
  is_almost_ready now sent c = true
  <-> 0 < COMMAND_COOLDOWN - (now - last) < ALMOST_READY_THRESHOLD.
Proof.
  intros H. unfold is_almost_ready, is_due, remaining. rewrite H.
  rewrite andb_true_iff, negb_true_iff, Z.leb_gt, Z.ltb_lt. lia.
Qed.

(** C2, as the code has it.  For a command that a tick at time [now]
    polls, the almost ready notice is given if and only if
    [0 < remaining < 2] seconds, where
    [remaining = 125 - (now - last_sent[c])]; at [remaining = 0] the command
    is dispatched instead.  The poll that gives the notice returns and
    leaves [last_sent], the summary and the running flag as they were.  So
    in a tick that runs through its commands (none repeated) with the
    session still on, the notices given are those of the commands that were
    almost ready at its start. *)
Theorem almost_ready_notice (v : source) (m : Miner) (now : Z) :
  (forall (c : string) (w : World) (last : Z),
     last_sent w !! c = Some last ->
     exists l,
       log (snd (poll v m now c w)) = (log w ++ l)%list
       /\ ((exists r, In (c, r) (noticed l))
           <-> 0 < COMMAND_COOLDOWN - (now - last) < ALMOST_READY_THRESHOLD)
       /\ (0 < COMMAND_COOLDOWN - (now - last) < ALMOST_READY_THRESHOLD ->
           noticed l = [(c, COMMAND_COOLDOWN - (now - last))]
           /\ fst (poll v m now c w) = Ok tt
           /\ last_sent (snd (poll v m now c w)) = last_sent w
           /\ summary (snd (poll v m now c w)) = summary w
           /\ running (snd (poll v m now c w)) = running w))
  /\ (forall w w' : World,
        NoDup (commands m) ->
        tick_at v m now w = (Ok tt, w') -> running w' = true ->
        exists l,
          log w' = (log w ++ l)%list
          /\ forall c, In c (commands m) ->
               exists last,
                 last_sent w !! c = Some last
                 /\ ((exists r, In (c, r) (noticed l))
                     <-> 0 < COMMAND_COOLDOWN - (now - last)
                         < ALMOST_READY_THRESHOLD)
                 /\ (0 < COMMAND_COOLDOWN - (now - last) < ALMOST_READY_THRESHOLD ->
                     In (c, COMMAND_COOLDOWN - (now - last)) (noticed l)
                     /\ last_sent w' !! c = Some last)).
Proof.
  split.
  - intros c w last Hlast.
    pose proof (is_almost_ready_iff now last _ c Hlast) as Hiff.
    assert (Hrem : remaining now (last_sent w) c = COMMAND_COOLDOWN - (now - last))
      by (unfold remaining; now rewrite Hlast).
    destruct (poll_log v m now c w) as (l & Hl & _ & Hn).
    exists l. split; [exact Hl|]. split.
    + rewrite Hn. destruct (is_almost_ready now (last_sent w) c); simpl.
      * split; [intros _; now apply Hiff|]. intros _. eexists. now left.
      * split; [intros (r & [])|]. intros H. apply Hiff in H. discriminate.
    + intros Hrange. pose proof (proj2 Hiff Hrange) as Ha.
      rewrite Hn, Ha, Hrem. split; [reflexivity|].
      rewrite poll_run, Hlast.
      destruct (Z.leb_spec COMMAND_COOLDOWN (now - last)); [lia|].
      destruct (Z.ltb_spec (COMMAND_COOLDOWN - (now - last))
                  ALMOST_READY_THRESHOLD); [|lia].
      simpl. auto.
  - intros w w' Hnd Hrun Hon.
    destruct (for_commands_effect v m now _ _ _ Hnd Hrun Hon)
      as (_ & _ & (l & Hl & _ & Hn) & Hdom & _ & Hkeep & _).
    exists l. split; [exact Hl|]. intros c Hc.
    destruct (Hdom c Hc) as [last Hlast]. exists last. split; [exact Hlast|].
    pose proof (is_almost_ready_iff now last _ c Hlast) as Hiff.
    assert (Hin : forall r, In (c, r) (noticed l)
                    <-> is_almost_ready now (last_sent w) c = true
                        /\ r = remaining now (last_sent w) c).
    { intros r. rewrite Hn, in_map_iff. split.
      - intros (c' & [= -> <-] & Hf%List.filter_In). tauto.
      - intros [Ha ->]. exists c. split; [reflexivity|].
        apply List.filter_In. auto. }
    assert (Hrem : remaining now (last_sent w) c = COMMAND_COOLDOWN - (now - last))
      by (unfold remaining; now rewrite Hlast).
    split; [|split].
    + split.
      * intros (r & Hr). apply Hiff. now apply Hin in Hr.
      * intros H. eexists. apply Hin. split; [now apply Hiff|reflexivity].
    + apply Hin. split; [now apply Hiff|now rewrite Hrem].
    + rewrite Hkeep; [assumption|]. intros _.
      unfold is_due. rewrite Hlast. apply Z.leb_gt. lia.
Qed.

(** C2 as stated fails: with exactly 125 seconds elapsed the remaining
    time is 0, and the tick gives no notice; it dispatches. *)
Lemma no_notice_when_nothing_remains :
  let now := new_year + seconds 125 in
  let w' := snd (tick_at File_B_m dice_miner now dice_world) in
  0 <= remaining now (last_sent dice_world) "/dice" < ALMOST_READY_THRESHOLD
  /\ noticed (log w') = []
  /\ dispatched (log w') = ["/dice"].
Proof. vm_compute. repeat split; discriminate. Qed.

Lemma almost_ready_notice_witness :
  (exists l,
     log (snd (tick_at File_B_m dice_miner (new_year + seconds 124) dice_world))
     = (log dice_world ++ l)%list
     /\ In ("/dice", seconds 1) (noticed l))
  /\ summary (snd (poll File_B_m dice_miner (new_year + seconds 124) "/dice"
                     dice_world))
     = summary dice_world.
Proof.
  destruct (almost_ready_notice File_B_m dice_miner (new_year + seconds 124))
    as [Hpoll Htick].
  split.
  - destruct (Htick dice_world
                (snd (tick_at File_B_m dice_miner (new_year + seconds 124)
                        dice_world)))
      as (l & Hl & Hc).
    + apply (bool_decide_unpack _). vm_compute. exact I.
    + apply returned. vm_compute. reflexivity.
    + vm_compute. reflexivity.
    + exists l. split; [exact Hl|].
      destruct (Hc "/dice") as (last & Hlast & _ & Hin); [now left|].
      injection Hlast as <-. apply Hin. vm_compute. split; reflexivity.
  - destruct (Hpoll "/dice" dice_world new_year) as (l & _ & _ & Hframe).
    + reflexivity.
    + apply Hframe. vm_compute. split; reflexivity.
Defined.

(** ** The loop *)

Lemma steady_refl (w : World) : steady w w.
Proof. split; auto. Qed.

Lemma steady_trans (a b c : World) : steady a b -> steady b c -> steady a c.
Proof. intros [e1 d1] [e2 d2]. split; [congruence|auto]. Qed.

Lemma frame_steady (w w' : World) : frame w w' -> steady w w'.
Proof. intros [He _ Hl _ _ _]. split; [assumption|]. now rewrite Hl. Qed.

Lemma poll_steady (v : source) (m : Miner) (now : Z) (cmd : string) :
  keeps steady (poll v m now cmd).
Proof.
  intros w. rewrite poll_run.
  destruct (last_sent w !! cmd) as [last|]; [|apply steady_refl].
  destruct (_ <=? _).
  - pose proof (dispatch_frame v m cmd (with_log (log w ++ [Dispatching cmd]) w))
      as Hf. apply frame_steady in Hf.
    destruct (dispatch v m cmd _) as [[[]|e] w2]; simpl in *; [|exact Hf].
    destruct Hf as [He Hd]. split; [exact He|].
    intros c Hc. simpl. rewrite lookup_insert_is_Some.
    destruct (decide (cmd = c)); auto.
  - destruct (_ <? _); simpl; split; auto.
Qed.

Lemma for_commands_steady (v : source) (m : Miner) (now : Z)
    (cmds : list string) :
  keeps steady (for_commands v m now cmds).
Proof.
  pose proof (poll_steady v m now).
  induction cmds as [|cmd rest IH]; simpl;
    repeat first [ keeps_step steady_refl steady_trans | keeps_known ].
Qed.

(** C6, as the code has it.  In live mode, when the send of a due command
    fails with an [RPCError], the poll returns: the failure is logged,
    [last_sent] of the command is set to the clock reading taken after the
    failed send, the running flag and the summary are as before, whatever
    the other sends of the session do.  And such failures never end the
    loop: when the transport fails with [RPCError] if at all and the
    operator leaves the session alone, the loop goes round for as long as
    one lets it. *)
Theorem rpc_failure_consumes_cooldown (v : source) (m : Miner) (rc : RealClient)
    (w : World) :
  simulate m = false -> real_client m = Some rc ->
  (forall (now : Z) (cmd : string) (last : Z),
     bot rc <> EmptyString ->
     last_sent w !! cmd = Some last -> COMMAND_COOLDOWN <= now - last ->
     operator (env w) (pos w) = NoRequest ->
     network (env w) (S (pos w)) = FailsRPCError ->
     exists w',
       poll v m now cmd w = (Ok tt, w')
       /\ last_sent w' = <[cmd := clock (env w) (3 + pos w)]> (last_sent w)
       /\ log w' = (log w ++ [Dispatching cmd;
                              ErrorSending (strftime (env w)
                                              (clock (env w) (2 + pos w))) cmd])%list
       /\ running w' = running w
       /\ summary w' = summary w)
  /\ (operator_idle (env w) -> transport_fails_by_RPCError (env w) ->
      running w = true ->
      (forall c, In c (commands m) -> is_Some (last_sent w !! c)) ->
      forall fuel : nat,
        exists w', while_running v m fuel w = (Ok false, w')
                   /\ running w' = true).
Proof.
  intros Hsim Hrc. split.
  - intros now cmd last Hbot Hlast Hdue Hop Hnet.
    rewrite poll_run, Hlast.
    destruct (Z.leb_spec COMMAND_COOLDOWN (now - last)); [|lia].
    unfold dispatch. rewrite Hsim, Hrc.
    unfold RealClient_send, try_except.
    destruct (String.eqb_spec (bot rc) EmptyString); [contradiction|].
    unfold send_message, await, bind, ask. simpl. rewrite Hop. simpl.
    rewrite Hnet. simpl.
    eexists. split; [reflexivity|]. simpl. rewrite <- app_assoc. auto.
  - intros Hidle Hnet Hon Hdom fuel. revert w Hidle Hnet Hon Hdom.
    induction fuel as [|fuel IH]; intros w Hidle Hnet Hon Hdom.
    + exists w. auto.
    + simpl. unfold bind at 1. unfold get. rewrite Hon.
      unfold bind at 1. unfold tick, bind at 1, datetime_now, ask.
      set (w1 := with_pos (S (pos w)) w).
      assert (Hshort : simulate m = true -> short_stamps (env w1))
        by (rewrite Hsim; discriminate).
      assert (Hnd : simulate m = true -> NoDup (commands m))
        by (rewrite Hsim; discriminate).
      assert (Hroomy : simulate m = true -> In "/explore" (commands m) ->
                       roomy (summary w1))
        by (rewrite Hsim; discriminate).
      destruct (for_commands_completes v m (clock (env w) (pos w)) (commands m)
                  w1 Hidle Hnet Hshort Hnd Hon Hdom Hroomy)
        as (w2 & Hrun & Hon2).
      pose proof (for_commands_steady v m (clock (env w) (pos w)) (commands m) w1)
        as [He Hd].
      unfold tick_at. unfold bind at 1. rewrite Hrun in *. simpl in He, Hd.
      assert (Hidle2 : operator_idle (env w2)) by (now rewrite He).
      rewrite (await_idle w2 Hidle2).
      apply IH; simpl; try (rewrite He; assumption); try assumption.
      intros c Hc. apply Hd, Hdom, Hc.
Qed.

(** C6 as stated fails: when the send fails otherwise than with an
    [RPCError], the exception leaves the loop, the task ends with it, and
    [last_sent] of the command is still the initial value. *)
Lemma other_send_failure_ends_the_session :
  let w' := snd (run File_B_m real_miner 3
                   (new_world (failing_env FailsOtherwise) real_miner)) in
  fst (run File_B_m real_miner 3
         (new_world (failing_env FailsOtherwise) real_miner))
  = Raised OtherError
  /\ dispatched (log w') = ["/explore"]
  /\ last_sent w' !! "/explore" = Some datetime_min.
Proof. vm_compute. repeat split. Qed.

(** A session whose first send fails with an [RPCError] and whose later
    sends are delivered. *)
Lemma rpc_failure_consumes_cooldown_witness :
  let w := with_running true (new_world flaky_env real_miner) in
  (exists w',
     poll File_B_m real_miner COMMAND_COOLDOWN "/explore" w = (Ok tt, w')
     /\ last_sent w' !! "/explore" = Some (clock demo_env 3)
     /\ sent (log w') = ["/explore"])
  /\ (exists w',
       while_running File_B_m real_miner 3 w = (Ok false, w')
       /\ running w' = true)
  /\ log (snd (while_running File_B_m real_miner 1 w))
     = [Dispatching "/explore";
        ErrorSending "2025-01-01 00:00:00" "/explore";
        Dispatching "/dice"; RealSent "2025-01-01 00:00:00" "/dice";
        Dispatching "/bowling"; RealSent "2025-01-01 00:00:00" "/bowling";
        Dispatching "/lever"; RealSent "2025-01-01 00:00:00" "/lever"].
Proof.
  intros w.
  destruct (rpc_failure_consumes_cooldown File_B_m real_miner
              {| session_name := "data/sessions/demo"; bot := "@bot" |} w)
    as [Hpoll Hloop].
  - reflexivity.
  - reflexivity.
  - split; [|split].
    + destruct (Hpoll COMMAND_COOLDOWN "/explore" datetime_min)
        as (w' & Hp & Hl & Hlog & _).
      * discriminate.
      * vm_compute. reflexivity.
      * vm_compute. discriminate.
      * reflexivity.
      * reflexivity.
      * exists w'. split; [exact Hp|]. split.
        -- rewrite Hl. apply lookup_insert_eq.
        -- rewrite Hlog. reflexivity.
    + apply Hloop.
      * intros n. reflexivity.
      * intros n. simpl. destruct (n <=? 2)%nat; discriminate.
      * reflexivity.
      * intros c Hc. exists datetime_min. exact (never_sent_lookup _ _ Hc).
    + vm_compute. reflexivity.
Defined.



(** ** Stop and start *)

Ltac keeps_summary :=
  repeat first [ keeps_step same_summary_refl same_summary_trans
               | keeps_known
               | apply keeps_update; intros ?; reflexivity
               | apply keeps_ask; intros ?; reflexivity ].

Lemma ts_same_summary : keeps same_summary ts.
Proof. unfold ts, datetime_now. keeps_summary. Qed.

Lemma await_same_summary : keeps same_summary await.
Proof. unfold await. keeps_summary. Qed.

Lemma run_prologue_same_summary (m : Miner) : keeps same_summary (run_prologue m).
Proof.
  pose proof ts_same_summary. pose proof await_same_summary.
  unfold run_prologue, RealClient_start, info. keeps_summary.
Qed.

Lemma run_epilogue_same_summary (v : source) (m : Miner) :
  keeps same_summary (run_epilogue v m).
Proof.
  pose proof ts_same_summary. pose proof await_same_summary.
  unfold run_epilogue, RealClient_stop, _write_summary, info. keeps_summary.
Qed.



(** ** The summary of a whole session *)

Lemma stays_consistent_refl (w : World) : stays_consistent w w.
Proof. intros H. exact H. Qed.

Lemma stays_consistent_trans (a b c : World) :
  stays_consistent a b -> stays_consistent b c -> stays_consistent a c.
Proof. unfold stays_consistent. auto. Qed.

Lemma same_summary_stays_consistent {A} (m : M A) :
  keeps same_summary m -> keeps stays_consistent m.
Proof. intros H w Hc. now rewrite (H w). Qed.

Ltac keeps_consistent :=
  repeat first [ keeps_step stays_consistent_refl stays_consistent_trans
               | keeps_known
               | apply same_summary_stays_consistent; keeps_summary ].

Lemma extract_and_record_stays_consistent (v : source) (text : string) :
  keeps stays_consistent (extract_and_record v text).
Proof.
  intros w Hc.
  destruct (extract_and_record_summary v text w) as (ob & oc & ow & -> & _).
  now apply consistent_after_call.
Qed.

Lemma simulate_send_stays_consistent (v : source) (sid cmd : string) :
  keeps stays_consistent (simulate_send v sid cmd).
Proof.
  pose proof ts_same_summary. pose proof await_same_summary.
  pose proof (extract_and_record_stays_consistent File_B_m) as Hb. simpl in Hb.
  pose proof (extract_and_record_stays_consistent File_B_m2) as Hb2. simpl in Hb2.
  destruct v; unfold simulate_send, B_m.simulate_send, B_m2.simulate_send,
    randint, info; keeps_consistent.
Qed.

Lemma bot_handler_stays_consistent (v : source) (rc : RealClient) (text : string) :
  keeps stays_consistent (bot_handler v rc text).
Proof.
  pose proof ts_same_summary.
  pose proof (extract_and_record_stays_consistent v).
  unfold bot_handler, info. keeps_consistent.
Qed.

Lemma poll_stays_consistent (v : source) (m : Miner) (now : Z) (cmd : string) :
  keeps stays_consistent (poll v m now cmd).
Proof.
  pose proof ts_same_summary. pose proof await_same_summary.
  pose proof (simulate_send_stays_consistent v).
  unfold poll, RealClient_send, send_message, set_last_sent, datetime_now, info.
  keeps_consistent.
Qed.

Lemma for_commands_stays_consistent (v : source) (m : Miner) (now : Z)
    (cmds : list string) :
  keeps stays_consistent (for_commands v m now cmds).
Proof.
  pose proof (poll_stays_consistent v m now).
  induction cmds as [|cmd rest IH]; simpl; keeps_consistent.
Qed.

Lemma while_running_stays_consistent (v : source) (m : Miner) (fuel : nat) :
  keeps stays_consistent (while_running v m fuel).
Proof.
  pose proof await_same_summary.
  pose proof (for_commands_stays_consistent v m).
  induction fuel as [|fuel IH]; simpl; unfold tick, tick_at, datetime_now;
    keeps_consistent.
Qed.

(** Whatever a session does, the totals and the waifu list of its summary
    agree with its event log. *)
Lemma run_stays_consistent (v : source) (m : Miner) (fuel : nat) (e : Env) :
  consistent (summary (snd (run v m fuel (new_world e m)))).
Proof.
  assert (H : keeps stays_consistent (run v m fuel)).
  { pose proof (while_running_stays_consistent v m fuel) as Hloop.
    pose proof (same_summary_stays_consistent _ (run_prologue_same_summary m)).
    pose proof (same_summary_stays_consistent _ (run_epilogue_same_summary v m))
      as Hend.
    unfold run. apply (keeps_bind _ stays_consistent_trans); [assumption|].
    intros _ w. specialize (Hloop w).
    destruct (while_running v m fuel w) as [[[]|x] w']; simpl in Hloop.
    - intros Hc. specialize (Hloop Hc).
      apply (keeps_try_finally _ stays_consistent_trans
               (try_except (lift (Ok true)) is_CancelledError run_cancelled)
               (run_epilogue v m)); [|assumption|assumption].
      intros w0 H0. exact H0.
    - exact Hloop.
    - intros Hc. specialize (Hloop Hc).
      apply (keeps_try_finally _ stays_consistent_trans
               (try_except (lift (Raised x)) is_CancelledError run_cancelled)
               (run_epilogue v m)); [|assumption|assumption].
      apply (keeps_try_except _ stays_consistent_trans).
      + intros w0 H0. exact H0.
      + unfold run_cancelled, info.
        pose proof ts_same_summary. keeps_consistent. }
  apply H. repeat split.
Qed.

(** * Further properties of the code *)

(** ** How a session can end *)

Section Throws.
Context {A : Type}.
Variable P : exn -> Prop.

Lemma throws_ret (a : A) : throws P (ret a).
Proof. intros w e H. discriminate. Qed.

Lemma throws_get (f : World -> A) : throws P (get f).
Proof. intros w e H. discriminate. Qed.

Lemma throws_ask (f : Env -> nat -> A) : throws P (ask f).
Proof. intros w e H. discriminate. Qed.

Lemma throws_raise (x : exn) : P x -> throws P (raise (A := A) x).
Proof. intros Hx w e [= <-]. exact Hx. Qed.

Lemma throws_bind {B} (m : M B) (k : B -> M A) :
  throws P m -> (forall b, throws P (k b)) -> throws P (bind m k).
Proof.
  intros Hm Hk w e. unfold bind. specialize (Hm w).
  destruct (m w) as [[b|x] w1]; simpl in *.
  - apply Hk.
  - intros [= <-]. now apply Hm.
Qed.

Lemma throws_try_except (m h : M A) (catches : exn -> bool) :
  throws (fun e => P e \/ catches e = true) m -> throws P h ->
  throws P (try_except m catches h).
Proof.
  intros Hm Hh w e. unfold try_except. specialize (Hm w).
  destruct (m w) as [[a|x] w1]; simpl in *; [discriminate|].
  destruct (catches x) eqn:Ec.
  - apply Hh.
  - intros [= <-]. destruct (Hm x eq_refl); [assumption|congruence].
Qed.

Lemma throws_try_finally (m : M A) (f : M unit) :
  throws P m -> throws P f -> throws P (try_finally m f).
Proof.
  intros Hm Hf w e. unfold try_finally. specialize (Hm w).
  destruct (m w) as [r w1]. specialize (Hf w1).
  destruct (f w1) as [[u|x] w2]; simpl in *.
  - apply Hm.
  - intros [= <-]. now apply Hf.
Qed.
End Throws.

Lemma throws_update (P : exn -> Prop) (f : World -> World) : throws P (update f).
Proof. intros w e H. discriminate. Qed.

Lemma throws_weaken {A} (P Q : exn -> Prop) (m : M A) :
  (forall e, P e -> Q e) -> throws P m -> throws Q m.
Proof. intros H Hm w e He. apply H. exact (Hm w e He). Qed.

Lemma throws_str (P : exn -> Prop) (n : Z) :
  P ValueError_max_str_digits -> throws P (str n).
Proof.
  intros HP w e. unfold str, lift. simpl. intros H.
  apply str_value_raised in H as [-> _]. exact HP.
Qed.

Lemma throws_extract_and_record (P : exn -> Prop) (v : source) (text : string) :
  P ValueError_max_str_digits -> throws P (extract_and_record v text).
Proof.
  intros HP w e H. destruct (extract_and_record v text w) as [r w'] eqn:E.
  simpl in H. subst r. apply extract_and_record_raised in E as [-> _]. exact HP.
Qed.

(** One step of a proof about the exceptions of a program. *)
Ltac throws_step :=
  lazymatch goal with
  | |- throws _ (bind _ _) => apply throws_bind; [|intros ?]
  | |- throws _ (ret _) => apply throws_ret
  | |- throws _ (get _) => apply throws_get
  | |- throws _ (ask _) => apply throws_ask
  | |- throws _ datetime_now => apply throws_ask
  | |- throws _ (update _) => apply throws_update
  | |- throws _ (info _) => apply throws_update
  | |- throws _ (on_summary _) => apply throws_update
  | |- throws _ (set_last_sent _ _) => apply throws_update
  | |- throws _ (raise _) => apply throws_raise
  | |- throws _ (str _) => apply throws_str
  | |- throws _ (try_except _ _ _) => apply throws_try_except
  | |- throws _ (try_finally _ _) => apply throws_try_finally
  | |- throws _ (match ?x with _ => _ end) => destruct x
  | |- throws _ (if ?x then _ else _) => destruct x
  end.

Ltac throws_known :=
  match goal with H : context [throws] |- _ => solve [apply H] end.

Ltac throws_auto :=
  repeat first [ throws_step | throws_known ];
  try solve [ unfold cancel_or_limit, cancel_or_failure_or_limit; simpl; auto 6 ].

Lemma ts_throws (P : exn -> Prop) : throws P ts.
Proof. unfold ts. throws_auto. Qed.

Lemma await_throws (P : exn -> Prop) : P CancelledError -> throws P await.
Proof. intros HP. unfold await. throws_auto. Qed.

Lemma simulate_send_throws (v : source) (sid cmd : string) :
  throws cancel_or_limit (simulate_send v sid cmd).
Proof.
  pose proof (ts_throws cancel_or_limit).
  assert (throws cancel_or_limit await) by (apply await_throws; now left).
  assert (Hb : forall text, throws cancel_or_limit (B_m.extract_and_record text))
    by (intros text; apply (throws_extract_and_record _ File_B_m); now right).
  assert (Hb2 : forall text, throws cancel_or_limit (B_m2.extract_and_record text))
    by (intros text; apply (throws_extract_and_record _ File_B_m2); now right).
  destruct v; unfold simulate_send, B_m.simulate_send, B_m2.simulate_send, randint;
    throws_auto.
Qed.

Lemma RealClient_send_throws (rc : RealClient) (cmd : string) :
  throws (fun e => e = CancelledError \/ e = OtherError) (RealClient_send rc cmd).
Proof.
  unfold RealClient_send, send_message.
  apply throws_try_except.
  - pose proof (ts_throws (fun e => (e = CancelledError \/ e = OtherError)
                                     \/ is_RPCError e = true)).
    assert (throws (fun e => (e = CancelledError \/ e = OtherError)
                             \/ is_RPCError e = true) await)
      by (apply await_throws; auto).
    throws_auto.
  - pose proof (ts_throws (fun e => e = CancelledError \/ e = OtherError)).
    throws_auto.
Qed.

Lemma dispatch_throws (v : source) (m : Miner) (cmd : string) :
  throws (loop_exception m) (dispatch v m cmd).
Proof.
  pose proof (simulate_send_throws v (session_id m) cmd) as Hs.
  unfold dispatch, loop_exception. destruct (simulate m).
  - apply throws_bind; [|intros ?; apply throws_ret].
    eapply throws_weaken; [|exact Hs].
    unfold cancel_or_limit, cancel_or_failure_or_limit.
    intros e He. split; [tauto|]. split; [tauto|discriminate].
  - destruct (real_client m) as [rc|]; [|apply throws_ret].
    eapply throws_weaken; [|apply RealClient_send_throws].
    unfold cancel_or_limit, cancel_or_failure_or_limit.
    intros e He. split; [tauto|]. split; [|tauto].
    intros [?|?]; discriminate.
Qed.

Lemma poll_throws (v : source) (m : Miner) (now : Z) (cmd : string)
    (w : World) (e : exn) :
  is_Some (last_sent w !! cmd) ->
  fst (poll v m now cmd w) = Raised e -> loop_exception m e.
Proof.
  intros [last Hlast]. rewrite poll_run, Hlast.
  pose proof (dispatch_throws v m cmd
                (with_log (log w ++ [Dispatching cmd]) w)) as Hd.
  destruct (_ <=? _).
  - destruct (dispatch v m cmd _) as [[[]|x] w2]; simpl in *; [discriminate|].
    intros [= <-]. now apply Hd.
  - destruct (_ <? _); discriminate.
Qed.

Lemma for_commands_throws (v : source) (m : Miner) (now : Z) :
  forall (cmds : list string) (w : World) (e : exn),
    (forall c, In c cmds -> is_Some (last_sent w !! c)) ->
    fst (for_commands v m now cmds w) = Raised e -> loop_exception m e.
Proof.
  induction cmds as [|cmd rest IH]; intros w e Hdom; [discriminate|].
  simpl. unfold bind, get. simpl. destruct (running w); [|discriminate].
  destruct (poll v m now cmd w) as [[[]|x] w1] eqn:Ep.
  - apply IH. intros c Hc. apply (poll_keeps_entries _ _ _ _ _ _ _ Ep).
    apply Hdom. now right.
  - intros [= <-]. apply (poll_throws v m now cmd w).
    + apply Hdom. now left.
    + now rewrite Ep.
Qed.

Lemma tick_steady (v : source) (m : Miner) : keeps steady (tick v m).
Proof.
  pose proof (for_commands_steady v m).
  assert (keeps steady await)
    by (intros w; apply frame_steady, await_frame).
  assert (keeps steady datetime_now)
    by (intros w; apply frame_steady, frame_with_pos).
  unfold tick, tick_at.
  repeat first [ keeps_step steady_refl steady_trans | keeps_known ].
Qed.

Lemma while_running_throws (v : source) (m : Miner) :
  forall (fuel : nat) (w : World) (e : exn),
    has_entries m w ->
    fst (while_running v m fuel w) = Raised e -> loop_exception m e.
Proof.
  induction fuel as [|fuel IH]; intros w e Hdom; [discriminate|].
  simpl. unfold bind at 1, get. simpl. destruct (running w); [|discriminate].
  unfold bind at 1. pose proof (tick_steady v m w) as [_ Hst].
  destruct (tick v m w) as [[[]|x] w1] eqn:Et; simpl in Hst.
  - apply IH. intros c Hc. apply Hst, Hdom, Hc.
  - intros [= <-]. revert Et. unfold tick, tick_at, bind, datetime_now, ask.
    simpl.
    pose proof (for_commands_throws v m (clock (env w) (pos w)) (commands m)
                  (with_pos (S (pos w)) w)) as Hf.
    destruct (for_commands v m _ _ _) as [[[]|y] w2].
    + intros Ha.
      assert (Hx : x = CancelledError).
      { assert (Hth : throws (fun e => e = CancelledError) await)
          by (apply await_throws; reflexivity).
        apply (Hth w2). now rewrite Ha. }
      subst x. unfold loop_exception, cancel_or_failure_or_limit, cancel_or_limit.
      auto.
    + intros [= <- <-]. apply Hf; [exact Hdom|reflexivity].
Qed.

Lemma run_prologue_frame (m : Miner) : keeps frame (run_prologue m).
Proof.
  pose proof ts_frame. pose proof await_frame.
  unfold run_prologue, RealClient_start. keeps_frame.
Qed.

(** X1.  The loop of a session that has an entry of the cooldown map for
    each of its commands, as [__init__] leaves it, is left by no other
    exception than a cancellation, a failure of the transport that is no
    [RPCError], or the [ValueError] of the digit limit: the lookup
    [last_sent[cmd]] never fails, a captured amount is never an invalid
    literal, and an [RPCError] never leaves [RealClient.send].  Only a live
    session with a real client can end by a failure of the transport, and
    only a simulation by the digit limit. *)
Theorem loop_ends_by (v : source) (m : Miner) (fuel : nat) (w : World) (e : exn) :
  has_entries m w ->
  fst (while_running v m fuel w) = Raised e ->
  (e = CancelledError \/ e = OtherError \/ e = ValueError_max_str_digits)
  /\ (simulate m = true \/ real_client m = None -> e <> OtherError)
  /\ (simulate m = false -> e <> ValueError_max_str_digits).
Proof.
  intros Hdom Hrun.
  destruct (while_running_throws v m fuel w e Hdom Hrun) as (H1 & H2 & H3).
  split; [exact H1|]. split.
  - intros Hm ->. destruct H2 as [H2|H2]; [tauto|discriminate..].
  - intros Hm ->. destruct (H3 Hm); discriminate.
Qed.

(** A session of [real_miner] whose every send fails otherwise than with an
    [RPCError] ends with that failure. *)
Lemma loop_ends_by_witness :
  let w := with_running true (new_world (failing_env FailsOtherwise) real_miner) in
  has_entries real_miner w
  /\ fst (while_running File_B_m real_miner 3 w) = Raised OtherError
  /\ (OtherError = CancelledError \/ OtherError = OtherError
      \/ OtherError = ValueError_max_str_digits)
  /\ (simulate real_miner = true \/ real_client real_miner = None ->
      OtherError <> OtherError)
  /\ (simulate real_miner = false -> OtherError <> ValueError_max_str_digits).
Proof.
  intros w.
  assert (H1 : has_entries real_miner w)
    by (intros c Hc; exists datetime_min; exact (never_sent_lookup _ _ Hc)).
  assert (H2 : fst (while_running File_B_m real_miner 3 w) = Raised OtherError)
    by (vm_compute; reflexivity).
  split; [exact H1|]. split; [exact H2|].
  exact (loop_ends_by File_B_m real_miner 3 w OtherError H1 H2).
Defined.

(** ** The running flag at the end of a session *)

Lemma flag_stays_refl (w : World) : flag_stays w w.
Proof. split; auto. Qed.

Lemma flag_stays_trans (a b c : World) :
  flag_stays a b -> flag_stays b c -> flag_stays a c.
Proof.
  intros [e1 r1] [e2 r2]. split; [congruence|].
  intros Hop Hr. apply r2; [now rewrite e1|auto].
Qed.

Ltac keeps_flag :=
  repeat first [ keeps_step flag_stays_refl flag_stays_trans
               | keeps_known
               | apply keeps_update; intros ?; split;
                 [reflexivity|intros _ ?; solve [assumption|reflexivity]]
               | apply keeps_ask; intros ?; split;
                 [reflexivity|intros _ ?; assumption] ].

Lemma ts_flag_stays : keeps flag_stays ts.
Proof. unfold ts, datetime_now. keeps_flag. Qed.

Lemma await_flag_stays : keeps flag_stays await.
Proof.
  intros w. unfold await, bind, ask. simpl. split.
  - destruct (operator (env w) (pos w)); reflexivity.
  - intros Hop Hr. specialize (Hop (pos w)).
    destruct (operator (env w) (pos w)); simpl; congruence.
Qed.

Lemma extract_and_record_flag_stays (v : source) (text : string) :
  keeps flag_stays (extract_and_record v text).
Proof.
  pose proof ts_flag_stays.
  destruct v; unfold extract_and_record, B_m.extract_and_record,
    B_m2.extract_and_record, info, on_summary; keeps_flag.
Qed.

Lemma simulate_send_flag_stays (v : source) (sid cmd : string) :
  keeps flag_stays (simulate_send v sid cmd).
Proof.
  pose proof ts_flag_stays. pose proof await_flag_stays.
  pose proof (extract_and_record_flag_stays File_B_m) as Hb. simpl in Hb.
  pose proof (extract_and_record_flag_stays File_B_m2) as Hb2. simpl in Hb2.
  destruct v; unfold simulate_send, B_m.simulate_send, B_m2.simulate_send,
    randint, info; keeps_flag.
Qed.

Lemma poll_flag_stays (v : source) (m : Miner) (now : Z) (cmd : string) :
  keeps flag_stays (poll v m now cmd).
Proof.
  pose proof ts_flag_stays. pose proof await_flag_stays.
  pose proof (simulate_send_flag_stays v).
  unfold poll, RealClient_send, send_message, set_last_sent, datetime_now, info.
  keeps_flag.
Qed.

Lemma for_commands_flag_stays (v : source) (m : Miner) (now : Z)
    (cmds : list string) :
  keeps flag_stays (for_commands v m now cmds).
Proof.
  pose proof (poll_flag_stays v m now).
  induction cmds as [|cmd rest IH]; simpl; keeps_flag.
Qed.

Lemma while_running_flag_stays (v : source) (m : Miner) (fuel : nat) :
  keeps flag_stays (while_running v m fuel).
Proof.
  pose proof await_flag_stays.
  pose proof (for_commands_flag_stays v m).
  induction fuel as [|fuel IH]; simpl; unfold tick, tick_at, datetime_now;
    keeps_flag.
Qed.

Lemma run_epilogue_flag_stays (v : source) (m : Miner) :
  keeps flag_stays (run_epilogue v m).
Proof.
  pose proof ts_flag_stays. pose proof await_flag_stays.
  unfold run_epilogue, RealClient_stop, _write_summary, info. keeps_flag.
Qed.

(** The part of [run] after the prologue. *)
Lemma run_after_prologue {R : World -> World -> Prop}
    (R_refl : forall w, R w w) (R_trans : forall a b c, R a b -> R b c -> R a c)
    (v : source) (m : Miner) (fuel : nat) :
  keeps R (while_running v m fuel) -> keeps R ts ->
  (forall e, keeps R (info e)) -> keeps R (run_epilogue v m) ->
  keeps R (fun w =>
             match while_running v m fuel w with
             | (Ok false, w') => (Ok false, w')
             | (r, w') =>
                 try_finally (try_except (lift r) is_CancelledError run_cancelled)
                   (run_epilogue v m) w'
             end).
Proof.
  intros Hloop Hts Hinfo Hepi w. specialize (Hloop w).
  assert (Hc : keeps R run_cancelled).
  { unfold run_cancelled.
    repeat first [ keeps_step R_refl R_trans | keeps_known ]. }
  destruct (while_running v m fuel w) as [[[]|x] w']; simpl in Hloop.
  - apply (R_trans _ _ _ Hloop).
    apply (keeps_try_finally _ R_trans
             (try_except (lift (Ok true)) is_CancelledError run_cancelled)
             (run_epilogue v m)); [|assumption].
    apply (keeps_try_except _ R_trans); [apply (keeps_lift _ R_refl)|assumption].
  - exact Hloop.
  - apply (R_trans _ _ _ Hloop).
    apply (keeps_try_finally _ R_trans
             (try_except (lift (Raised x)) is_CancelledError run_cancelled)
             (run_epilogue v m)); [|assumption].
    apply (keeps_try_except _ R_trans); [apply (keeps_lift _ R_refl)|assumption].
Qed.

(** X2.  [run] never clears the running flag itself: when nobody asks the
    session to stop, the flag is still set when the task has ended, be it
    by a cancellation or by an exception, so that [is_running()] then says
    that a session is on which is not. *)
Theorem run_leaves_flag_set (v : source) (m : Miner) (fuel : nat) (w : World) :
  never_stopped (env w) ->
  running (snd (run v m fuel w)) = true.
Proof.
  intros Hop. unfold run.
  assert (Hrest : keeps flag_stays
            (fun w =>
               match while_running v m fuel w with
               | (Ok false, w') => (Ok false, w')
               | (r, w') =>
                   try_finally (try_except (lift r) is_CancelledError run_cancelled)
                     (run_epilogue v m) w'
               end)).
  { apply (run_after_prologue flag_stays_refl flag_stays_trans).
    - apply while_running_flag_stays.
    - apply ts_flag_stays.
    - intros e. unfold info. keeps_flag.
    - apply run_epilogue_flag_stays. }
  assert (Hpro : forall w0, never_stopped (env w0) ->
            env (snd (run_prologue m w0)) = env w0
            /\ running (snd (run_prologue m w0)) = true).
  { intros w0 Hop0. unfold run_prologue. unfold bind at 1. unfold update at 1.
    assert (Hk : keeps flag_stays
              (time <- ts ;; info (MinerStarted time) ;;
               match real_client m with
               | Some rc => RealClient_start rc
               | None => ret tt
               end)).
    { pose proof ts_flag_stays. pose proof await_flag_stays.
      unfold RealClient_start, info. keeps_flag. }
    destruct (Hk (with_running true w0)) as [He Hr]. split.
    - exact He.
    - apply Hr; [exact Hop0|reflexivity]. }
  destruct (Hpro w Hop) as [He Hr]. unfold bind.
  destruct (run_prologue m w) as [[[]|x] w1]; simpl in He, Hr; [|exact Hr].
  destruct (Hrest w1) as [_ Hf]. apply Hf; [now rewrite He|exact Hr].
Qed.

Lemma run_leaves_flag_set_witness :
  fst (run File_B_m demo_miner 3 (new_world cancelling_env demo_miner)) = Ok true
  /\ running (snd (run File_B_m demo_miner 3 (new_world cancelling_env demo_miner)))
     = true.
Proof.
  split; [vm_compute; reflexivity|].
  apply (run_leaves_flag_set File_B_m demo_miner 3
           (new_world cancelling_env demo_miner)).
  intros n. discriminate.
Defined.

(** ** When the summary is written *)

Lemma same_written_refl (w : World) : same_written w w.
Proof. reflexivity. Qed.

Lemma same_written_trans (a b c : World) :
  same_written a b -> same_written b c -> same_written a c.
Proof. unfold same_written. congruence. Qed.

Lemma frame_same_written {A} (m : M A) : keeps frame m -> keeps same_written m.
Proof. intros H w. exact (frame_written _ _ (H w)). Qed.

Ltac keeps_written :=
  repeat first [ keeps_step same_written_refl same_written_trans
               | keeps_known
               | apply keeps_update; intros ?; reflexivity
               | apply keeps_ask; intros ?; reflexivity ].

Lemma poll_same_written (v : source) (m : Miner) (now : Z) (cmd : string) :
  keeps same_written (poll v m now cmd).
Proof.
  pose proof (frame_same_written _ ts_frame).
  pose proof (frame_same_written _ await_frame).
  pose proof (fun sid c => frame_same_written _ (simulate_send_frame v sid c)).
  unfold poll, RealClient_send, send_message, set_last_sent, datetime_now, info.
  keeps_written.
Qed.

Lemma while_running_same_written (v : source) (m : Miner) (fuel : nat) :
  keeps same_written (while_running v m fuel).
Proof.
  pose proof (frame_same_written _ await_frame).
  pose proof (poll_same_written v m).
  assert (Hf : forall now cmds, keeps same_written (for_commands v m now cmds)).
  { intros now cmds. induction cmds as [|cmd rest IH]; simpl; keeps_written. }
  induction fuel as [|fuel IH]; simpl; unfold tick, tick_at, datetime_now;
    keeps_written.
Qed.

(** The handlers at the end of [run]: the summary is written once, as it
    is, unless the disconnection or the writing raises. *)
Lemma run_epilogue_writes (v : source) (m : Miner) (w : World) :
  summary (snd (run_epilogue v m w)) = summary w
  /\ ((exists e, fst (run_epilogue v m w) = Raised e)
      /\ written (snd (run_epilogue v m w)) = written w
      \/ fst (run_epilogue v m w) = Ok tt
         /\ written (snd (run_epilogue v m w)) = (written w ++ [summary w])%list).
Proof.
  split; [apply run_epilogue_same_summary|].
  destruct (run_epilogue v m w) as [r w'] eqn:E. simpl.
  unfold run_epilogue in E. unfold bind at 1 in E.
  assert (Hstop : exists r1 w1,
            match real_client m with
            | Some rc => RealClient_stop rc
            | None => ret tt
            end w = (r1, w1)
            /\ written w1 = written w /\ summary w1 = summary w).
  { eexists _, _. split; [apply surjective_pairing|]. split.
    - pose proof (frame_same_written _ ts_frame).
      pose proof (frame_same_written _ await_frame).
      assert (Hk : keeps same_written
                (match real_client m with
                 | Some rc => RealClient_stop rc
                 | None => ret tt
                 end))
        by (unfold RealClient_stop, info; keeps_written).
      apply Hk.
    - pose proof ts_same_summary. pose proof await_same_summary.
      assert (Hk : keeps same_summary
                (match real_client m with
                 | Some rc => RealClient_stop rc
                 | None => ret tt
                 end))
        by (unfold RealClient_stop, info; keeps_summary).
      apply Hk. }
  destruct Hstop as (r1 & w1 & Hrun & Hw1 & Hs1). rewrite Hrun in E.
  destruct r1 as [[]|x]; [|injection E as <- <-; left; split; [eauto|exact Hw1]].
  revert E.
  unfold _write_summary, bind, get, str, lift, update, info, ts, datetime_now,
    ask, ret.
  simpl. rewrite <- Hw1, <- Hs1.
  destruct (str_value (berries_total (summary w1)));
    [|intros [= <- <-]; left; split; eauto].
  destruct (str_value (crystals_total (summary w1)));
    [|intros [= <- <-]; left; split; eauto].
  destruct (dump_events (events (summary w1))) as [[]|x];
    [|intros [= <- <-]; left; split; eauto].
  intros [= <- <-]. right. split; reflexivity.
Qed.

Lemma run_cancelled_run (w : World) :
  fst (run_cancelled w) = Ok true
  /\ written (snd (run_cancelled w)) = written w
  /\ summary (snd (run_cancelled w)) = summary w.
Proof. repeat split. Qed.

(** X3.  The summary is written at the end of the session and only then:
    while the loop is on ([Ok false]: it was still going when the fuel ran
    out) nothing is written; when [run] returns, the summary has been
    written once more, as it then is; and however [run] ends, it has
    written at most once, the summary as it is at the end. *)
Theorem summary_written_once (v : source) (m : Miner) (fuel : nat) (w : World) :
  let r := fst (run v m fuel w) in
  let w' := snd (run v m fuel w) in
  (r = Ok false -> written w' = written w)
  /\ (r = Ok true -> written w' = (written w ++ [summary w'])%list)
  /\ (written w' = written w \/ written w' = (written w ++ [summary w'])%list).
Proof.
  unfold run, bind.
  pose proof (frame_same_written _ (run_prologue_frame m) w) as Hpro.
  destruct (run_prologue m w) as [[[]|x] w1]; unfold same_written in Hpro;
    simpl in Hpro; [|simpl; split; [discriminate|split; [discriminate|now left]]].
  pose proof (while_running_same_written v m fuel w1) as Hloop.
  unfold same_written in Hloop.
  assert (Hepi : forall (r0 : result bool) (w2 : World),
            written w2 = written w ->
            let r := fst (let (r1, w3) := run_epilogue v m w2 in
                          match r1 with
                          | Ok _ => (r0, w3)
                          | Raised e => (Raised e, w3)
                          end) in
            let w' := snd (let (r1, w3) := run_epilogue v m w2 in
                           match r1 with
                           | Ok _ => (r0, w3)
                           | Raised e => (Raised e, w3)
                           end) in
            (forall b, r = Ok b ->
               r0 = Ok b /\ written w' = (written w ++ [summary w'])%list)
            /\ (written w' = written w
                \/ written w' = (written w ++ [summary w'])%list)).
  { intros r0 w2 Hw2.
    destruct (run_epilogue_writes v m w2) as [Hs [[[e He] Hw]|[Hok Hw]]];
      destruct (run_epilogue v m w2) as [[[]|y] w3]; simpl in *;
      try discriminate.
    - split; [discriminate|]. left. congruence.
    - split; [intros b ->; split; [reflexivity|]|right]; congruence. }
  destruct (while_running v m fuel w1) as [[[]|x] w2]; simpl in Hloop.
  - destruct (Hepi (Ok true) w2) as [Hok Hany]; [congruence|].
    split; [|split; [|exact Hany]].
    + intros H. destruct (Hok _ H) as [? _]. discriminate.
    + intros H. exact (proj2 (Hok _ H)).
  - simpl. split; [congruence|]. split; [discriminate|left; congruence].
  - destruct (is_CancelledError x) eqn:Ex.
    + destruct x; try discriminate.
      destruct (Hepi (Ok true) (snd (run_cancelled w2))) as [Hok Hany];
        [simpl; congruence|].
      split; [|split; [|exact Hany]].
      * intros H. destruct (Hok _ H) as [? _]. discriminate.
      * intros H. exact (proj2 (Hok _ H)).
    + destruct (Hepi (Raised x) w2) as [Hok Hany]; [congruence|].
      assert (Heq : try_finally (try_except (lift (Raised x)) is_CancelledError
                                   run_cancelled) (run_epilogue v m) w2
                    = (let (r1, w3) := run_epilogue v m w2 in
                       match r1 with
                       | Ok _ => (Raised x, w3)
                       | Raised e => (Raised e, w3)
                       end)).
      { unfold try_finally, try_except, lift. now rewrite Ex. }
      rewrite Heq.
      split; [|split; [|exact Hany]].
      * intros H. destruct (Hok _ H) as [? _]. discriminate.
      * intros H. exact (proj2 (Hok _ H)).
Qed.

(** ** The cooldown map over a session *)

Lemma readings_refl (w : World) : readings w w.
Proof. split; [reflexivity|]. split; [lia|auto]. Qed.

Lemma readings_trans (a b c : World) :
  readings a b -> readings b c -> readings a c.
Proof.
  intros (e1 & p1 & r1) (e2 & p2 & r2). split; [congruence|]. split; [lia|].
  intros cmd t Ht. destruct (r1 cmd t Ht) as [Hb|(n & Hn & Hb)].
  - destruct (r2 cmd t Hb) as [Hc|(k & Hk & Hc)]; [now left|].
    right. exists k. split; [lia|]. now rewrite <- e1.
  - destruct (r2 cmd _ Hb) as [Hc|(k & Hk & Hc)].
    + right. exists n. split; [lia|assumption].
    + right. exists k. split; [lia|]. now rewrite <- e1.
Qed.

Lemma frame_readings {A} (m : M A) : keeps frame m -> keeps readings m.
Proof.
  intros H w. destruct (H w) as [He Hp Hl _ _ _].
  split; [assumption|]. split; [assumption|]. intros c t Ht. left. now rewrite Hl.
Qed.

Ltac keeps_readings :=
  repeat first [ keeps_step readings_refl readings_trans
               | keeps_known
               | apply keeps_update; intros ?;
                 split; [reflexivity|split; [simpl; lia|intros ? ? ?; now left]]
               | apply keeps_ask; intros ?;
                 split; [reflexivity|split; [simpl; lia|intros ? ? ?; now left]] ].

Lemma poll_readings (v : source) (m : Miner) (now : Z) (cmd : string) :
  keeps readings (poll v m now cmd).
Proof.
  intros w. rewrite poll_run.
  destruct (last_sent w !! cmd) as [last|]; [|apply readings_refl].
  destruct (_ <=? _).
  - pose proof (dispatch_frame v m cmd (with_log (log w ++ [Dispatching cmd]) w))
      as [He Hp Hl _ _ _].
    destruct (dispatch v m cmd _) as [[[]|e] w2]; unfold readings; simpl in *.
    + split; [assumption|]. split; [lia|]. intros c t Ht. rewrite Hl.
      destruct (decide (cmd = c)) as [->|Hne].
      * right. exists (pos w2). split; [lia|]. rewrite He. apply lookup_insert_eq.
      * left. now rewrite lookup_insert_ne.
    + split; [assumption|]. split; [lia|]. intros c t Ht. left. now rewrite Hl.
  - destruct (_ <? _); unfold readings; simpl.
    + split; [reflexivity|]. split; [lia|]. intros c t Ht. now left.
    + split; [reflexivity|]. split; [lia|]. intros c t Ht. now left.
Qed.

Lemma for_commands_readings (v : source) (m : Miner) (now : Z)
    (cmds : list string) :
  keeps readings (for_commands v m now cmds).
Proof.
  pose proof (poll_readings v m now).
  induction cmds as [|cmd rest IH]; simpl; keeps_readings.
Qed.

Lemma while_running_readings (v : source) (m : Miner) (fuel : nat) :
  keeps readings (while_running v m fuel).
Proof.
  pose proof (frame_readings _ await_frame).
  pose proof (for_commands_readings v m).
  induction fuel as [|fuel IH]; simpl; unfold tick, tick_at, datetime_now;
    keeps_readings.
Qed.

Lemma run_readings (v : source) (m : Miner) (fuel : nat) :
  keeps readings (run v m fuel).
Proof.
  pose proof (frame_readings _ ts_frame) as Hts.
  pose proof (frame_readings _ await_frame).
  unfold run. apply (keeps_bind _ readings_trans).
  - apply frame_readings, run_prologue_frame.
  - intros _. apply (run_after_prologue readings_refl readings_trans).
    + apply while_running_readings.
    + exact Hts.
    + intros e. unfold info. keeps_readings.
    + unfold run_epilogue, RealClient_stop, _write_summary, info. keeps_readings.
Qed.

(** X4.  Over a session every entry of the cooldown map stays or is
    replaced by a reading of the clock taken meanwhile; no entry is dropped.
    So when the clock never runs back and no entry lies in the future, no
    entry ever goes back: the time of the last dispatch of a command only
    grows. *)
Theorem last_sent_never_goes_back (v : source) (m : Miner) (fuel : nat)
    (w : World) (c : string) (t : Z) :
  last_sent w !! c = Some t ->
  (last_sent (snd (run v m fuel w)) !! c = Some t
   \/ exists n, (pos w <= n < pos (snd (run v m fuel w)))%nat
                /\ last_sent (snd (run v m fuel w)) !! c
                   = Some (clock (env w) n))
  /\ (monotone_clock (env w) -> t <= clock (env w) (pos w) ->
      exists t', last_sent (snd (run v m fuel w)) !! c = Some t' /\ t <= t').
Proof.
  intros Ht. destruct (run_readings v m fuel w) as (_ & _ & Hr).
  specialize (Hr c t Ht). split; [exact Hr|].
  intros Hmono Hpast. destruct Hr as [Hr|(n & Hn & Hr)].
  - exists t. split; [assumption|lia].
  - exists (clock (env w) n). split; [assumption|].
    specialize (Hmono (pos w) n). lia.
Qed.

Lemma last_sent_never_goes_back_witness :
  exists t', last_sent (snd (run File_B_m demo_miner 3
                               (new_world demo_env demo_miner))) !! "/explore"
             = Some t'
             /\ datetime_min <= t'.
Proof.
  apply (last_sent_never_goes_back File_B_m demo_miner 3
           (new_world demo_env demo_miner) "/explore" datetime_min).
  - reflexivity.
  - intros i j Hij.
    change (Z.of_nat i * 250000 + new_year <= Z.of_nat j * 250000 + new_year).
    lia.
  - change (datetime_min <= Z.of_nat 0 * 250000 + new_year).
    unfold datetime_min, new_year, seconds. lia.
Defined.

(** ** A command given more than once *)

Lemma for_commands_dispatches_once (v : source) (m : Miner) (now : Z) :
  forall (cmds : list string) (w : World),
    (forall n, (pos w <= n)%nat -> now - clock (env w) n < COMMAND_COOLDOWN) ->
    exists l,
      log (snd (for_commands v m now cmds w)) = (log w ++ l)%list
      /\ NoDup (dispatched l)
      /\ forall c, In c (dispatched l) ->
           In c cmds /\ is_due now (last_sent w) c = true.
Proof.
  induction cmds as [|cmd rest IH]; intros w Hclock.
  - exists []. simpl. rewrite app_nil_r. split; [reflexivity|].
    split; [constructor|intros c []].
  - simpl. unfold bind, get. simpl.
    destruct (running w).
    2:{ exists []. simpl. rewrite app_nil_r. split; [reflexivity|].
        split; [constructor|intros c []]. }
    destruct (poll_log v m now cmd w) as (l1 & Hl1 & Hd1 & _).
    destruct (poll v m now cmd w) as [[[]|e] w1] eqn:Ep; simpl in Hl1.
    + pose proof Ep as Heff.
      apply poll_effect in Heff as (He & Hp & _ & _ & Hs).
      destruct (IH w1) as (l2 & Hl2 & Hnd & Hin).
      { intros n Hn. rewrite He. apply Hclock. lia. }
      exists (l1 ++ l2)%list. rewrite Hl2, Hl1, <- app_assoc.
      split; [reflexivity|]. rewrite dispatched_app, Hd1.
      destruct (is_due now (last_sent w) cmd) eqn:Ed; simpl.
      * destruct Hs as (n & Hn & Hs). split.
        -- apply NoDup_cons. split; [|exact Hnd].
           rewrite list_elem_of_In. intros Hc. apply Hin in Hc as [_ Hc].
           unfold is_due in Hc. rewrite Hs, lookup_insert_eq in Hc.
           apply Z.leb_le in Hc. specialize (Hclock n). lia.
        -- intros c [<-|Hc]; [split; [now left|exact Ed]|].
           destruct (Hin c Hc) as [Hrest Hdue]. split; [now right|].
           destruct (decide (cmd = c)) as [->|Hne]; [exact Ed|].
           unfold is_due in *. now rewrite Hs, lookup_insert_ne in Hdue.
      * destruct Hs as (Hs & _). split; [exact Hnd|].
        intros c Hc. destruct (Hin c Hc) as [Hrest Hdue].
        split; [now right|]. now rewrite Hs in Hdue.
    + exists l1. split; [exact Hl1|]. rewrite Hd1.
      destruct (is_due now (last_sent w) cmd) eqn:Ed.
      * split; [apply NoDup_singleton|].
        intros c [<-|[]]. split; [now left|exact Ed].
      * split; [constructor|intros c []].
Qed.

(** X5.  A command that stands more than once in the list is dispatched at
    most once in a tick, as long as the clock does not fall 125 seconds
    behind the time of the tick: after its dispatch [last_sent] of the
    command is a fresh reading of the clock, and the later polls of the
    same tick find it not due.  The commands dispatched are commands of the
    list that were due when the tick began. *)
Theorem repeated_command_dispatched_once (v : source) (m : Miner) (now : Z)
    (w : World) :
  (forall n, (pos w <= n)%nat -> now - clock (env w) n < COMMAND_COOLDOWN) ->
  exists l,
    log (snd (tick_at v m now w)) = (log w ++ l)%list
    /\ NoDup (dispatched l)
    /\ forall c, In c (dispatched l) ->
         In c (commands m) /\ is_due now (last_sent w) c = true.
Proof. apply for_commands_dispatches_once. Qed.

Lemma repeated_command_dispatched_once_witness :
  exists l,
    log (snd (tick_at File_B_m twice_miner new_year
                (with_running true (new_world demo_env twice_miner))))
    = (log (with_running true (new_world demo_env twice_miner)) ++ l)%list
    /\ NoDup (dispatched l)
    /\ forall c, In c (dispatched l) ->
         In c (commands twice_miner)
         /\ is_due new_year
              (last_sent (with_running true (new_world demo_env twice_miner))) c
            = true.
Proof.
  apply (repeated_command_dispatched_once File_B_m twice_miner new_year
           (with_running true (new_world demo_env twice_miner))).
  intros n _.
  change (new_year - (Z.of_nat n * 250000 + new_year) < COMMAND_COOLDOWN).
  unfold COMMAND_COOLDOWN, seconds. lia.
Defined.

Example twice_miner_tick :
  dispatched (log (snd (tick_at File_B_m twice_miner new_year
                          (with_running true (new_world demo_env twice_miner)))))
  = ["/dice"].
Proof. vm_compute. reflexivity. Qed.

(** ** The summary over a session *)

Lemma run_keeps_consistent (v : source) (m : Miner) (fuel : nat) :
  keeps stays_consistent (run v m fuel).
Proof.
  pose proof ts_same_summary.
  unfold run. apply (keeps_bind _ stays_consistent_trans).
  - apply same_summary_stays_consistent, run_prologue_same_summary.
  - intros _. apply (run_after_prologue stays_consistent_refl stays_consistent_trans).
    + apply while_running_stays_consistent.
    + apply same_summary_stays_consistent, ts_same_summary.
    + intros e. apply same_summary_stays_consistent. unfold info. keeps_summary.
    + apply same_summary_stays_consistent, run_epilogue_same_summary.
Qed.

(** X6.  The totals and the waifu list of a summary that agree with its
    event log still do so after anything the session does to it: a whole
    run of the loop in either mode, with its simulated replies, however it
    ends; the handling of a message of the bot; [stop] and [start]. *)
Theorem session_keeps_summary_consistent (v : source) (m : Miner) (w : World) :
  consistent (summary w) ->
  (forall fuel, consistent (summary (snd (run v m fuel w))))
  /\ (forall rc text, consistent (summary (snd (bot_handler v rc text w))))
  /\ (forall sid cmd, consistent (summary (snd (simulate_send v sid cmd w))))
  /\ consistent (summary (snd (stop v w)))
  /\ consistent (summary (snd (start_B_m2 w))).
Proof.
  intros Hc. split; [|split; [|split; [|split]]].
  - intros fuel. now apply run_keeps_consistent.
  - intros rc text. now apply bot_handler_stays_consistent.
  - intros sid cmd. now apply simulate_send_stays_consistent.
  - destruct v; simpl; [exact Hc|]. unfold bind, get. simpl.
    destruct (running w); exact Hc.
  - unfold start_B_m2, bind, get. simpl. destruct (running w); exact Hc.
Qed.

Lemma session_keeps_summary_consistent_witness :
  consistent (summary (snd (run File_B_m demo_miner 3
                              (new_world demo_env demo_miner))))
  /\ berries_total (summary (snd (run File_B_m demo_miner 3
                                    (new_world demo_env demo_miner)))) = 42.
Proof.
  split; [|vm_compute; reflexivity].
  refine (proj1 (session_keeps_summary_consistent File_B_m demo_miner
                   (new_world demo_env demo_miner) _) 3%nat).
  repeat split.
Defined.

(** ** A message of the bot *)

Lemma bot_handler_run (v : source) (rc : RealClient) (text : string) (w : World) :
  bot_handler v rc text w
  = extract_and_record v (bot_line rc (stamp w) text)
      (with_log (log w ++ [BotText (bot_line rc (stamp w) text)])
         (with_pos (S (pos w)) w)).
Proof. reflexivity. Qed.

(** X7.  Handling a message of the bot touches the summary and the log and
    nothing else: the running flag, the cooldown map and the files written
    are as before, so that no message can stop the session or delay a
    command.  What it records is what the extractor finds in the whole log
    line, time stamp, session name and name of the bot included, and the
    events carry that line as their text.  It ends, if not normally, with
    the [ValueError] of the digit limit. *)
Theorem bot_handler_touches_summary_only (v : source) (rc : RealClient)
    (text : string) (w : World) :
  let line := bot_line rc (stamp w) text in
  let w' := snd (bot_handler v rc text w) in
  running w' = running w /\ last_sent w' = last_sent w
  /\ written w' = written w /\ tasks w' = tasks w /\ env w' = env w
  /\ (exists ob oc ow,
        summary w' = after_call line ob oc ow (summary w)
        /\ call_outcome v line ob oc ow)
  /\ (forall e, fst (bot_handler v rc text w) = Raised e ->
        e = ValueError_max_str_digits).
Proof.
  cbv zeta. rewrite bot_handler_run.
  set (line := bot_line rc (stamp w) text).
  set (w1 := with_log _ _).
  pose proof (extract_and_record_frame v line w1) as [He _ Hl Hw Ht _].
  split; [exact (extract_and_record_same_running v line w1)|].
  split; [exact Hl|]. split; [exact Hw|]. split; [exact Ht|]. split; [exact He|].
  split.
  - exact (extract_and_record_summary v line w1).
  - intros e H. destruct (extract_and_record v line w1) as [r w'] eqn:E.
    simpl in H. subst r. now apply extract_and_record_raised in E.
Qed.

(** ** The matcher finds what the pattern describes *)

Lemma append_cons (c : ascii) (s t : string) : String c s ++ t = String c (s ++ t).
Proof. reflexivity. Qed.

Lemma append_nil (t : string) : EmptyString ++ t = t.
Proof. reflexivity. Qed.

Lemma part_of_middle (a d b : string) : part_of d (a ++ d ++ b).
Proof. now exists a, b. Qed.

(** A character taken from the head of a string is taken from the head of
    any longer one. *)
Lemma eat_append (k : charset) (d d' s : string) :
  eat k d = Some d' -> eat k (d ++ s) = Some (d' ++ s).
Proof.
  intros (c & -> & _ & _ & Hc)%eat_split. rewrite string_append_assoc.
  apply Hc.
Qed.

Lemma eat_lit_append (x : ascii) (d d' s : string) :
  eat_lit x d = Some d' -> eat_lit x (d ++ s) = Some (d' ++ s).
Proof.
  intros (c & -> & _ & _ & Hc)%eat_lit_split. rewrite string_append_assoc.
  apply Hc.
Qed.

Lemma match_str_append {R} (p d s : string) (k : string -> option R) :
  same_nocase p d -> match_str p (d ++ s) k = k s.
Proof.
  induction 1 as [|pc p d d' He Hd IH]; [reflexivity|].
  cbn [match_str]. now rewrite (eat_lit_append _ _ _ s He).
Qed.

Section MatcherSound.
Context {R : Type}.

Lemma match_str_split (p s : string) (k : string -> option R) (res : R) :
  match_str p s k = Some res ->
  exists d s', s = d ++ s' /\ same_nocase p d /\ k s' = Some res.
Proof.
  revert s. induction p as [|pc p IH]; intros s H.
  - exists EmptyString, s. split; [reflexivity|]. split; [constructor|exact H].
  - cbn [match_str] in H.
    destruct (eat_lit pc s) as [s1|] eqn:E; [|discriminate].
    destruct (eat_lit_split _ _ _ E) as (c & -> & _ & _ & Hc).
    destruct (IH _ H) as (d & s' & -> & Hd & Hk).
    exists (c ++ d), s'. rewrite string_append_assoc.
    split; [reflexivity|]. split; [|exact Hk].
    eapply same_nocase_cons; [apply Hc|exact Hd].
Qed.

Lemma first_truthy_insert (i : nat) (d : string) (g : groups) :
  d <> EmptyString ->
  ((i < length g)%nat \/ first_truthy g <> None) ->
  first_truthy (<[i := Some d]> g) <> None.
Proof.
  intros Hd. revert i. induction g as [|o g IH]; intros i H.
  - destruct H as [H|H]; [cbn in H; lia|contradiction].
  - destruct i as [|i].
    + cbn [insert list_insert first_truthy]. destruct d; [contradiction|discriminate].
    + change (<[S i := Some d]> (o :: g)) with (o :: <[i := Some d]> g).
      cbn [first_truthy] in H |- *. destruct o as [[|c x]|];
        try discriminate; apply IH; (destruct H as [H|H]; [left; cbn in H; lia|now right]).
Qed.

(** A match consumes a string that the pattern describes and leaves, in
    the groups it sets, parts of the text that satisfy [Q]; the groups keep
    their number, and one of them is set and not empty at the end if the
    pattern sets one or one was before. *)
Lemma exec_sound (text : string) (Q : string -> Prop) (r : regex) :
  (forall d, Q d -> d <> EmptyString) ->
  groups_match Q r ->
  forall (s : string) (g : groups) (k : string -> groups -> option R) (res : R),
    (exists a, text = a ++ s) -> captured text Q g ->
    exec r s g k = Some res ->
    exists d s' g',
      s = d ++ s' /\ matches r d /\ captured text Q g'
      /\ length g' = length g
      /\ (sets_group (length g) r \/ first_truthy g <> None ->
          first_truthy g' <> None)
      /\ k s' g' = Some res.
Proof.
  intros HQ.
  induction r as [c|p|cs|r1 IH1 r2 IH2|r1 IH1 r2 IH2|r1 IH1|cs|cs|i r1 IH1];
    intros Hr s g k res Hs Hg H; cbn [exec] in H.
  - cbn [match_str] in H.
    destruct (eat_lit c s) as [s1|] eqn:E; [|discriminate].
    destruct (eat_lit_split _ _ _ E) as (c0 & -> & _ & _ & Hc).
    exists c0, s1, g.
    split; [reflexivity|]. split.
    { constructor. rewrite <- (string_append_nil_r c0) at 1. apply Hc. }
    repeat split; try assumption. now intros [[]|?].
  - apply match_str_split in H as (d & s' & -> & Hd & Hk).
    exists d, s', g. split; [reflexivity|]. split; [now constructor|].
    repeat split; try assumption. now intros [[]|?].
  - destruct (eat cs s) as [s1|] eqn:E; [|discriminate].
    destruct (eat_split _ _ _ E) as (c0 & -> & _ & _ & Hc).
    exists c0, s1, g.
    split; [reflexivity|]. split.
    { constructor. rewrite <- (string_append_nil_r c0) at 1. apply Hc. }
    repeat split; try assumption. now intros [[]|?].
  - destruct Hr as [Hr1 Hr2].
    destruct (IH1 Hr1 _ _ _ _ Hs Hg H)
      as (d1 & s1 & g1 & -> & Hm1 & Hg1 & Hl1 & Ht1 & H1).
    assert (Hs1 : exists a, text = a ++ s1).
    { destruct Hs as [a ->]. exists (a ++ d1). now rewrite string_append_assoc. }
    destruct (IH2 Hr2 _ _ _ _ Hs1 Hg1 H1)
      as (d2 & s2 & g2 & -> & Hm2 & Hg2 & Hl2 & Ht2 & H2).
    exists (d1 ++ d2), s2, g2. rewrite string_append_assoc.
    split; [reflexivity|]. split; [now constructor|].
    split; [assumption|]. split; [congruence|]. split; [|assumption].
    rewrite Hl1 in Ht2. cbn [sets_group]. intros [[?|?]|?]; auto.
  - destruct Hr as [Hr1 Hr2].
    destruct (exec r1 s g k) as [x|] eqn:E1.
    + injection H as ->.
      destruct (IH1 Hr1 _ _ _ _ Hs Hg E1)
        as (d & s' & g' & -> & Hm & Hg' & Hl & Ht & Hk).
      exists d, s', g'. split; [reflexivity|]. split; [now apply matches_Alt_l|].
      repeat split; try assumption. cbn [sets_group]. intros [[? ?]|?]; auto.
    + destruct (IH2 Hr2 _ _ _ _ Hs Hg H)
        as (d & s' & g' & -> & Hm & Hg' & Hl & Ht & Hk).
      exists d, s', g'. split; [reflexivity|]. split; [now apply matches_Alt_r|].
      repeat split; try assumption. cbn [sets_group]. intros [[? ?]|?]; auto.
  - cbn [groups_match] in Hr. destruct (exec r1 s g k) as [x|] eqn:E1.
    + injection H as ->.
      destruct (IH1 Hr _ _ _ _ Hs Hg E1)
        as (d & s' & g' & -> & Hm & Hg' & Hl & Ht & Hk).
      exists d, s', g'. split; [reflexivity|]. split; [now apply matches_Opt_some|].
      repeat split; try assumption. cbn [sets_group]. intros [[]|?]; auto.
    + exists EmptyString, s, g. split; [reflexivity|]. split; [constructor|].
      repeat split; try assumption. now intros [[]|?].
  - apply plus_greedy_inv in H as (d & s' & -> & Hne & Hall & Hk).
    exists d, s', g. split; [reflexivity|]. split; [now constructor|].
    repeat split; try assumption. now intros [[]|?].
  - apply plus_lazy_inv in H as (d & s' & -> & Hne & Hall & Hk).
    exists d, s', g. split; [reflexivity|]. split; [now constructor|].
    repeat split; try assumption. now intros [[]|?].
  - destruct Hr as [HQr Hr1].
    destruct (IH1 Hr1 _ _ _ _ Hs Hg H)
      as (d & s' & g' & -> & Hm & Hg' & Hl & Ht & Hk).
    rewrite consumed_append in Hk.
    exists d, s', (set_group i d g'). split; [reflexivity|].
    split; [now constructor|]. unfold set_group. split; [|split; [|split]].
    + apply Forall_insert; [exact Hg'|]. split.
      * destruct Hs as [a ->]. apply part_of_middle.
      * now apply HQr.
    + etransitivity; [apply length_insert|exact Hl].
    + cbn [sets_group]. intros Hset. apply first_truthy_insert.
      * now apply HQ, HQr.
      * rewrite Hl. destruct Hset as [?|?]; [now left|right; apply Ht; now right].
    + exact Hk.
Qed.
End MatcherSound.

Lemma replicate_None_captured (text : string) (Q : string -> Prop) (n : nat) :
  captured text Q (replicate n None).
Proof. apply Forall_replicate. exact I. Qed.

Lemma search_sound (Q : string -> Prop) (p : pattern) (text : string) (g : groups) :
  (forall d, Q d -> d <> EmptyString) ->
  groups_match Q (syntax p) -> search p text = Some g ->
  captured text Q g
  /\ (sets_group (ngroups p) (syntax p) -> first_truthy g <> None).
Proof.
  intros HQ Hp.
  assert (Hat : forall s a, text = a ++ s -> match_at p s = Some g ->
            captured text Q g
            /\ (sets_group (ngroups p) (syntax p) -> first_truthy g <> None)).
  { intros s a Ha E. unfold match_at in E.
    apply (exec_sound text Q _ HQ Hp) in E
      as (_ & _ & g' & _ & _ & Hg' & _ & Ht & [= <-]);
      [|eauto|apply replicate_None_captured].
    split; [assumption|]. intros Hset. apply Ht. left.
    now rewrite length_replicate. }
  assert (H : forall s a, text = a ++ s -> search p s = Some g ->
            captured text Q g
            /\ (sets_group (ngroups p) (syntax p) -> first_truthy g <> None)).
  { induction s as [|c s IH]; intros a Ha; cbn [search].
    - destruct (match_at p EmptyString) as [x|] eqn:E; [|discriminate].
      intros [= <-]. exact (Hat _ _ Ha E).
    - destruct (match_at p (String c s)) as [x|] eqn:E.
      + intros [= <-]. exact (Hat _ _ Ha E).
      + apply (IH (a ++ String c EmptyString)).
        now rewrite string_append_assoc. }
  apply (H text EmptyString). reflexivity.
Qed.

Lemma first_truthy_captured (text : string) (Q : string -> Prop) (g : groups)
    (d : string) :
  captured text Q g -> first_truthy g = Some d -> part_of d text /\ Q d.
Proof.
  induction 1 as [|o g Ho Hg IH]; cbn [first_truthy]; [discriminate|].
  destruct o as [[|c x]|]; auto. intros [= <-]. exact Ho.
Qed.

Lemma found_sound (Q : string -> Prop) (p : pattern) (text d : string) :
  (forall d, Q d -> d <> EmptyString) ->
  groups_match Q (syntax p) -> found p text = Some d -> part_of d text /\ Q d.
Proof.
  intros HQ Hp. unfold found.
  destruct (search p text) as [g|] eqn:E; [|discriminate].
  apply first_truthy_captured. exact (proj1 (search_sound Q p text g HQ Hp E)).
Qed.

Lemma decimal_digits_nonempty (d : string) : decimal_digits d -> d <> EmptyString.
Proof. now intros [? _]. Qed.

Lemma waifu_name_nonempty (d : string) : waifu_name d -> d <> EmptyString.
Proof.
  intros (x & tail & -> & Hx & _). destruct x; [contradiction|discriminate].
Qed.

Lemma matches_Plus_digits (cs : charset) (d : string) :
  digit_charset cs -> matches (Plus cs) d -> decimal_digits d.
Proof.
  intros Hcs H. inversion H; subst. split; [assumption|].
  now apply (made_of_impl cs).
Qed.

Lemma RE_BERRIES_groups (v : source) :
  groups_match decimal_digits (syntax (RE_BERRIES v)).
Proof.
  destruct v; cbn; repeat split; try exact I; intros;
    (eapply matches_Plus_digits; [apply digit_charset_Digit|eassumption]).
Qed.

Lemma RE_CRYSTALS_groups (v : source) :
  groups_match decimal_digits (syntax (RE_CRYSTALS v)).
Proof.
  destruct v; cbn; repeat split; try exact I; intros;
    (eapply matches_Plus_digits; [|eassumption];
     first [apply digit_charset_Digit | apply digit_charset_0_9]).
Qed.

Lemma matches_waifu_name (d : string) :
  matches (Cat (PlusLazy AnyButNewline) (Str " Waifu")) d -> waifu_name d.
Proof.
  intros H. inversion H as [| | |r1 r2 d1 d2 H1 H2| | | | | | |]; subst.
  inversion H1; subst. inversion H2; subst.
  exists d1, d2. auto.
Qed.

Lemma RE_WAIFU_groups (v : source) : groups_match waifu_name (syntax (RE_WAIFU v)).
Proof.
  destruct v; cbn; repeat split; try exact I; intros;
    now apply matches_waifu_name.
Qed.

(** X8.  Whatever a call of [extract_and_record] adds to the event log was
    written in the text: the amount of a berries or crystals event is the
    value of a run of decimal digits, of whatever script, that stands in
    the text, and the name of a waifu event is a part of the text made of
    at least one character other than a newline, followed by [" Waifu"] in
    any case.  The event carries the text it was found in. *)
Theorem recorded_values_are_in_the_text (v : source) (text : string) (w : World)
    (e : Event) :
  In e (events (summary (snd (extract_and_record v text w)))) ->
  In e (events (summary w))
  \/ (event_text e = text
      /\ match e with
         | Berries _ n _ | Crystals _ n _ =>
             exists d, part_of d text /\ decimal_digits d /\ int_value d = Ok n
         | Waifu _ name _ => part_of name text /\ waifu_name name
         end).
Proof.
  destruct (extract_and_record_summary v text w)
    as (ob & oc & ow & -> & Hb & Hc & Hw).
  cbn [events after_call]. rewrite !in_app_iff.
  intros [Hold|[He|[He|He]]]; [now left| | |]; right.
  - destruct ob as [[t n]|]; [|contradiction]. destruct He as [<-|[]].
    split; [reflexivity|]. destruct (Hb t n eq_refl) as (d & Hd & Hn).
    exists d.
    destruct (found_sound decimal_digits _ _ _ decimal_digits_nonempty
                (RE_BERRIES_groups v) Hd).
    auto.
  - destruct oc as [[t n]|]; [|contradiction]. destruct He as [<-|[]].
    split; [reflexivity|]. destruct (Hc t n eq_refl) as (d & Hd & Hn).
    exists d.
    destruct (found_sound decimal_digits _ _ _ decimal_digits_nonempty
                (RE_CRYSTALS_groups v) Hd).
    auto.
  - destruct ow as [[[t t'] name]|]; [|contradiction]. destruct He as [<-|[]].
    split; [reflexivity|].
    exact (found_sound waifu_name _ _ _ waifu_name_nonempty (RE_WAIFU_groups v)
             (Hw t t' name eq_refl)).
Qed.

Lemma recorded_values_are_in_the_text_witness :
  part_of "Sakura Waifu" "You obtained Sakura Waifu" /\ waifu_name "Sakura Waifu".
Proof.
  destruct (recorded_values_are_in_the_text File_B_m "You obtained Sakura Waifu"
              demo_world
              (Waifu "2025-01-01 00:00:00" "Sakura Waifu"
                 "You obtained Sakura Waifu"))
    as [[]|[_ H]]; [|exact H].
  vm_compute. left. reflexivity.
Defined.

(** ** The reply to [/explore] is read back *)

Lemma search_skip (p : pattern) (c : ascii) (s : string) :
  match_at p (String c s) = None -> search p (String c s) = search p s.
Proof. intros H. cbn [search]. now rewrite H. Qed.

Lemma match_at_stamp_char (v : source) (c : ascii) (s : string) :
  stamp_char c = true ->
  match_at (RE_BERRIES v) (String c s) = None
  /\ match_at (RE_WAIFU v) (String c s) = None.
Proof.
  destruct v; destruct c as [[] [] [] [] [] [] [] []]; intros H;
    try (vm_compute in H; discriminate H); split; reflexivity.
Qed.

Lemma search_after_stamp (v : source) (st rest : string) :
  all_chars stamp_char st = true ->
  search (RE_BERRIES v) (st ++ rest) = search (RE_BERRIES v) rest
  /\ search (RE_WAIFU v) (st ++ rest) = search (RE_WAIFU v) rest.
Proof.
  induction st as [|c st IH]; [split; reflexivity|].
  cbn [all_chars]. intros [Hc Hs]%andb_prop. destruct (IH Hs) as [IHb IHw].
  rewrite append_cons. destruct (match_at_stamp_char v c (st ++ rest) Hc) as [Hb Hw].
  rewrite (search_skip _ _ _ Hb), (search_skip _ _ _ Hw). auto.
Qed.

(** The characters of a time stamp are ASCII, none of them a [c], and the
    only one that is taken for a blank is the blank. *)
Lemma stamp_char_cases (c : ascii) :
  stamp_char c = true ->
  (code c < 128)%N
  /\ eq_nocase "c" (code c) = false
  /\ (eq_nocase " " (code c) = true -> c = " "%char).
Proof.
  destruct c as [[] [] [] [] [] [] [] []]; intros H;
    try (vm_compute in H; discriminate H);
    (split; [reflexivity|split;
       first [reflexivity | intros H'; vm_compute in H'; discriminate H']]).
Qed.

Lemma eat_ascii (k : charset) (c : ascii) (s : string) :
  (code c < 128)%N ->
  eat k (String c s) = if in_charset k (code c) then Some s else None.
Proof. intros H. unfold eat. now rewrite decode_ascii. Qed.

Lemma match_str_ascii {R} (pc : ascii) (p : string) (c : ascii) (s : string)
    (k : string -> option R) :
  (code c < 128)%N ->
  match_str (String pc p) (String c s) k
  = if eq_nocase pc (code c) then match_str p s k else None.
Proof.
  intros H. cbn [match_str]. unfold eat_lit. rewrite decode_ascii by exact H.
  destruct (eq_nocase pc (code c)); reflexivity.
Qed.

Section CrystalsAfterStampChars.
Variable rest : string.
Hypothesis rest_no_digit : eat (Range "0" "9") rest = None.
Hypothesis rest_no_space_Crystals :
  forall k : string -> option groups, match_str " Crystals" rest k = None.
Hypothesis rest_no_Crystals :
  forall k : string -> option groups, match_str "Crystals" rest k = None.

Lemma no_Crystals_after_stamp_chars (u : string) (k : string -> option groups) :
  all_chars stamp_char u = true -> match_str " Crystals" (u ++ rest) k = None.
Proof.
  destruct u as [|c u]; [intros _; apply rest_no_space_Crystals|].
  cbn [all_chars]. intros [Hc Hu]%andb_prop. rewrite append_cons.
  destruct (stamp_char_cases c Hc) as (Hascii & _ & _).
  rewrite match_str_ascii by exact Hascii.
  destruct (eq_nocase " " (code c)) eqn:Ec; [|reflexivity].
  destruct u as [|c' u]; [apply rest_no_Crystals|].
  cbn [all_chars] in Hu. apply andb_prop in Hu as [Hc' _]. rewrite append_cons.
  destruct (stamp_char_cases c' Hc') as (Hascii' & Hno & _).
  rewrite match_str_ascii by exact Hascii'.
  change (eq_nocase "C" (code c')) with (eq_nocase "c" (code c')).
  now rewrite Hno.
Qed.

Lemma no_amount_of_Crystals (u : string)
    (k : string -> string -> option groups) :
  all_chars stamp_char u = true ->
  forall n : nat,
    plus_greedy n (Range "0" "9") (u ++ rest)
      (fun s' => match_str " Crystals" s' (k s')) = None.
Proof.
  induction u as [|c u IH].
  { intros _ [|n]; [reflexivity|]. rewrite append_nil. cbn [plus_greedy].
    now rewrite rest_no_digit. }
  cbn [all_chars]. intros [Hc Hu]%andb_prop n. rewrite append_cons.
  destruct n as [|n]; [reflexivity|]. cbn [plus_greedy].
  destruct (stamp_char_cases c Hc) as (Hascii & _ & _).
  rewrite eat_ascii by exact Hascii.
  destruct (in_charset _ (code c)); [|reflexivity].
  rewrite (IH Hu). now apply no_Crystals_after_stamp_chars.
Qed.

Lemma match_at_RE_CRYSTALS_stamp_char (v : source) (c : ascii) (u : string) :
  all_chars stamp_char (String c u) = true ->
  match_at (RE_CRYSTALS v) (String c u ++ rest) = None.
Proof.
  intros Hu. pose proof Hu as Hcu. cbn [all_chars] in Hcu.
  apply andb_prop in Hcu as [Hc _].
  assert (H1 : forall (n : nat) (k : string -> string -> option groups),
            plus_greedy n (Range "0" "9") (String c u ++ rest)
              (fun s' => match_str " Crystals" s' (k s')) = None)
    by (intros n k; now apply no_amount_of_Crystals).
  assert (H2 : forall k : string -> option groups,
            match_str "crystal" (String c u ++ rest) k = None).
  { intros k. rewrite append_cons.
    destruct (stamp_char_cases c Hc) as (Hascii & Hno & _).
    rewrite match_str_ascii by exact Hascii. now rewrite Hno. }
  destruct v; unfold match_at; cbn [syntax ngroups RE_CRYSTALS B_m.RE_CRYSTALS
    B_m2.RE_CRYSTALS exec];
    rewrite H2;
    match goal with
    | |- match plus_greedy ?n _ _ ?f with _ => _ end = _ =>
        rewrite (H1 n (fun s' s'' =>
                         Some (set_group 1 (consumed (String c u ++ rest) s')
                                 (replicate 2 None))))
    end; reflexivity.
Qed.

Lemma search_RE_CRYSTALS_after_stamp_chars (v : source) (u : string) :
  all_chars stamp_char u = true ->
  search (RE_CRYSTALS v) (u ++ rest) = search (RE_CRYSTALS v) rest.
Proof.
  induction u as [|c u IH]; [reflexivity|].
  intros Hu. pose proof (match_at_RE_CRYSTALS_stamp_char v c u Hu) as Hm.
  rewrite append_cons in Hm |- *. rewrite (search_skip _ _ _ Hm).
  apply IH. cbn [all_chars] in Hu. now apply andb_prop in Hu as [_ ?].
Qed.
End CrystalsAfterStampChars.

Ltac skip_literal :=
  repeat rewrite append_cons; rewrite ?append_nil;
  repeat (rewrite search_skip by reflexivity).

Lemma search_in_explore_reply (v : source) (tail : string) :
  let lit :=
    match v with
    | File_B_m => " [simulated session]: /explore result: 🎉 You uncovered ancient ruins and "
    | File_B_m2 => " [simulated session]: /explore result: 🎉 You uncovered ruins and "
    end in
  search (RE_BERRIES v) (lit ++ "discovered " ++ tail)
  = search (RE_BERRIES v) ("discovered " ++ tail)
  /\ search (RE_CRYSTALS v) (lit ++ "discovered " ++ tail)
     = search (RE_CRYSTALS v) tail
  /\ search (RE_WAIFU v) (lit ++ "discovered " ++ tail)
     = search (RE_WAIFU v) tail.
Proof.
  destruct v; cbv zeta; (split; [|split]); skip_literal; reflexivity.
Qed.

(** [k+] takes all of a run that is followed by no character of [k]. *)
Lemma plus_greedy_all {R} (cs : charset) (d rest : string)
    (k : string -> option R) (r : R) :
  d <> EmptyString -> made_of cs d ->
  eat cs rest = None ->
  k rest = Some r ->
  plus_greedy (String.length (d ++ rest)) cs (d ++ rest) k = Some r.
Proof.
  intros Hne Hall Hrest Hk. induction Hall as [|s s' He Hs IH]; [contradiction|].
  rewrite plus_greedy_eq, (eat_append _ _ _ rest He).
  destruct s' as [|c s'].
  - rewrite append_nil, plus_greedy_eq, Hrest. exact Hk.
  - rewrite IH; [reflexivity|discriminate].
Qed.

(** The digits that [str] writes are decimal digits. *)
Lemma is_digit_code (c : ascii) :
  is_digit c = true -> (48 <= code c <= 57)%N.
Proof.
  unfold is_digit, between. intros [H1 H2]%andb_prop.
  apply N.leb_le in H1, H2. lia.
Qed.

Lemma digits_made_of (d : string) :
  all_chars is_digit d = true -> made_of Digit d.
Proof.
  induction d as [|c d IH]; [constructor|].
  cbn [all_chars]. intros [Hc Hd]%andb_prop. apply is_digit_code in Hc.
  eapply made_of_cons; [|exact (IH Hd)].
  rewrite eat_ascii by lia. cbn [in_charset].
  now rewrite is_decimal_ascii_digit.
Qed.

Lemma digits_stamp_chars (d : string) :
  all_chars is_digit d = true -> all_chars stamp_char d = true.
Proof.
  apply all_chars_impl. intros c Hc. unfold stamp_char. now rewrite Hc.
Qed.

(** The three patterns on the reply to ['/explore']. *)
Lemma found_in_explore_reply (v : source) (time shown : string) :
  all_chars stamp_char time = true -> digits shown ->
  found (RE_BERRIES v) (explore_reply v time shown) = Some shown
  /\ found (RE_CRYSTALS v) (explore_reply v time shown) = None
  /\ found (RE_WAIFU v) (explore_reply v time shown) = None.
Proof.
  intros Htime [Hne Hdig].
  set (lit := match v with
              | File_B_m => " [simulated session]: /explore result: 🎉 You uncovered ancient ruins and "
              | File_B_m2 => " [simulated session]: /explore result: 🎉 You uncovered ruins and "
              end).
  assert (Htext : explore_reply v time shown
                  = time ++ lit ++ "discovered " ++ shown ++ " Berries! 💰")
    by (destruct v; reflexivity).
  rewrite Htext.
  destruct (search_in_explore_reply v (shown ++ " Berries! 💰")) as (Lb & Lc & Lw).
  fold lit in Lb, Lc, Lw.
  destruct (search_after_stamp v time (lit ++ "discovered " ++ shown ++ " Berries! 💰")
              Htime) as [Sb Sw].
  destruct (search_after_stamp v shown " Berries! 💰" (digits_stamp_chars _ Hdig))
    as [_ Tw].
  unfold found. split; [|split].
  - rewrite Sb, Lb.
    assert (Hm : match_at (RE_BERRIES v) ("discovered " ++ shown ++ " Berries! 💰")
                 = Some [Some shown; None; None]).
    { assert (Hg : plus_greedy (String.length (shown ++ " Berries! 💰")) Digit
                     (shown ++ " Berries! 💰")
                     (fun s' => match_str " Berries" s'
                                  (fun _ => Some (set_group 1
                                    (consumed (shown ++ " Berries! 💰") s')
                                    (replicate 3 None))))
                   = Some [Some shown; None; None]).
      { apply plus_greedy_all;
          [assumption|now apply digits_made_of|reflexivity|].
        rewrite consumed_append. reflexivity. }
      assert (Hlit : same_nocase "discovered " "discovered ")
        by (repeat (eapply same_nocase_cons; [reflexivity|]); constructor).
      destruct v; unfold match_at;
        cbn [syntax ngroups RE_BERRIES B_m.RE_BERRIES B_m2.RE_BERRIES exec];
        rewrite (match_str_append "discovered " "discovered ") by exact Hlit;
        rewrite Hg; reflexivity. }
    repeat rewrite append_cons in Hm |- *. rewrite append_nil in Hm |- *.
    cbn [search]. rewrite Hm. destruct shown; [contradiction|reflexivity].
  - rewrite (search_RE_CRYSTALS_after_stamp_chars
               (lit ++ "discovered " ++ shown ++ " Berries! 💰")); [|..|exact Htime].
    + rewrite Lc.
      rewrite (search_RE_CRYSTALS_after_stamp_chars " Berries! 💰");
        [destruct v; reflexivity|reflexivity|reflexivity|reflexivity|].
      now apply digits_stamp_chars.
    + destruct v; reflexivity.
    + intros k. destruct v; reflexivity.
    + intros k. destruct v; reflexivity.
  - rewrite Sw, Lw, Tw. destruct v; reflexivity.
Qed.

(** The decimal form of a number drawn is read back as that number. *)
Lemma decimal_of_draw_read_back (r : Z) :
  let n := 5 + r mod (800 - 5 + 1) in
  5 <= n <= 800 /\ digits (decimal n) /\ int_value (decimal n) = Ok n.
Proof.
  cbv zeta.
  assert (Hr : 0 <= r mod (800 - 5 + 1) < 796) by (apply Z.mod_pos_bound; lia).
  split; [lia|].
  assert (H : forallb (fun i =>
                let d := decimal (5 + Z.of_nat i) in
                negb (String.eqb d EmptyString) && all_chars is_digit d
                && match int_value d with
                   | Ok n => n =? 5 + Z.of_nat i
                   | Raised _ => false
                   end)
                (seq 0 796) = true) by (vm_compute; reflexivity).
  rewrite forallb_forall in H.
  assert (Hin : In (Z.to_nat (r mod (800 - 5 + 1))) (seq 0 796))
    by (apply in_seq; lia).
  specialize (H _ Hin). cbv zeta in H. rewrite Z2Nat.id in H by lia.
  apply andb_prop in H as [H Hint]. apply andb_prop in H as [Hne Hall].
  split; [split|].
  - intros E. rewrite E in Hne. discriminate.
  - exact Hall.
  - destruct (int_value _) as [n|e]; [|discriminate].
    apply Z.eqb_eq in Hint. now subst n.
Qed.

(** What [simulate_send] does with ['/explore'] once its sleep is over and
    the world is [w1]: it draws a number, writes the reply and hands it to
    the extractor, which finds the number and nothing else. *)
Lemma simulate_send_explore_after_sleep (v : source) (sid : string)
    (w w1 : World) :
  await w = (Ok tt, w1) -> stamp_format (env w1) ->
  let n := 5 + random (env w1) (pos w1) mod (800 - 5 + 1) in
  let time := strftime (env w1) (clock (env w1) (S (pos w1))) in
  let text := explore_reply v time (decimal n) in
  let time' := strftime (env w1) (clock (env w1) (S (S (pos w1)))) in
  env (snd (simulate_send v sid "/explore" w)) = env w1
  /\ summary (snd (simulate_send v sid "/explore" w))
     = append_event (Berries time' n text) (add_berries n (summary w1))
  /\ (fst (simulate_send v sid "/explore" w) = Ok text
      \/ fst (simulate_send v sid "/explore" w) = Raised ValueError_max_str_digits
         /\ str_limit <= Z.abs (berries_total (summary w1) + n)).
Proof.
  intros Hsleep Hfmt. cbv zeta.
  set (n := 5 + random (env w1) (pos w1) mod (800 - 5 + 1)).
  set (time := strftime (env w1) (clock (env w1) (S (pos w1)))).
  destruct (decimal_of_draw_read_back (random (env w1) (pos w1)))
    as (Hn & Hdig & Hint). fold n in Hn, Hdig, Hint.
  destruct (found_in_explore_reply v time (decimal n) (Hfmt _) Hdig)
    as (Fb & Fc & Fw).
  assert (Hrun : simulate_send v sid "/explore" w
                 = (let w5 := with_log (log w1 ++ [SimSent sid "/explore";
                                                   SimText (explore_reply v time (decimal n))])
                                (with_pos (S (S (pos w1))) w1) in
                    match extract_and_record v (explore_reply v time (decimal n)) w5 with
                    | (Ok _, w6) => (Ok (explore_reply v time (decimal n)), w6)
                    | (Raised e, w6) => (Raised e, w6)
                    end)).
  { destruct v; unfold simulate_send, B_m.simulate_send, B_m2.simulate_send;
      unfold bind at 1; rewrite Hsleep;
      unfold randint, ts, datetime_now, info, str;
      unfold bind, update, ask, get, lift, ret;
      cbn [String.eqb Ascii.eqb Bool.eqb pos env log with_pos with_log fst snd];
      rewrite (str_value_of_draw (random (env w1) (pos w1))); fold n;
      fold time; rewrite <- app_assoc; reflexivity. }
  rewrite Hrun. cbv zeta.
  set (text := explore_reply v time (decimal n)) in *.
  set (w5 := with_log _ _).
  rewrite extract_and_record_blocks. unfold bind, when_found.
  rewrite Fb, Fc, Fw, record_amount_run, Hint. cbv zeta.
  change (summary (amount_recorded Berries add_berries n text w5))
    with (append_event (Berries (strftime (env w1) (clock (env w1) (S (S (pos w1)))))
                          n text) (add_berries n (summary w1))).
  cbn [berries_total append_event add_berries].
  destruct (str_value (berries_total (summary w1) + n)) as [shown|e] eqn:Es.
  - split; [reflexivity|]. split; [reflexivity|]. now left.
  - apply str_value_raised in Es as [-> Hlim].
    split; [reflexivity|]. split; [reflexivity|]. right. auto.
Qed.

Lemma await_run (w : World) :
  env (snd (await w)) = env w /\ summary (snd (await w)) = summary w
  /\ (operator (env w) (pos w) = NoRequest ->
      await w = (Ok tt, with_pos (S (pos w)) w)).
Proof.
  unfold await, bind, ask. cbn [fst snd env pos].
  destruct (operator (env w) (pos w)); repeat split; discriminate.
Qed.

(** X9.  The reply of the simulation to ['/explore'] is read back by the
    extractor as what was drawn.  When the sleep is not disturbed and the
    time stamps are made of digits, dashes, colons and spaces, the call
    draws a number from 5 to 800, and the reply it writes records exactly
    one event, a berries event of that amount with the reply as its text;
    the berries total grows by the amount, and the crystals total and the
    waifu list stay as they are.  The call returns the reply, unless the
    new total has reached the digit limit. *)
Theorem simulated_explore_is_read_back (v : source) (sid : string) (w : World) :
  stamp_format (env w) -> operator (env w) (pos w) = NoRequest ->
  let n := 5 + random (env w) (S (pos w)) mod (800 - 5 + 1) in
  let text :=
    explore_reply v (strftime (env w) (clock (env w) (2 + pos w))) (decimal n) in
  5 <= n <= 800
  /\ summary (snd (simulate_send v sid "/explore" w))
     = {| berries_total := berries_total (summary w) + n;
          crystals_total := crystals_total (summary w);
          waifus := waifus (summary w);
          events := events (summary w)
                    ++ [Berries (strftime (env w) (clock (env w) (3 + pos w)))
                          n text] |}
  /\ (Z.abs (berries_total (summary w) + n) < str_limit ->
      fst (simulate_send v sid "/explore" w) = Ok text).
Proof.
  intros Hfmt Hop. cbv zeta.
  destruct (await_run w) as (_ & _ & Hsleep). specialize (Hsleep Hop).
  destruct (simulate_send_explore_after_sleep v sid w _ Hsleep Hfmt)
    as (_ & Hs & Hr).
  cbn [env pos with_pos summary] in Hs, Hr.
  split; [|split].
  - assert (0 <= random (env w) (S (pos w)) mod (800 - 5 + 1) < 796)
      by (apply Z.mod_pos_bound; lia).
    lia.
  - rewrite Hs. reflexivity.
  - intros Hroom. destruct Hr as [Hr|[_ Hlim]]; [exact Hr|lia].
Qed.

Lemma simulated_explore_is_read_back_witness :
  summary (snd (simulate_send File_B_m "demo" "/explore" running_demo_world))
  = {| berries_total := 42; crystals_total := 0; waifus := [];
       events :=
         [Berries "2025-01-01 00:00:00" 42
            "2025-01-01 00:00:00 [simulated session]: /explore result: 🎉 You uncovered ancient ruins and discovered 42 Berries! 💰"] |}.
Proof.
  destruct (simulated_explore_is_read_back File_B_m "demo" running_demo_world)
    as (_ & Hs & _).
  - intros t. reflexivity.
  - reflexivity.
  - rewrite Hs. vm_compute. reflexivity.
Defined.

(** ** What the loop records *)


















(** ** Matching ignores the case of letters *)

(** The lower case of an ASCII letter, on the code of a character. *)
Lemma code_lower (c : ascii) :
  code (lower c)
  = if (65 <=? code c)%N && (code c <=? 90)%N then (code c + 32)%N else code c.
Proof. destruct c as [[] [] [] [] [] [] [] []]; reflexivity. Qed.

Lemma code_inj (a b : ascii) : code a = code b -> a = b.
Proof.
  unfold code. intros H.
  rewrite <- (ascii_N_embedding a), <- (ascii_N_embedding b). now rewrite H.
Qed.

(** Two bytes with the same lower case are the same byte, or two ASCII
    letters. *)
Lemma byte_alike (a b : ascii) :
  lower a = lower b ->
  a = b
  \/ ((code a < 128)%N /\ (code b < 128)%N /\ a <> b
      /\ lower_point (code a) = lower_point (code b)
      /\ (97 <= lower_point (code a) <= 122)%N).
Proof.
  intros H. apply (f_equal code) in H. rewrite !code_lower in H.
  unfold lower_point.
  assert (Hbyte : forall c : ascii, (code c < 256)%N).
  { intros c. unfold code. apply N_ascii_bounded. }
  pose proof (Hbyte a). pose proof (Hbyte b).
  destruct (N.leb_spec 65 (code a)), (N.leb_spec (code a) 90),
    (N.leb_spec 65 (code b)), (N.leb_spec (code b) 90);
    cbn [andb] in H |- *;
    try (left; apply code_inj; lia);
    right;
    try (destruct (N.eqb_spec (code a) 304); [lia|]);
    try (destruct (N.eqb_spec (code a) 8490); [lia|]);
    try (destruct (N.eqb_spec (code b) 304); [lia|]);
    try (destruct (N.eqb_spec (code b) 8490); [lia|]);
    (repeat split; try lia; intros ->; lia).
Qed.

Lemma same_up_to_case_cons (c c' : ascii) (s t : string) :
  same_up_to_case (String c s) (String c' t) <->
  lower c = lower c' /\ same_up_to_case s t.
Proof.
  unfold same_up_to_case. cbn [casefold]. split.
  - intros [= ? ?]. auto.
  - intros [-> ->]. reflexivity.
Qed.

Lemma same_up_to_case_length (s t : string) :
  same_up_to_case s t -> String.length s = String.length t.
Proof.
  revert t. induction s as [|c s IH]; intros [|c' t] H; try discriminate.
  - reflexivity.
  - apply same_up_to_case_cons in H as [_ H]. cbn [String.length].
    now rewrite (IH t H).
Qed.

Lemma casefold_substring (n m : nat) (s : string) :
  casefold (substring n m s) = substring n m (casefold s).
Proof.
  revert n m. induction s as [|c s IH]; intros n m.
  - destruct n, m; reflexivity.
  - destruct n as [|n]; [destruct m as [|m]|]; cbn [substring casefold];
      [reflexivity|now rewrite IH|apply IH].
Qed.

Lemma consumed_alike (s t s1 t1 : string) :
  same_up_to_case s t -> same_up_to_case s1 t1 ->
  same_up_to_case (consumed s s1) (consumed t t1).
Proof.
  intros H H1. unfold same_up_to_case, consumed.
  rewrite !casefold_substring.
  rewrite (same_up_to_case_length _ _ H), (same_up_to_case_length _ _ H1).
  now rewrite H.
Qed.

(** A byte of a character of several bytes is no letter: it is the same in
    both texts. *)
Lemma high_byte_alike (a b : ascii) :
  lower a = lower b -> (128 <= code a)%N \/ (128 <= code b)%N -> a = b.
Proof.
  intros H Hhigh. destruct (byte_alike a b H) as [?|(Ha & Hb & _)];
    [assumption|lia].
Qed.

Lemma continuation_high (b : ascii) : continuation b = true -> (128 <= code b)%N.
Proof.
  unfold continuation, between. intros [H _]%andb_prop. now apply N.leb_le.
Qed.

Lemma decode_alike (s t : string) :
  same_up_to_case s t ->
  match decode s with
  | Some (p, s') =>
      exists q t',
        decode t = Some (q, t') /\ alike_points p q /\ same_up_to_case s' t'
        /\ (p = q -> exists c, s = c ++ s' /\ t = c ++ t')
  | None => decode t = None
  end.
Proof.
  destruct s as [|a s1], t as [|a' t1]; try discriminate; [reflexivity|].
  intros [Ha Hst]%same_up_to_case_cons.
  destruct (N.ltb_spec (code a) 128) as [Hlow|Hhigh].
  - (* an ASCII byte *)
    assert (Hlow' : (code a' < 128)%N).
    { destruct (byte_alike a a' Ha) as [<-|(_ & ? & _)]; assumption. }
    rewrite (decode_ascii a s1 Hlow), (decode_ascii a' t1 Hlow').
    exists (code a'), t1. split; [reflexivity|]. split; [|split; [exact Hst|]].
    + destruct (byte_alike a a' Ha) as [<-|(_ & _ & _ & Hl & Hr)];
        [now left|right; auto].
    + intros Hc%code_inj. subst a'. exists (String a EmptyString). auto.
  - (* the first byte of a longer character *)
    assert (a' = a) as -> by (symmetry; apply (high_byte_alike a a' Ha); auto).
    unfold decode.
    assert (Ea : (code a <? 128)%N = false) by (apply N.ltb_ge; exact Hhigh).
    rewrite Ea.
    destruct (between 194 223 a).
    { destruct s1 as [|b s2], t1 as [|b' t2];
        try (apply same_up_to_case_length in Hst; discriminate Hst);
        [reflexivity|].
      apply same_up_to_case_cons in Hst as [Hb Hst].
      destruct (continuation b) eqn:Eb.
      - assert (b' = b) as ->
          by (symmetry; apply (high_byte_alike b b' Hb); left;
              now apply continuation_high).
        rewrite Eb. eexists _, _. split; [reflexivity|]. split; [now left|].
        split; [exact Hst|]. intros _.
        exists (String a (String b EmptyString)). auto.
      - destruct (continuation b') eqn:Eb'; [|reflexivity].
        assert (b = b')
          by (apply (high_byte_alike b b' Hb); right;
              now apply continuation_high).
        congruence. }
    destruct (between 224 239 a).
    { destruct s1 as [|b [|c s3]], t1 as [|b' [|c' t3]];
        try (apply same_up_to_case_length in Hst; discriminate Hst);
        try reflexivity.
      - apply same_up_to_case_cons in Hst as [Hb Hst].
        apply same_up_to_case_cons in Hst as [Hc Hst]. cbv zeta.
        destruct (continuation b) eqn:Eb.
        + assert (b' = b) as ->
            by (symmetry; apply (high_byte_alike b b' Hb); left;
                now apply continuation_high).
          rewrite Eb. destruct (continuation c) eqn:Ec.
          * assert (c' = c) as ->
              by (symmetry; apply (high_byte_alike c c' Hc); left;
                  now apply continuation_high).
            rewrite Ec. destruct (_ && _) eqn:Eok.
            -- eexists _, _. split; [reflexivity|]. split; [now left|].
               split; [exact Hst|]. intros _.
               exists (String a (String b (String c EmptyString))). auto.
            -- reflexivity.
          * destruct (continuation c') eqn:Ec'; [|reflexivity].
            assert (c = c')
              by (apply (high_byte_alike c c' Hc); right;
                  now apply continuation_high).
            congruence.
        + destruct (continuation b') eqn:Eb'; [|reflexivity].
          assert (b = b')
            by (apply (high_byte_alike b b' Hb); right;
                now apply continuation_high).
          congruence. }
    destruct (between 240 244 a); [|reflexivity].
    destruct s1 as [|b [|c [|d s4]]], t1 as [|b' [|c' [|d' t4]]];
      try (apply same_up_to_case_length in Hst; discriminate Hst);
      try reflexivity.
    apply same_up_to_case_cons in Hst as [Hb Hst].
    apply same_up_to_case_cons in Hst as [Hc Hst].
    apply same_up_to_case_cons in Hst as [Hd Hst]. cbv zeta.
    destruct (continuation b) eqn:Eb.
    + assert (b' = b) as ->
        by (symmetry; apply (high_byte_alike b b' Hb); left;
            now apply continuation_high).
      rewrite Eb. destruct (continuation c) eqn:Ec.
      * assert (c' = c) as ->
          by (symmetry; apply (high_byte_alike c c' Hc); left;
              now apply continuation_high).
        rewrite Ec. destruct (continuation d) eqn:Ed.
        -- assert (d' = d) as ->
             by (symmetry; apply (high_byte_alike d d' Hd); left;
                 now apply continuation_high).
           rewrite Ed. destruct (_ && _) eqn:Eok.
           ++ eexists _, _. split; [reflexivity|]. split; [now left|].
              split; [exact Hst|]. intros _.
              exists (String a (String b (String c (String d EmptyString)))).
              auto.
           ++ reflexivity.
        -- destruct (continuation d') eqn:Ed'; [|reflexivity].
           assert (d = d')
             by (apply (high_byte_alike d d' Hd); right;
                 now apply continuation_high).
           congruence.
      * destruct (continuation c') eqn:Ec'; [|reflexivity].
        assert (c = c')
          by (apply (high_byte_alike c c' Hc); right;
              now apply continuation_high).
        congruence.
    + destruct (continuation b') eqn:Eb'; [|reflexivity].
      assert (b = b')
        by (apply (high_byte_alike b b' Hb); right;
            now apply continuation_high).
      congruence.
Qed.

(** Characters alike are in the same sets and match the same literals. *)
Lemma eq_nocase_alike (x : ascii) (p q : N) :
  alike_points p q -> eq_nocase x p = eq_nocase x q.
Proof.
  intros [->|[H _]]; [reflexivity|]. unfold eq_nocase. now rewrite H.
Qed.

Lemma lower_case_letter_no_digit (p : N) :
  (97 <= lower_point p <= 122)%N -> is_decimal p = false /\ p <> 10%N.
Proof.
  intros H.
  assert (Hp : (65 <= p <= 122)%N \/ p = 304%N \/ p = 8490%N).
  { revert H. unfold lower_point.
    destruct ((65 <=? p)%N && (p <=? 90)%N) eqn:E.
    - apply andb_prop in E as [E1 E2]. apply N.leb_le in E1, E2. lia.
    - destruct (N.eqb_spec p 304); [auto|].
      destruct (N.eqb_spec p 8490); [auto|]. lia. }
  split; [|lia].
  destruct Hp as [Hp|[->| ->]]; [|reflexivity..].
  unfold is_decimal, decimal_value.
  destruct (find _ decimal_zeros) as [z|] eqn:E; [|reflexivity].
  apply find_some in E as [Hin Hz]. exfalso.
  assert (Hzeros : forallb (fun z => (z =? 48)%N || (1632 <=? z)%N)
                     decimal_zeros = true) by reflexivity.
  rewrite forallb_forall in Hzeros. specialize (Hzeros z Hin).
  apply andb_prop in Hz as [H1 H2]. apply N.leb_le in H1. apply N.ltb_lt in H2.
  apply orb_prop in Hzeros as [Hz|Hz];
    [apply N.eqb_eq in Hz|apply N.leb_le in Hz].
  - subst z. revert H. unfold lower_point.
    destruct ((65 <=? p)%N && (p <=? 90)%N) eqn:E.
    + apply andb_prop in E as [E1 E2]. apply N.leb_le in E1, E2. lia.
    + destruct (N.eqb_spec p 304); [lia|].
      destruct (N.eqb_spec p 8490); lia.
  - lia.
Qed.

Lemma in_charset_alike (k : charset) (p q : N) :
  alike_points p q -> in_charset k p = in_charset k q.
Proof.
  intros H. destruct k as [|lo hi| |cs]; cbn [in_charset].
  - destruct H as [->|[Hl Hr]]; [reflexivity|].
    destruct (lower_case_letter_no_digit p Hr) as [-> _].
    rewrite Hl in Hr. now destruct (lower_case_letter_no_digit q Hr) as [-> _].
  - induction (span lo hi) as [|x l IH]; [reflexivity|].
    cbn [existsb]. now rewrite (eq_nocase_alike x p q H), IH.
  - destruct H as [->|[Hl Hr]]; [reflexivity|].
    destruct (lower_case_letter_no_digit p Hr) as [_ Hp].
    rewrite Hl in Hr. destruct (lower_case_letter_no_digit q Hr) as [_ Hq].
    apply N.eqb_neq in Hp, Hq. now rewrite Hp, Hq.
  - induction cs as [|x l IH]; [reflexivity|].
    cbn [existsb]. now rewrite (eq_nocase_alike x p q H), IH.
Qed.

Lemma eat_alike (k : charset) (s t : string) :
  same_up_to_case s t -> option_Forall2 same_up_to_case (eat k s) (eat k t).
Proof.
  intros Hst. pose proof (decode_alike s t Hst) as H. unfold eat.
  destruct (decode s) as [[p s']|].
  - destruct H as (q & t' & -> & Hpq & Hst' & _).
    rewrite (in_charset_alike k p q Hpq).
    destruct (in_charset k q); now constructor.
  - rewrite H. constructor.
Qed.

Lemma eat_lit_alike (x : ascii) (s t : string) :
  same_up_to_case s t ->
  option_Forall2 same_up_to_case (eat_lit x s) (eat_lit x t).
Proof.
  intros Hst. pose proof (decode_alike s t Hst) as H. unfold eat_lit.
  destruct (decode s) as [[p s']|].
  - destruct H as (q & t' & -> & Hpq & Hst' & _).
    rewrite (eq_nocase_alike x p q Hpq).
    destruct (eq_nocase x q); now constructor.
  - rewrite H. constructor.
Qed.

Section MatcherIgnoresCase.
Context {R R' : Type}.
Variable RR : R -> R' -> Prop.

Lemma match_str_alike (p s t : string) (k : string -> option R)
    (k' : string -> option R') :
  same_up_to_case s t ->
  (forall s1 t1, same_up_to_case s1 t1 -> option_Forall2 RR (k s1) (k' t1)) ->
  option_Forall2 RR (match_str p s k) (match_str p t k').
Proof.
  intros Hst Hk. revert s t Hst.
  induction p as [|pc p IH]; intros s t Hst; cbn [match_str]; [now apply Hk|].
  destruct (eat_lit_alike pc s t Hst); [now apply IH|constructor].
Qed.

Lemma plus_greedy_alike (cs : charset) (n : nat) (s t : string)
    (k : string -> option R) (k' : string -> option R') :
  same_up_to_case s t ->
  (forall s1 t1, same_up_to_case s1 t1 -> option_Forall2 RR (k s1) (k' t1)) ->
  option_Forall2 RR (plus_greedy n cs s k) (plus_greedy n cs t k').
Proof.
  intros Hst Hk. revert s t Hst.
  induction n as [|n IH]; intros s t Hst; cbn [plus_greedy]; [constructor|].
  destruct (eat_alike cs s t Hst) as [s' t' Hst'|]; [|constructor].
  destruct (IH s' t' Hst'); [now constructor|now apply Hk].
Qed.

Lemma plus_lazy_alike (cs : charset) (n : nat) (s t : string)
    (k : string -> option R) (k' : string -> option R') :
  same_up_to_case s t ->
  (forall s1 t1, same_up_to_case s1 t1 -> option_Forall2 RR (k s1) (k' t1)) ->
  option_Forall2 RR (plus_lazy n cs s k) (plus_lazy n cs t k').
Proof.
  intros Hst Hk. revert s t Hst.
  induction n as [|n IH]; intros s t Hst; cbn [plus_lazy]; [constructor|].
  destruct (eat_alike cs s t Hst) as [s' t' Hst'|]; [|constructor].
  destruct (Hk s' t' Hst'); [now constructor|now apply IH].
Qed.

Lemma exec_alike (r : regex) :
  forall (s t : string) (g h : groups) (k : string -> groups -> option R)
         (k' : string -> groups -> option R'),
    same_up_to_case s t -> groups_alike g h ->
    (forall s1 t1 g1 h1, same_up_to_case s1 t1 -> groups_alike g1 h1 ->
       option_Forall2 RR (k s1 g1) (k' t1 h1)) ->
    option_Forall2 RR (exec r s g k) (exec r t h k').
Proof.
  induction r as [c|p|cs|r1 IH1 r2 IH2|r1 IH1 r2 IH2|r1 IH1|cs|cs|i r1 IH1];
    intros s t g h k k' Hst Hgh Hk; cbn [exec].
  - apply match_str_alike; [assumption|]. intros s1 t1 H1. now apply Hk.
  - apply match_str_alike; [assumption|]. intros s1 t1 H1. now apply Hk.
  - destruct (eat_alike cs s t Hst); [now apply Hk|constructor].
  - apply IH1; [assumption|assumption|]. intros s1 t1 g1 h1 H1 Hg1.
    now apply IH2.
  - destruct (IH1 s t g h k k' Hst Hgh Hk); [now constructor|now apply IH2].
  - destruct (IH1 s t g h k k' Hst Hgh Hk); [now constructor|now apply Hk].
  - rewrite (same_up_to_case_length s t Hst).
    apply plus_greedy_alike; [assumption|]. intros s1 t1 H1. now apply Hk.
  - rewrite (same_up_to_case_length s t Hst).
    apply plus_lazy_alike; [assumption|]. intros s1 t1 H1. now apply Hk.
  - apply IH1; [assumption|assumption|]. intros s1 t1 g1 h1 H1 Hg1.
    apply Hk; [assumption|]. unfold set_group.
    apply Forall2_insert; [assumption|]. constructor.
    now apply consumed_alike.
Qed.
End MatcherIgnoresCase.

Lemma match_at_alike (p : pattern) (s t : string) :
  same_up_to_case s t ->
  option_Forall2 groups_alike (match_at p s) (match_at p t).
Proof.
  intros Hst. unfold match_at. apply exec_alike.
  - exact Hst.
  - apply Forall2_replicate. constructor.
  - intros s1 t1 g1 h1 _ Hg. now constructor.
Qed.

Lemma option_Forall2_or_else {A B} (RR : A -> B -> Prop) (a a' : option A)
    (b b' : option B) :
  option_Forall2 RR a b -> option_Forall2 RR a' b' ->
  option_Forall2 RR (match a with Some x => Some x | None => a' end)
    (match b with Some y => Some y | None => b' end).
Proof. intros [x y H|] H'; [now constructor|exact H']. Qed.

Lemma search_alike (p : pattern) (s t : string) :
  same_up_to_case s t ->
  option_Forall2 groups_alike (search p s) (search p t).
Proof.
  revert t. induction s as [|c s IH]; intros [|c' t] Hst; try discriminate;
    cbn [search]; apply option_Forall2_or_else;
    try (now apply match_at_alike); [constructor|].
  apply IH. now apply same_up_to_case_cons in Hst as [_ ?].
Qed.

Lemma first_truthy_alike (g h : groups) :
  groups_alike g h ->
  option_Forall2 same_up_to_case (first_truthy g) (first_truthy h).
Proof.
  induction 1 as [|o o' g h Ho Hgh IH]; cbn [first_truthy]; [constructor|].
  destruct Ho as [d d' Hd|]; [|exact IH].
  destruct d as [|c d], d' as [|c' d']; try discriminate; [exact IH|].
  now constructor.
Qed.

Lemma found_alike (p : pattern) (s t : string) :
  same_up_to_case s t ->
  option_Forall2 same_up_to_case (found p s) (found p t).
Proof.
  intros Hst. unfold found.
  destruct (search_alike p s t Hst); [now apply first_truthy_alike|constructor].
Qed.

(** Digits have no case. *)
Lemma digits_alike (d d' : string) :
  made_of Digit d -> same_up_to_case d d' -> d = d'.
Proof.
  intros Hd. revert d'. induction Hd as [|s s' He Hs IH]; intros t Hst.
  - destruct t; [reflexivity|discriminate].
  - pose proof (decode_alike s t Hst) as H. unfold eat in He.
    destruct (decode s) as [[p r]|]; [|discriminate].
    cbn [in_charset] in He. destruct (is_decimal p) eqn:Hp; [|discriminate].
    injection He as ->. destruct H as (q & t' & _ & Hpq & Hst' & Hsame).
    assert (Heq : p = q).
    { destruct Hpq as [?|[_ Hr]]; [assumption|].
      destruct (lower_case_letter_no_digit p Hr). congruence. }
    destruct (Hsame Heq) as (c & -> & ->). now rewrite (IH t' Hst').
Qed.

Lemma found_amount_alike (p : pattern) (s t : string) :
  digit_groups (syntax p) -> same_up_to_case s t -> found p s = found p t.
Proof.
  intros Hp Hst. pose proof (found_amount p s) as Ha.
  destruct (found_alike p s t Hst) as [d d' Hd|]; [|reflexivity].
  destruct (Ha d Hp eq_refl) as (_ & Hdig & _).
  now rewrite (digits_alike d d' Hdig Hd).
Qed.

Lemma totals_alike_refl (w : World) : totals_alike w w.
Proof. repeat split. Qed.

Ltac totals_alike_step :=
  repeat match goal with
         | H : totals_alike _ _ |- _ => destruct H as (? & ? & ? & ?)
         end;
  unfold totals_alike;
  cbn [summary with_summary with_pos with_log append_event append_waifu
       add_berries add_crystals berries_total crystals_total waifus events
       amount_recorded waifu_recorded fst snd];
  rewrite ?length_app; cbn [length]; repeat split; congruence.

Lemma record_berries_alike (d text text' : string) (w w' : World) :
  totals_alike w w' ->
  fst (record_amount Berries add_berries berries_total ParsedBerries d text w)
  = fst (record_amount Berries add_berries berries_total ParsedBerries d text' w')
  /\ totals_alike
       (snd (record_amount Berries add_berries berries_total ParsedBerries d text w))
       (snd (record_amount Berries add_berries berries_total ParsedBerries d text' w')).
Proof.
  intros Hw. rewrite !record_amount_run.
  destruct (int_value d) as [n|e]; [|split; [reflexivity|exact Hw]].
  cbv zeta.
  assert (Ht : berries_total (summary (amount_recorded Berries add_berries n text w))
               = berries_total (summary (amount_recorded Berries add_berries n
                                           text' w')))
    by (destruct Hw as (Hb & _); cbn; now rewrite Hb).
  rewrite Ht. destruct (str_value _); (split; [reflexivity|totals_alike_step]).
Qed.

Lemma record_crystals_alike (d text text' : string) (w w' : World) :
  totals_alike w w' ->
  fst (record_amount Crystals add_crystals crystals_total ParsedCrystals d text w)
  = fst (record_amount Crystals add_crystals crystals_total ParsedCrystals d text' w')
  /\ totals_alike
       (snd (record_amount Crystals add_crystals crystals_total ParsedCrystals d
               text w))
       (snd (record_amount Crystals add_crystals crystals_total ParsedCrystals d
               text' w')).
Proof.
  intros Hw. rewrite !record_amount_run.
  destruct (int_value d) as [n|e]; [|split; [reflexivity|exact Hw]].
  cbv zeta.
  assert (Ht : crystals_total (summary (amount_recorded Crystals add_crystals n
                                          text w))
               = crystals_total (summary (amount_recorded Crystals add_crystals n
                                            text' w')))
    by (destruct Hw as (_ & Hc & _); cbn; now rewrite Hc).
  rewrite Ht. destruct (str_value _); (split; [reflexivity|totals_alike_step]).
Qed.

(** X11.  The patterns ignore the case of ASCII letters.  Two texts that
    differ in nothing else give the same captured amount of berries and of
    crystals, and waifu names that differ in case only; the two calls of
    [extract_and_record] end alike and leave the same totals, as many waifus
    and as many events. *)
Theorem extraction_ignores_case (v : source) (text text' : string) (w : World) :
  same_up_to_case text text' ->
  found (RE_BERRIES v) text = found (RE_BERRIES v) text'
  /\ found (RE_CRYSTALS v) text = found (RE_CRYSTALS v) text'
  /\ option_Forall2 same_up_to_case (found (RE_WAIFU v) text)
       (found (RE_WAIFU v) text')
  /\ fst (extract_and_record v text w) = fst (extract_and_record v text' w)
  /\ totals_alike (snd (extract_and_record v text w))
       (snd (extract_and_record v text' w)).
Proof.
  intros Hst.
  pose proof (found_amount_alike _ _ _ (RE_BERRIES_digit_groups v) Hst) as Hb.
  pose proof (found_amount_alike _ _ _ (RE_CRYSTALS_digit_groups v) Hst) as Hc.
  pose proof (found_alike (RE_WAIFU v) _ _ Hst) as Hw.
  split; [exact Hb|]. split; [exact Hc|]. split; [exact Hw|].
  rewrite !extract_and_record_blocks. unfold bind, when_found.
  rewrite <- Hb, <- Hc.
  assert (H1 : exists r w1 w1',
            match found (RE_BERRIES v) text with
            | Some x => record_amount Berries add_berries berries_total
                          ParsedBerries x text
            | None => ret tt
            end w = (r, w1)
            /\ match found (RE_BERRIES v) text with
               | Some x => record_amount Berries add_berries berries_total
                             ParsedBerries x text'
               | None => ret tt
               end w = (r, w1')
            /\ totals_alike w1 w1').
  { destruct (found (RE_BERRIES v) text) as [d|].
    - destruct (record_berries_alike d text text' w w (totals_alike_refl w))
        as [Hf Ht].
      destruct (record_amount _ _ _ _ d text w) as [r w1],
        (record_amount _ _ _ _ d text' w) as [r' w1']. cbn [fst snd] in Hf, Ht.
      subst r'. exists r, w1, w1'. auto.
    - exists (Ok tt), w, w. repeat split. }
  destruct H1 as (r1 & w1 & w1' & -> & -> & Ht1).
  destruct r1 as [[]|e]; [|split; [reflexivity|exact Ht1]].
  assert (H2 : exists r w2 w2',
            match found (RE_CRYSTALS v) text with
            | Some x => record_amount Crystals add_crystals crystals_total
                          ParsedCrystals x text
            | None => ret tt
            end w1 = (r, w2)
            /\ match found (RE_CRYSTALS v) text with
               | Some x => record_amount Crystals add_crystals crystals_total
                             ParsedCrystals x text'
               | None => ret tt
               end w1' = (r, w2')
            /\ totals_alike w2 w2').
  { destruct (found (RE_CRYSTALS v) text) as [d|].
    - destruct (record_crystals_alike d text text' w1 w1' Ht1) as [Hf Ht].
      destruct (record_amount _ _ _ _ d text w1) as [r w2],
        (record_amount _ _ _ _ d text' w1') as [r' w2']. cbn [fst snd] in Hf, Ht.
      subst r'. exists r, w2, w2'. auto.
    - exists (Ok tt), w1, w1'. auto. }
  destruct H2 as (r2 & w2 & w2' & -> & -> & Ht2).
  destruct r2 as [[]|e]; [|split; [reflexivity|exact Ht2]].
  destruct Hw as [name name' _|]; [|split; [reflexivity|exact Ht2]].
  rewrite !record_waifu_run. split; [reflexivity|]. totals_alike_step.
Qed.

Lemma extraction_ignores_case_witness :
  found (RE_BERRIES File_B_m) "you GAINED 42 berries" = Some "42"
  /\ berries_total (summary (snd (extract_and_record File_B_m
                                    "you GAINED 42 berries" demo_world))) = 42.
Proof.
  destruct (extraction_ignores_case File_B_m "you GAINED 42 berries"
              "You gained 42 Berries" demo_world eq_refl)
    as (Hf & _ & _ & _ & Ht & _).
  split.
  - rewrite Hf. vm_compute. reflexivity.
  - rewrite Ht. vm_compute. reflexivity.
Defined.

(** ** The launch *)

Lemma new_miner_commands (v : source) (session : string) (cmds : list string)
    (sim : bool) (credentials : option string) :
  commands (new_miner v session cmds sim credentials) <> [].
Proof. destruct v, cmds; discriminate. Qed.

Lemma RealClient_send_with_bot (rc : RealClient) (cmd : string) (w : World) :
  bot rc <> EmptyString ->
  RealClient_send rc cmd w
  = try_except (send_message ;; time <- ts ;; info (RealSent time cmd))
      is_RPCError (time <- ts ;; info (ErrorSending time cmd)) w.
Proof.
  intros Hbot. unfold RealClient_send, try_except.
  destruct (String.eqb_spec (bot rc) EmptyString); [contradiction|reflexivity].
Qed.

(** X12.  Launched through [main], the program never reaches the message
    that Telethon is not installed: without credentials [main] has switched
    to simulation, and with credentials but without Telethon the
    construction of the miner raises [RuntimeError] before the test.  When
    the command line interface is entered, the miner has at least one
    command and either simulates, with no real client, or is live with a
    real client whose bot name is not empty; so a dispatch is never the
    silent branch that sends nothing, and [RealClient.send] never the one
    that has no bot.  [main_async] by itself, given a live request without
    credentials and without Telethon, does give up with the message. *)
Theorem main_launch (v : source) (telethon : bool) (a : Args) :
  main v telethon a <> GivesUp
  /\ (main v telethon a = Raises
      <-> args_simulate a = false /\ has_credentials a = true /\ telethon = false)
  /\ (forall m b,
        main v telethon a = EntersCli m b ->
        commands m <> []
        /\ (simulate m = true /\ real_client m = None
              /\ (forall cmd, dispatch v m cmd
                              = (simulate_send v (session_id m) cmd ;; ret tt))
            \/ simulate m = false /\ telethon = true
               /\ exists rc,
                    real_client m = Some rc /\ bot rc <> EmptyString
                    /\ (forall cmd, dispatch v m cmd = RealClient_send rc cmd)
                    /\ forall cmd w,
                         RealClient_send rc cmd w
                         = try_except
                             (send_message ;; time <- ts ;;
                              info (RealSent time cmd))
                             is_RPCError
                             (time <- ts ;; info (ErrorSending time cmd)) w))
  /\ main_async v false bare_args = GivesUp.
Proof.
  unfold main, main_async, Miner_init, main_defaults, has_credentials.
  destruct a as [session sim id hash b cmds]. cbn [args_session args_simulate
    args_api_id args_api_hash args_bot args_commands].
  split; [|split; [|split]].
  - destruct sim, (truthy_int id) eqn:Ei, (truthy_str hash) eqn:Eh,
      (truthy_str b) eqn:Eb, telethon;
      cbn; rewrite ?Ei, ?Eh, ?Eb; cbn; discriminate.
  - destruct sim, (truthy_int id) eqn:Ei, (truthy_str hash) eqn:Eh,
      (truthy_str b) eqn:Eb, telethon;
      cbn; rewrite ?Ei, ?Eh, ?Eb; cbn; intuition discriminate.
  - intros m flag.
    destruct sim, (truthy_int id) eqn:Ei, (truthy_str hash) eqn:Eh,
      (truthy_str b) eqn:Eb, telethon;
      cbn [negb andb args_session args_simulate args_api_id args_api_hash
           args_bot args_commands];
      rewrite ?Ei, ?Eh, ?Eb; cbn [negb andb simulate new_miner];
      try discriminate; intros [= <- _];
      (split; [apply new_miner_commands|]).
    all: try (left; split; [reflexivity|]; split;
              [unfold new_miner; cbn; destruct b; reflexivity|];
              intros cmd; reflexivity).
    right. split; [reflexivity|]. split; [reflexivity|].
    destruct b as [b|]; [|discriminate]. cbn [truthy_str] in Eb.
    apply negb_true_iff in Eb.
    exists {| session_name := SESSION_DIR ++ "/" ++ session; bot := b |}.
    split; [unfold new_miner; cbn [real_client negb andb]; now rewrite Eb|].
    split; [cbn [bot]; now apply String.eqb_neq|].
    split.
    + intros cmd. unfold dispatch, new_miner. cbn [simulate real_client negb andb].
      now rewrite Eb.
    + intros cmd w. apply RealClient_send_with_bot. cbn [bot].
      now apply String.eqb_neq.
  - destruct v; reflexivity.
Qed.

(** ** The matcher finds a match where there is one *)

Section MatcherComplete.
Context {R : Type}.

Lemma plus_greedy_complete (cs : charset) (d s : string) (k : string -> option R) :
  d <> EmptyString -> made_of cs d -> k s <> None ->
  plus_greedy (String.length (d ++ s)) cs (d ++ s) k <> None.
Proof.
  intros Hne Hall Hk. induction Hall as [|s0 s1 He Hs IH]; [contradiction|].
  rewrite plus_greedy_eq, (eat_append _ _ _ s He).
  destruct (plus_greedy _ cs (s1 ++ s) k); [discriminate|].
  destruct s1 as [|c s1]; [now rewrite append_nil|].
  exfalso. exact (IH ltac:(discriminate) eq_refl).
Qed.

Lemma plus_lazy_complete (cs : charset) (d s : string) (k : string -> option R) :
  d <> EmptyString -> made_of cs d -> k s <> None ->
  plus_lazy (String.length (d ++ s)) cs (d ++ s) k <> None.
Proof.
  intros Hne Hall Hk. induction Hall as [|s0 s1 He Hs IH]; [contradiction|].
  rewrite plus_lazy_eq, (eat_append _ _ _ s He).
  destruct (k (s1 ++ s)) eqn:E; [discriminate|].
  destruct s1 as [|c s1]; [now rewrite append_nil in E|].
  apply IH. discriminate.
Qed.

Lemma exec_complete (r : regex) (d : string) :
  matches r d ->
  forall (s : string) (g : groups) (k : string -> groups -> option R),
    (forall g', k s g' <> None) -> exec r (d ++ s) g k <> None.
Proof.
  induction 1 as [c d Hc|p d Hd|cs d Hc|r1 r2 d1 d2 _ IH1 _ IH2|r1 r2 d _ IH
                 |r1 r2 d _ IH|r|r d _ IH|cs d Hne Hall|cs d Hne Hall|i r d _ IH];
    intros s g k Hk; cbn [exec].
  - cbn [match_str]. rewrite (eat_lit_append _ _ _ s Hc), append_nil. apply Hk.
  - rewrite (match_str_append p d) by assumption. apply Hk.
  - rewrite (eat_append _ _ _ s Hc), append_nil. apply Hk.
  - rewrite string_append_assoc. apply IH1. intros g'. now apply IH2.
  - destruct (exec r1 (d ++ s) g k) eqn:E; [discriminate|].
    exfalso. exact (IH s g k Hk E).
  - destruct (exec r1 (d ++ s) g k); [discriminate|]. now apply IH.
  - rewrite append_nil. destruct (exec r s g k); [discriminate|apply Hk].
  - destruct (exec r (d ++ s) g k) eqn:E; [discriminate|].
    exfalso. exact (IH s g k Hk E).
  - apply plus_greedy_complete; [assumption|assumption|apply Hk].
  - apply plus_lazy_complete; [assumption|assumption|apply Hk].
  - apply IH. intros g'. apply Hk.
Qed.
End MatcherComplete.

Lemma search_complete (p : pattern) (a d b : string) :
  matches (syntax p) d -> search p (a ++ d ++ b) <> None.
Proof.
  intros Hm.
  assert (Hat : match_at p (d ++ b) <> None)
    by (unfold match_at; apply exec_complete; [exact Hm|discriminate]).
  induction a as [|c a IH].
  - rewrite append_nil. destruct (d ++ b) as [|c s]; cbn [search];
      destruct (match_at p _); congruence.
  - rewrite append_cons. cbn [search].
    destruct (match_at p (String c _)); [discriminate|exact IH].
Qed.

(** Where a pattern whose every match sets a group has a match, the
    search finds a group that is set and holds what [Q] describes. *)
Lemma found_complete (Q : string -> Prop) (p : pattern) (a d b : string) :
  (forall x, Q x -> x <> EmptyString) ->
  groups_match Q (syntax p) -> sets_group (ngroups p) (syntax p) ->
  matches (syntax p) d ->
  exists x, found p (a ++ d ++ b) = Some x /\ part_of x (a ++ d ++ b) /\ Q x.
Proof.
  intros HQ Hp Hset Hm. unfold found.
  destruct (search p (a ++ d ++ b)) as [g|] eqn:E;
    [|now apply search_complete in E].
  destruct (search_sound Q p _ g HQ Hp E) as [Hg Ht].
  destruct (first_truthy g) as [x|] eqn:Ex; [|now apply Ht in Hset].
  exists x. split; [reflexivity|]. exact (first_truthy_captured _ _ _ _ Hg Ex).
Qed.

(** A literal of a pattern matches itself. *)
Ltac literal :=
  constructor; repeat (eapply same_nocase_cons; [reflexivity|]); constructor.

Lemma matches_amount (cs : charset) (i : nat) (n : string) :
  n <> EmptyString -> made_of cs n -> matches (Group i (Plus cs)) n.
Proof. intros Hne Hall. now do 2 constructor. Qed.

Lemma digits_in_0_9 (n : string) :
  all_chars is_digit n = true -> made_of (Range "0" "9") n.
Proof.
  induction n as [|c n IH]; [constructor|].
  cbn [all_chars]. intros [Hc Hn]%andb_prop. apply is_digit_code in Hc.
  eapply made_of_cons; [|exact (IH Hn)].
  rewrite eat_ascii by lia. now rewrite (proj2 (in_0_9 (code c)) Hc).
Qed.

Lemma berries_phrase_matches (v : source) (n phrase : string) :
  berries_phrase n phrase -> matches (syntax (RE_BERRIES v)) phrase.
Proof.
  intros [[Hne Hn] Hp].
  pose proof (fun i => matches_amount Digit i n Hne Hn) as Hg.
  destruct v; destruct Hp as [-> | [-> | ->]]; cbn [syntax RE_BERRIES
    B_m.RE_BERRIES B_m2.RE_BERRIES].
  all: first
    [ apply matches_Alt_l;
      apply matches_Cat; [literal|];
      apply matches_Cat; [apply Hg|literal]
    | apply matches_Alt_r, matches_Alt_l;
      apply matches_Cat; [literal|];
      apply matches_Cat; [apply Hg|literal]
    | apply matches_Alt_r, matches_Alt_r;
      apply matches_Cat; [literal|apply Hg] ].
Qed.

Lemma crystals_phrase_matches (v : source) (n phrase : string) :
  crystals_phrase n phrase -> matches (syntax (RE_CRYSTALS v)) phrase.
Proof.
  assert (Hs : matches (In_ (OneOf ["s"%char])) "s") by (now constructor).
  assert (Hc : matches (Lit ":") ":") by (now constructor).
  assert (Hb : matches (Lit " ") " ") by (now constructor).
  intros [[[Hne Hn] ->]|[[Hne Hn] Hp]].
  { destruct v; cbn [syntax RE_CRYSTALS B_m.RE_CRYSTALS B_m2.RE_CRYSTALS];
      apply matches_Alt_l; (apply matches_Cat; [|literal]);
      apply matches_amount; [assumption|now apply digits_in_0_9
                            |assumption|now apply digits_in_0_9]. }
  pose proof (fun i => matches_amount Digit i n Hne Hn) as Hg.
  destruct v; destruct Hp as [-> | [-> | [-> | ->]]];
    cbn [syntax RE_CRYSTALS B_m.RE_CRYSTALS B_m2.RE_CRYSTALS].
  all: apply matches_Alt_r.
  all: match goal with
       | |- matches _ ("crystal " ++ ?n0) =>
           change (matches (Cat (Str "crystal")
                     (Cat (Opt (In_ (OneOf ["s"%char])))
                     (Cat (Opt (Lit ":")) (Cat (Lit " ") (Group 2 (Plus Digit))))))
                     ("crystal" ++ EmptyString ++ EmptyString ++ " " ++ n0))
       | |- matches _ ("crystals " ++ ?n0) =>
           change (matches (Cat (Str "crystal")
                     (Cat (Opt (In_ (OneOf ["s"%char])))
                     (Cat (Opt (Lit ":")) (Cat (Lit " ") (Group 2 (Plus Digit))))))
                     ("crystal" ++ "s" ++ EmptyString ++ " " ++ n0))
       | |- matches _ ("crystal: " ++ ?n0) =>
           change (matches (Cat (Str "crystal")
                     (Cat (Opt (In_ (OneOf ["s"%char])))
                     (Cat (Opt (Lit ":")) (Cat (Lit " ") (Group 2 (Plus Digit))))))
                     ("crystal" ++ EmptyString ++ ":" ++ " " ++ n0))
       | |- matches _ ("crystals: " ++ ?n0) =>
           change (matches (Cat (Str "crystal")
                     (Cat (Opt (In_ (OneOf ["s"%char])))
                     (Cat (Opt (Lit ":")) (Cat (Lit " ") (Group 2 (Plus Digit))))))
                     ("crystal" ++ "s" ++ ":" ++ " " ++ n0))
       end.
  all: apply matches_Cat; [literal|].
  all: apply matches_Cat;
    [first [apply matches_Opt_none | apply matches_Opt_some, Hs]|].
  all: apply matches_Cat;
    [first [apply matches_Opt_none | apply matches_Opt_some, Hc]|].
  all: apply matches_Cat; [apply Hb|apply Hg].
Qed.

Lemma waifu_phrase_matches (v : source) (x phrase : string) :
  waifu_phrase x phrase -> matches (syntax (RE_WAIFU v)) phrase.
Proof.
  intros (Hne & Hall & Hp).
  assert (Hg : forall i, matches (Group i (Cat (PlusLazy AnyButNewline)
                                            (Str " Waifu"))) (x ++ " Waifu")).
  { intros i. constructor. apply matches_Cat; [now constructor|literal]. }
  destruct v; destruct Hp as [-> | [-> | [-> | ->]]];
    cbn [syntax RE_WAIFU B_m.RE_WAIFU B_m2.RE_WAIFU].
  all: try (apply matches_Alt_r; apply matches_Cat; [literal|apply Hg]).
  all: apply matches_Alt_l.
  all: match goal with
       | |- matches _ ("got " ++ ?x0 ++ " Waifu") =>
           change (matches (Cat (Str "got ")
                     (Cat (Opt (Alt (Str "a ") (Str "an ")))
                        (Group 1 (Cat (PlusLazy AnyButNewline) (Str " Waifu")))))
                     ("got " ++ EmptyString ++ x0 ++ " Waifu"))
       | |- matches _ ("got a " ++ ?x0 ++ " Waifu") =>
           change (matches (Cat (Str "got ")
                     (Cat (Opt (Alt (Str "a ") (Str "an ")))
                        (Group 1 (Cat (PlusLazy AnyButNewline) (Str " Waifu")))))
                     ("got " ++ "a " ++ x0 ++ " Waifu"))
       | |- matches _ ("got an " ++ ?x0 ++ " Waifu") =>
           change (matches (Cat (Str "got ")
                     (Cat (Opt (Alt (Str "a ") (Str "an ")))
                        (Group 1 (Cat (PlusLazy AnyButNewline) (Str " Waifu")))))
                     ("got " ++ "an " ++ x0 ++ " Waifu"))
       end.
  all: apply matches_Cat; [literal|].
  all: apply matches_Cat; [|apply Hg].
  - apply matches_Opt_none.
  - apply matches_Opt_some, matches_Alt_l. literal.
  - apply matches_Opt_some, matches_Alt_r. literal.
  - apply matches_Opt_none.
  - apply matches_Opt_some, matches_Alt_l. literal.
  - apply matches_Opt_some, matches_Alt_r. literal.
Qed.

Lemma RE_sets_group (v : source) :
  sets_group (ngroups (RE_BERRIES v)) (syntax (RE_BERRIES v))
  /\ sets_group (ngroups (RE_CRYSTALS v)) (syntax (RE_CRYSTALS v))
  /\ sets_group (ngroups (RE_WAIFU v)) (syntax (RE_WAIFU v)).
Proof. destruct v; cbn; intuition lia. Qed.

(** What a call that returns has recorded: an event for each pattern that
    has found something. *)
Lemma record_amount_returned event add total entry (d text : string)
    (w w1 : World) :
  (forall n s, events (add n s) = events s) ->
  record_amount event add total entry d text w = (Ok tt, w1) ->
  exists n, int_value d = Ok n
            /\ events (summary w1)
               = (events (summary w) ++ [event (stamp w) n text])%list.
Proof.
  intros Hadd. rewrite record_amount_run.
  destruct (int_value d) as [n|e]; [|discriminate]. cbv zeta.
  destruct (str_value _); [|discriminate]. intros [= <-].
  exists n. split; [reflexivity|]. cbn. now rewrite Hadd.
Qed.

Lemma extract_and_record_returned (v : source) (text : string) (w w' : World) :
  extract_and_record v text w = (Ok tt, w') ->
  (forall d, found (RE_BERRIES v) text = Some d ->
     exists t n, int_value d = Ok n
                 /\ In (Berries t n text) (events (summary w')))
  /\ (forall d, found (RE_CRYSTALS v) text = Some d ->
     exists t n, int_value d = Ok n
                 /\ In (Crystals t n text) (events (summary w')))
  /\ (forall name, found (RE_WAIFU v) text = Some name ->
     exists t, In (Waifu t name text) (events (summary w'))).
Proof.
  rewrite extract_and_record_blocks. unfold bind.
  destruct (when_found (RE_BERRIES v) text _ w) as [[[]|e1] w1] eqn:E1;
    [|discriminate].
  destruct (when_found (RE_CRYSTALS v) text _ w1) as [[[]|e2] w2] eqn:E2;
    [|discriminate].
  intros E3. unfold when_found in E1, E2, E3.
  assert (H3 : exists l3, events (summary w') = (events (summary w2) ++ l3)%list
             /\ forall name, found (RE_WAIFU v) text = Some name ->
                  exists t, In (Waifu t name text) l3).
  { destruct (found (RE_WAIFU v) text) as [name|].
    - rewrite record_waifu_run in E3. injection E3 as <-.
      eexists [_]. split; [reflexivity|]. intros ? [= <-]. eexists. now left.
    - injection E3 as <-. exists []. rewrite app_nil_r. split; [reflexivity|].
      discriminate. }
  assert (H2 : exists l2, events (summary w2) = (events (summary w1) ++ l2)%list
             /\ forall d, found (RE_CRYSTALS v) text = Some d ->
                  exists t n, int_value d = Ok n /\ In (Crystals t n text) l2).
  { destruct (found (RE_CRYSTALS v) text) as [d|].
    - apply record_amount_returned in E2 as (n & Hn & He); [|reflexivity].
      eexists [_]. split; [exact He|]. intros ? [= <-]. eexists _, n.
      split; [exact Hn|now left].
    - injection E2 as <-. exists []. rewrite app_nil_r. split; [reflexivity|].
      discriminate. }
  assert (H1 : exists l1, events (summary w1) = (events (summary w) ++ l1)%list
             /\ forall d, found (RE_BERRIES v) text = Some d ->
                  exists t n, int_value d = Ok n /\ In (Berries t n text) l1).
  { destruct (found (RE_BERRIES v) text) as [d|].
    - apply record_amount_returned in E1 as (n & Hn & He); [|reflexivity].
      eexists [_]. split; [exact He|]. intros ? [= <-]. eexists _, n.
      split; [exact Hn|now left].
    - injection E1 as <-. exists []. rewrite app_nil_r. split; [reflexivity|].
      discriminate. }
  destruct H1 as (l1 & He1 & H1), H2 as (l2 & He2 & H2), H3 as (l3 & He3 & H3).
  rewrite He3, He2, He1. split; [|split].
  - intros d Hd. destruct (H1 d Hd) as (t & n & Hn & Hin).
    exists t, n. split; [exact Hn|]. rewrite !in_app_iff. auto.
  - intros d Hd. destruct (H2 d Hd) as (t & n & Hn & Hin).
    exists t, n. split; [exact Hn|]. rewrite !in_app_iff. auto.
  - intros name Hd. destruct (H3 name Hd) as (t & Hin).
    exists t. rewrite !in_app_iff. auto.
Qed.

(** X14.  No phrase is missed.  A text that holds one of the phrases of a
    pattern, anywhere and whatever stands around it, has a match of that
    pattern: the search finds an amount, a run of decimal digits, for the
    berries phrases and for the crystals phrases, and a name for the waifu
    phrases; and when the call then returns, it has recorded an event of
    that kind for the text.  What is found is that of the leftmost match,
    which may be another phrase of the text. *)
Theorem no_phrase_is_missed (v : source) (a phrase b : string) (w : World) :
  let text := a ++ phrase ++ b in
  let w' := snd (extract_and_record v text w) in
  (forall n, berries_phrase n phrase ->
     exists d, found (RE_BERRIES v) text = Some d /\ decimal_digits d
               /\ (fst (extract_and_record v text w) = Ok tt ->
                   exists t k, int_value d = Ok k
                               /\ In (Berries t k text) (events (summary w'))))
  /\ (forall n, crystals_phrase n phrase ->
     exists d, found (RE_CRYSTALS v) text = Some d /\ decimal_digits d
               /\ (fst (extract_and_record v text w) = Ok tt ->
                   exists t k, int_value d = Ok k
                               /\ In (Crystals t k text) (events (summary w'))))
  /\ (forall x, waifu_phrase x phrase ->
     exists name, found (RE_WAIFU v) text = Some name /\ waifu_name name
                  /\ (fst (extract_and_record v text w) = Ok tt ->
                      exists t, In (Waifu t name text) (events (summary w')))).
Proof.
  cbv zeta. destruct (RE_sets_group v) as (Sb & Sc & Sw).
  assert (Hret : fst (extract_and_record v (a ++ phrase ++ b) w) = Ok tt ->
            extract_and_record v (a ++ phrase ++ b) w
            = (Ok tt, snd (extract_and_record v (a ++ phrase ++ b) w)))
    by (destruct (extract_and_record v _ w) as [r w']; cbn; now intros ->).
  split; [|split].
  - intros n Hp.
    destruct (found_complete decimal_digits (RE_BERRIES v) a phrase b
                decimal_digits_nonempty
                (RE_BERRIES_groups v) Sb (berries_phrase_matches v n _ Hp))
      as (d & Hd & _ & Hdig).
    exists d. split; [exact Hd|]. split; [exact Hdig|]. intros Hok.
    apply Hret, extract_and_record_returned in Hok as (H & _). now apply H.
  - intros n Hp.
    destruct (found_complete decimal_digits (RE_CRYSTALS v) a phrase b
                decimal_digits_nonempty
                (RE_CRYSTALS_groups v) Sc (crystals_phrase_matches v n _ Hp))
      as (d & Hd & _ & Hdig).
    exists d. split; [exact Hd|]. split; [exact Hdig|]. intros Hok.
    apply Hret, extract_and_record_returned in Hok as (_ & H & _). now apply H.
  - intros x Hp.
    destruct (found_complete waifu_name (RE_WAIFU v) a phrase b
                waifu_name_nonempty (RE_WAIFU_groups v) Sw
                (waifu_phrase_matches v x _ Hp))
      as (name & Hd & _ & Hname).
    exists name. split; [exact Hd|]. split; [exact Hname|]. intros Hok.
    apply Hret, extract_and_record_returned in Hok as (_ & _ & H). now apply H.
Qed.

Example phrase_in_the_middle :
  found (RE_CRYSTALS File_B_m) "Loot: crystals: 12, and you got an Ice Waifu!"
  = Some "12"
  /\ found (RE_WAIFU File_B_m) "Loot: crystals: 12, and you got an Ice Waifu!"
     = Some "Ice Waifu".
Proof. vm_compute. split; reflexivity. Qed.

(** The leftmost match counts, in whatever script its digits are. *)
Example leftmost_phrase_in_another_script :
  found (RE_BERRIES File_B_m) "Berries: ٣ and discovered 5 Berries" = Some "٣"
  /\ int_value "٣" = Ok 3
  /\ found (RE_CRYSTALS File_B_m) "cryſtal 5" = Some "5".
Proof. vm_compute. repeat split; reflexivity. Qed.

(** ** Decimal strings are read back *)

(** The characters of a string of ASCII bytes are its bytes. *)
Lemma points_bytes (s : string) :
  all_chars (fun c => (code c <? 128)%N) s = true ->
  points s = Some (map code (list_ascii_of_string s)).
Proof.
  induction s as [|c s IH]; [reflexivity|].
  cbn [all_chars]. intros [Hc Hs]%andb_prop. apply N.ltb_lt in Hc.
  cbn [list_ascii_of_string map].
  exact (points_cons _ _ _ _ (decode_ascii c s Hc) (IH Hs)).
Qed.

Lemma string_of_uint_digits (d : Decimal.uint) :
  all_chars is_digit (NilEmpty.string_of_uint d) = true.
Proof. induction d; cbn [NilEmpty.string_of_uint all_chars]; auto. Qed.

Lemma digits_bytes (s : string) :
  all_chars is_digit s = true ->
  all_chars (fun c => (code c <? 128)%N) s = true.
Proof.
  apply all_chars_impl. intros c Hc%is_digit_code. apply N.ltb_lt. lia.
Qed.

Lemma parse_digits_of_uint_acc (d : Decimal.uint) (acc : positive) :
  parse_digits (map code (list_ascii_of_string (NilEmpty.string_of_uint d)))
    (Z.pos acc)
  = Some (Z.pos (Pos.of_uint_acc d acc)).
Proof.
  revert acc.
  induction d; intros acc;
    cbn [NilEmpty.string_of_uint list_ascii_of_string map parse_digits
         Pos.of_uint_acc]; [reflexivity|..];
    match goal with
    | |- context [decimal_value ?c] =>
        let x := eval vm_compute in (decimal_value c) in
        change (decimal_value c) with x; cbv beta iota
    end;
    rewrite <- IHd; f_equal; lia.
Qed.

Lemma parse_digits_of_uint (d : Decimal.uint) :
  parse_digits (map code (list_ascii_of_string (NilEmpty.string_of_uint d))) 0
  = Some (Z.of_N (Pos.of_uint d)).
Proof.
  induction d;
    cbn [NilEmpty.string_of_uint list_ascii_of_string map parse_digits
         Pos.of_uint];
    [reflexivity|..];
    match goal with
    | |- context [decimal_value ?c] =>
        let x := eval vm_compute in (decimal_value c) in
        change (decimal_value c) with x; cbv beta iota
    end;
    [exact IHd|..];
    match goal with
    | |- parse_digits _ (10 * 0 + ?k) = _ =>
        change (10 * 0 + k) with k
    end;
    apply parse_digits_of_uint_acc.
Qed.

Lemma parse_digits_at_least (l : list N) (acc n : Z) :
  parse_digits l acc = Some n -> 0 <= acc ->
  acc * 10 ^ Z.of_nat (length l) <= n.
Proof.
  revert acc. induction l as [|p l IH]; intros acc.
  - cbn. intros [= <-] _. lia.
  - cbn [parse_digits length].
    destruct (decimal_value p) as [d|] eqn:Hd; [|discriminate].
    apply decimal_value_range in Hd. intros H Hacc.
    apply IH in H; [|lia].
    rewrite Nat2Z.inj_succ, Z.pow_succ_r by lia.
    assert (0 < 10 ^ Z.of_nat (length l)) by (apply Z.pow_pos_nonneg; lia).
    nia.
Qed.

(** The decimal form of a positive number begins with a digit that is not
    zero. *)
Lemma to_uint_head (p : positive) :
  exists c s, NilEmpty.string_of_uint (Pos.to_uint p) = String c s
              /\ exists k, decimal_value (code c) = Some k /\ 1 <= k.
Proof.
  assert (Hn : Pos.to_uint p = Decimal.unorm (Pos.to_uint p)).
  { rewrite <- DecimalPos.Unsigned.to_of, DecimalPos.Unsigned.of_to.
    reflexivity. }
  assert (Hz : Pos.to_uint p <> Decimal.D0 Decimal.Nil).
  { intros E. pose proof (DecimalPos.Unsigned.of_to p) as H. rewrite E in H.
    discriminate. }
  assert (Hh : Pos.to_uint p = Decimal.nzhead (Pos.to_uint p)).
  { rewrite Hn at 1. unfold Decimal.unorm.
    destruct (Decimal.nzhead (Pos.to_uint p)) eqn:E; try reflexivity.
    exfalso. apply Hz. rewrite Hn. unfold Decimal.unorm. now rewrite E. }
  assert (Hnil : Pos.to_uint p <> Decimal.Nil).
  { intros E. pose proof (DecimalPos.Unsigned.of_to p) as H. rewrite E in H.
    discriminate. }
  destruct (Pos.to_uint p) as [|u|u|u|u|u|u|u|u|u|u] eqn:E;
    [contradiction| |..];
    try (cbn [NilEmpty.string_of_uint]; eexists _, _; split; [reflexivity|];
         eexists; split; [vm_compute; reflexivity|lia]).
  exfalso. exact (DecimalFacts.nzhead_nonzero _ _ (eq_sym Hh)).
Qed.

(** [int(str(n)) == n]: within the digit limit, the decimal form of a
    number that is not negative is made of digits and is read back as the
    number. *)
Lemma int_value_decimal (n : Z) :
  0 <= n < str_limit ->
  digits (decimal n) /\ int_value (decimal n) = Ok n.
Proof.
  intros [Hn Hlim].
  assert (Hdig : all_chars is_digit (decimal n) = true).
  { unfold decimal. destruct n as [|p|p]; [reflexivity| |lia].
    apply string_of_uint_digits. }
  pose proof (points_bytes _ (digits_bytes _ Hdig)) as Hpoints.
  set (l := map code (list_ascii_of_string (decimal n))) in *.
  assert (Hp : parse_digits l 0 = Some n).
  { unfold l, decimal. destruct n as [|p|p]; [reflexivity| |lia].
    cbn [Z.to_int NilEmpty.string_of_int]. rewrite parse_digits_of_uint.
    now rewrite DecimalPos.Unsigned.of_to. }
  assert (Hne : decimal n <> EmptyString).
  { unfold decimal. destruct n as [|p|p]; [discriminate| |lia].
    cbn [Z.to_int NilEmpty.string_of_int].
    destruct (to_uint_head p) as (c & s & -> & _). discriminate. }
  assert (Hlen : (length l <= int_max_str_digits)%nat).
  { destruct n as [|p|p]; [cbn; unfold int_max_str_digits; lia| |lia].
    unfold l, decimal in Hp |- *.
    cbn [Z.to_int NilEmpty.string_of_int] in Hp |- *.
    destruct (to_uint_head p) as (c & s & Hs & k & Hk & Hk1).
    rewrite Hs in Hp |- *. cbn [list_ascii_of_string map parse_digits] in Hp.
    rewrite Hk in Hp. apply parse_digits_at_least in Hp; [|lia].
    cbn [list_ascii_of_string map length].
    set (m := length (map code (list_ascii_of_string s))) in *.
    destruct (Nat.le_gt_cases (S m) int_max_str_digits) as [?|Hgt];
      [assumption|exfalso].
    assert (Hpow : 10 ^ Z.of_nat int_max_str_digits <= 10 ^ Z.of_nat m)
      by (apply Z.pow_le_mono_r; lia).
    unfold str_limit in Hlim.
    assert (0 < 10 ^ Z.of_nat m) by (apply Z.pow_pos_nonneg; lia).
    nia. }
  split; [split; assumption|].
  unfold int_value. rewrite Hpoints, Hp.
  destruct l as [|p l'] eqn:El.
  { exfalso. destruct (decimal n); [contradiction|discriminate El]. }
  destruct (Nat.ltb_spec int_max_str_digits (length (p :: l')));
    [lia|reflexivity].
Qed.

Lemma str_value_read_back (n : Z) :
  0 <= n -> str_value n <> Raised ValueError_max_str_digits ->
  exists d, str_value n = Ok d /\ digits d /\ int_value d = Ok n.
Proof.
  intros Hn. unfold str_value. destruct (Z.leb_spec str_limit (Z.abs n)).
  - intros Hr. now destruct Hr.
  - intros _. exists (decimal n). split; [reflexivity|].
    apply int_value_decimal. lia.
Qed.

(** X15. [_write_summary] of [B_m.py], the CSV file: when [json.dump] has
    written the events without raising, and no recorded amount is negative,
    the CSV writer does not raise either; it writes the header and then one
    row for each event, in the order of the events, with the time, the type
    and the amount in decimal digits that [int] reads back as the amount, or
    the name of the waifu. *)
Theorem csv_rows_show_the_events (s : Summary) :
  dump_events (events s) = Ok tt ->
  Forall natural_amount (events s) ->
  exists rows,
    csv_file s = Ok (csv_header :: rows)
    /\ length rows = length (events s)
    /\ Forall2 shows (events s) rows.
Proof.
  unfold csv_file. generalize (events s). clear s.
  induction l as [|e l IH]; intros Hd Hn.
  - exists []. cbn. repeat split. constructor.
  - apply Forall_cons_1 in Hn as [He Hl].
    assert (Hrest : dump_events l = Ok tt
                    /\ exists row, csv_row e = Ok row /\ shows e row).
    { destruct e as [t n x|t n x|t n x]; cbn [dump_events csv_row shows] in *.
      - destruct (str_value_read_back n He) as (d & E & Hdig & Hint).
        { intros E. rewrite E in Hd. discriminate. }
        rewrite E in Hd |- *. split; [exact Hd|].
        eexists. split; [reflexivity|]. exists d. auto.
      - destruct (str_value_read_back n He) as (d & E & Hdig & Hint).
        { intros E. rewrite E in Hd. discriminate. }
        rewrite E in Hd |- *. split; [exact Hd|].
        eexists. split; [reflexivity|]. exists d. auto.
      - split; [exact Hd|]. eexists. split; reflexivity. }
    destruct Hrest as (Hd' & row & Hrow & Hshows).
    destruct (IH Hd' Hl) as (rows & E & Hlen & Hall).
    cbn [csv_rows]. rewrite Hrow.
    destruct (csv_rows l) as [rows'|]; [|discriminate].
    injection E as <-. exists (row :: rows'). cbn [length].
    repeat split; [congruence|]. now constructor.
Qed.

Lemma csv_rows_show_the_events_witness :
  dump_events (events csv_demo) = Ok tt
  /\ Forall natural_amount (events csv_demo)
  /\ exists rows,
       csv_file csv_demo = Ok (csv_header :: rows)
       /\ length rows = length (events csv_demo)
       /\ Forall2 shows (events csv_demo) rows.
Proof.
  assert (Hd : dump_events (events csv_demo) = Ok tt) by (vm_compute; reflexivity).
  assert (Hn : Forall natural_amount (events csv_demo)).
  { repeat constructor; cbn; lia. }
  split; [exact Hd|]. split; [exact Hn|].
  exact (csv_rows_show_the_events csv_demo Hd Hn).
Defined.
